(** * Elliptical-arc geometry: [convertArcParams] and [arcBound]

    A shallow embedding of the arc module of [src/components/utils.ts]: the
    conversion of an SVG endpoint arc to its centre parameterization and the
    bounding box of the arc; and of the Cartesian product of the same file
    with the arcs that [src/index.tsx] builds from it.

    Numbers.  The source computes with JavaScript numbers, the binary64
    floating-point numbers of IEEE 754.  They are embedded twice.

    - [number]: a real, one of the two infinities, or NaN.  The non-finite
      values follow the rules of the language: what overflows to an infinity
      by a division by zero, what is invalid and gives NaN, comparisons with
      NaN being false.  Finite values are exact reals: rounding and overflow
      of finite results are not modelled, and zero has no sign (a zero
      divisor counts as +0).  A statement on [number] is about what the
      code computes up to the rounding of each operation.  Where rounding,
      overflow or the sign of zero can decide a property (a comparison with
      zero, an argument of [Math.acos] at the edge of its domain, a square
      that overflows), the statement has a form that holds either way: a
      tolerance, a closed range that admits NaN, an equality of two results
      that the code reaches by the same operations, a hypothesis on a value
      that the code computes.
    - [Double]: binary64 itself, on the primitive floating-point numbers,
      with [Math.sin], [Math.cos] and [Math.acos], which the language leaves
      to the implementation, as a parameter.  It evaluates
      [convertArcParams] at inputs where rounding, overflow or the sign of
      zero decide the result. *)

From Stdlib Require Import Floats.
From Stdlib Require Import Reals Lra Psatz List Bool ZArith.
Import ListNotations.

Local Open Scope R_scope.

(** ** JavaScript numbers *)

Inductive number : Type :=
| NaN
| PInf
| NInf
| Fin (r : R).

Declare Scope js_scope.
Delimit Scope js_scope with js.
Bind Scope js_scope with number.

Definition is_finite (a : number) : Prop :=
  match a with Fin _ => True | _ => False end.

Definition is_nan (a : number) : Prop :=
  match a with NaN => True | _ => False end.

(** The infinity of the sign of [r], NaN at zero: the product of an infinity
    (taken positive) by [r]. *)
Definition inf_times (r : R) : number :=
  if Req_dec_T r 0 then NaN
  else if Rlt_dec 0 r then PInf else NInf.

Definition num_neg (a : number) : number :=
  match a with
  | NaN => NaN
  | PInf => NInf
  | NInf => PInf
  | Fin r => Fin (- r)
  end.

Definition num_add (a b : number) : number :=
  match a, b with
  | NaN, _ | _, NaN => NaN
  | PInf, NInf | NInf, PInf => NaN
  | PInf, _ | _, PInf => PInf
  | NInf, _ | _, NInf => NInf
  | Fin x, Fin y => Fin (x + y)
  end.

Definition num_sub (a b : number) : number := num_add a (num_neg b).

Definition num_mul (a b : number) : number :=
  match a, b with
  | NaN, _ | _, NaN => NaN
  | PInf, PInf | NInf, NInf => PInf
  | PInf, NInf | NInf, PInf => NInf
  | PInf, Fin r | Fin r, PInf => inf_times r
  | NInf, Fin r | Fin r, NInf => num_neg (inf_times r)
  | Fin x, Fin y => Fin (x * y)
  end.

Definition num_div (a b : number) : number :=
  match a, b with
  | NaN, _ | _, NaN => NaN
  | Fin x, Fin y => if Req_dec_T y 0 then inf_times x else Fin (x / y)
  | Fin _, _ => Fin 0
  | PInf, Fin y => if Rlt_dec y 0 then NInf else PInf
  | NInf, Fin y => if Rlt_dec y 0 then PInf else NInf
  | _, _ => NaN
  end.

(** Truncation towards zero, and the remainder [%] of the language: the
    result has the sign of the dividend. *)
Definition Rtrunc (x : R) : Z :=
  if Rle_dec 0 x then Zfloor x else (- Zfloor (- x))%Z.

Definition num_rem (a b : number) : number :=
  match a, b with
  | Fin x, Fin y => if Req_dec_T y 0 then NaN else Fin (x - y * IZR (Rtrunc (x / y)))
  | Fin x, PInf | Fin x, NInf => Fin x
  | _, _ => NaN
  end.

Definition num_ltb (a b : number) : bool :=
  match a, b with
  | NaN, _ | _, NaN => false
  | _, NInf | PInf, _ => false
  | NInf, _ | _, PInf => true
  | Fin x, Fin y => if Rlt_dec x y then true else false
  end.

Definition num_gtb (a b : number) : bool := num_ltb b a.

Definition num_leb (a b : number) : bool :=
  match a, b with
  | NaN, _ | _, NaN => false
  | NInf, _ | _, PInf => true
  | _, NInf | PInf, _ => false
  | Fin x, Fin y => if Rle_dec x y then true else false
  end.

Definition num_geb (a b : number) : bool := num_leb b a.

(** [==] on numbers. *)
Definition num_eqb (a b : number) : bool :=
  match a, b with
  | PInf, PInf | NInf, NInf => true
  | Fin x, Fin y => if Req_dec_T x y then true else false
  | _, _ => false
  end.

Notation "a + b" := (num_add a b) : js_scope.
Notation "a - b" := (num_sub a b) : js_scope.
Notation "a * b" := (num_mul a b) : js_scope.
Notation "a / b" := (num_div a b) : js_scope.
Notation "- a" := (num_neg a) : js_scope.
Notation "a 'mod' b" := (num_rem a b) (at level 40, no associativity) : js_scope.
Notation "a <? b" := (num_ltb a b) (at level 70, no associativity) : js_scope.
Notation "a >? b" := (num_gtb a b) (at level 70, no associativity) : js_scope.
Notation "a == b" := (num_eqb a b) (at level 70, no associativity) : js_scope.

(** Numeric literals of the source. *)
Definition lit (z : Z) : number := Fin (IZR z).

(** ** The [Math] object *)

Module Math.

Definition PI : number := Fin Rtrigo1.PI.

Definition abs (a : number) : number :=
  match a with
  | NaN => NaN
  | PInf | NInf => PInf
  | Fin r => Fin (Rabs r)
  end.

Definition sqrt (a : number) : number :=
  match a with
  | NaN | NInf => NaN
  | PInf => PInf
  | Fin r => if Rlt_dec r 0 then NaN else Fin (R_sqrt.sqrt r)
  end.

Definition sin (a : number) : number :=
  match a with
  | Fin r => Fin (Rtrigo_def.sin r)
  | _ => NaN
  end.

Definition cos (a : number) : number :=
  match a with
  | Fin r => Fin (Rtrigo_def.cos r)
  | _ => NaN
  end.

(** NaN outside [-1, 1]. *)
Definition acos (a : number) : number :=
  match a with
  | Fin r => if Rlt_dec r (-1) then NaN
             else if Rlt_dec 1 r then NaN else Fin (Ratan.acos r)
  | _ => NaN
  end.

(** The limits at the infinities are [pi/2] and [-pi/2]. *)
Definition atan (a : number) : number :=
  match a with
  | NaN => NaN
  | PInf => Fin (Rtrigo1.PI / 2)
  | NInf => Fin (- (Rtrigo1.PI / 2))
  | Fin r => Fin (Ratan.atan r)
  end.

Definition max2 (a b : number) : number :=
  match a, b with
  | NaN, _ | _, NaN => NaN
  | _, _ => if num_ltb a b then b else a
  end.

Definition min2 (a b : number) : number :=
  match a, b with
  | NaN, _ | _, NaN => NaN
  | _, _ => if num_ltb b a then b else a
  end.

(** [Math.max(...l)] and [Math.min(...l)]: NaN as soon as one argument is,
    and the infinities for no argument. *)
Definition max (l : list number) : number := fold_left max2 l NInf.
Definition min (l : list number) : number := fold_left min2 l PInf.

End Math.

(** ** Value types *)

Module Point.
Record t : Type := mk { x : number; y : number }.
End Point.

Module Vector.
Record t : Type := mk { x : number; y : number }.
End Vector.

Module Rect.
Record t : Type := mk { left : number; right : number; top : number; bottom : number }.
End Rect.

(** The field [end] of the source is [end_] here ([end] is reserved). *)
Module Arc.
Record t : Type := mk {
  start : Point.t;
  end_ : Point.t;
  rx : number;
  ry : number;
  rotation : number;
  largeArc : bool;
  sweep : bool
}.
End Arc.

Module ArcAlt.
Record t : Type := mk {
  phi : number;
  rx : number;
  ry : number;
  cx : number;
  cy : number;
  theta1 : number;
  dtheta : number
}.
End ArcAlt.

Local Open Scope js_scope.

(** ** The functions of the module *)

Definition norm (v : Vector.t) : number :=
  Math.sqrt (Vector.x v * Vector.x v + Vector.y v * Vector.y v).

Definition angle (u v : Vector.t) : number :=
  let product := Vector.x u * Vector.x v + Vector.y u * Vector.y v in
  let sign :=
    if Vector.x u * Vector.y v - Vector.y u * Vector.x v <? lit 0
    then lit (-1) else lit 1 in
  sign * Math.acos (product / (norm u * norm v)).

Definition convertArcParams (arc : Arc.t) : ArcAlt.t :=
  let rx := Arc.rx arc in
  let ry := Arc.ry arc in
  let rotation := Arc.rotation arc in
  let x1 := Point.x (Arc.start arc) in
  let y1 := Point.y (Arc.start arc) in
  let x2 := Point.x (Arc.end_ arc) in
  let y2 := Point.y (Arc.end_ arc) in
  let largeArc := Arc.largeArc arc in
  let sweep := Arc.sweep arc in
  let phi := rotation mod lit 180 / lit 180 * Math.PI in
  let sinPhi := Math.sin phi in
  let cosPhi := Math.cos phi in
  if (rx == lit 0) || (ry == lit 0) then
    ArcAlt.mk phi rx ry ((x1 + x2) / lit 2) ((y1 + y2) / lit 2) (lit 0) Math.PI
  else
    let rx := Math.abs rx in
    let ry := Math.abs ry in
    let dx2 := (x1 - x2) / lit 2 in
    let dy2 := (y1 - y2) / lit 2 in
    let x1p := cosPhi * dx2 + sinPhi * dy2 in
    let y1p := - sinPhi * dx2 + cosPhi * dy2 in
    let x1p2 := x1p * x1p in
    let y1p2 := y1p * y1p in
    let sqrtLambda := Math.sqrt (x1p2 / (rx * rx) + y1p2 / (ry * ry)) in
    let rx' := if sqrtLambda >? lit 1 then sqrtLambda * rx else rx in
    let ry' := if sqrtLambda >? lit 1 then sqrtLambda * ry else ry in
    let rx := rx' in
    let ry := ry' in
    let rx2 := rx * rx in
    let ry2 := ry * ry in
    let cFactorA := Math.max [lit 0; rx2 * ry2 - rx2 * y1p2 - ry2 * x1p2] in
    let cFactor :=
      Math.sqrt (cFactorA / (rx2 * y1p2 + ry2 * x1p2))
      * (if Bool.eqb largeArc sweep then lit (-1) else lit 1) in
    let cxp := cFactor * rx * y1p / ry in
    let cyp := - cFactor * ry * x1p / rx in
    let cx := cosPhi * cxp - sinPhi * cyp + (x1 + x2) / lit 2 in
    let cy := sinPhi * cxp + cosPhi * cyp + (y1 + y2) / lit 2 in
    let vec1 := Vector.mk ((x1p - cxp) / rx) ((y1p - cyp) / ry) in
    let vec2 := Vector.mk ((- x1p - cxp) / rx) ((- y1p - cyp) / ry) in
    let theta1 := angle (Vector.mk (lit 1) (lit 0)) vec1 in
    let dtheta := angle vec1 vec2 in
    let dtheta :=
      if negb sweep && (dtheta >? lit 0) then dtheta - lit 2 * Math.PI
      else if sweep && (dtheta <? lit 0) then dtheta + lit 2 * Math.PI
      else dtheta in
    ArcAlt.mk phi rx ry cx cy theta1 dtheta.

(** The loop body of [arcBound]: one [offset], pushing onto the two arrays of
    candidates. *)
Definition arcBound_step (alt : ArcAlt.t) (thetaExtremaX thetaExtremaY : number)
    (acc : list number * list number) (offset : number)
    : list number * list number :=
  let phi := ArcAlt.phi alt in
  let rx := ArcAlt.rx alt in
  let ry := ArcAlt.ry alt in
  let cx := ArcAlt.cx alt in
  let cy := ArcAlt.cy alt in
  let theta1 := ArcAlt.theta1 alt in
  let dtheta := ArcAlt.dtheta alt in
  let sinPhi := Math.sin phi in
  let cosPhi := Math.cos phi in
  let maybeExtremaXs := fst acc in
  let maybeExtremaYs := snd acc in
  let thetaX := thetaExtremaX + offset in
  let thetaY := thetaExtremaY + offset in
  let ratioX := (thetaX - theta1) / dtheta in
  let ratioY := (thetaY - theta1) / dtheta in
  let maybeExtremaXs :=
    if (ratioX >? lit 0) && (ratioX <? lit 1) then
      maybeExtremaXs
        ++ [rx * cosPhi * Math.cos thetaX - ry * sinPhi * Math.sin thetaX + cx]
    else maybeExtremaXs in
  let maybeExtremaYs :=
    if (ratioY >? lit 0) && (ratioY <? lit 1) then
      maybeExtremaYs
        ++ [rx * sinPhi * Math.cos thetaY + ry * cosPhi * Math.sin thetaY + cy]
    else maybeExtremaYs in
  (maybeExtremaXs, maybeExtremaYs).

Definition offsets : list number :=
  [lit (-2) * Math.PI; - Math.PI; lit 0; Math.PI; lit 2 * Math.PI].

Definition arcBound (arc : Arc.t) : Rect.t :=
  let x1 := Point.x (Arc.start arc) in
  let y1 := Point.y (Arc.start arc) in
  let x2 := Point.x (Arc.end_ arc) in
  let y2 := Point.y (Arc.end_ arc) in
  if (Arc.rx arc == lit 0) || (Arc.ry arc == lit 0) || ((x1 == x2) && (y1 == y2))
  then
    Rect.mk (Math.min [x1; x2]) (Math.max [x1; x2])
            (Math.min [y1; y2]) (Math.max [y1; y2])
  else
    let alt := convertArcParams arc in
    let phi := ArcAlt.phi alt in
    let rx := ArcAlt.rx alt in
    let ry := ArcAlt.ry alt in
    let sinPhi := Math.sin phi in
    let cosPhi := Math.cos phi in
    let tanPhi := sinPhi / cosPhi in
    let thetaExtremaX := Math.atan (- ry / rx * tanPhi) in
    let thetaExtremaY := Math.atan (ry / rx / tanPhi) in
    let candidates :=
      fold_left (arcBound_step alt thetaExtremaX thetaExtremaY) offsets
                ([x1; x2], [y1; y2]) in
    let maybeExtremaXs := fst candidates in
    let maybeExtremaYs := snd candidates in
    Rect.mk (Math.min maybeExtremaXs) (Math.max maybeExtremaXs)
            (Math.min maybeExtremaYs) (Math.max maybeExtremaYs).

(** ** The steps of [convertArcParams]

    The expressions of the function, one definition per step, with the values
    they depend on as arguments; [convertArcParams_eq] below reads the
    function as their composition. *)

Definition phi_of (arc : Arc.t) : number :=
  Arc.rotation arc mod lit 180 / lit 180 * Math.PI.

Definition x1p_of (arc : Arc.t) : number :=
  let dx2 := (Point.x (Arc.start arc) - Point.x (Arc.end_ arc)) / lit 2 in
  let dy2 := (Point.y (Arc.start arc) - Point.y (Arc.end_ arc)) / lit 2 in
  Math.cos (phi_of arc) * dx2 + Math.sin (phi_of arc) * dy2.

Definition y1p_of (arc : Arc.t) : number :=
  let dx2 := (Point.x (Arc.start arc) - Point.x (Arc.end_ arc)) / lit 2 in
  let dy2 := (Point.y (Arc.start arc) - Point.y (Arc.end_ arc)) / lit 2 in
  - Math.sin (phi_of arc) * dx2 + Math.cos (phi_of arc) * dy2.

(** [sqrt(x1p^2 / rx^2 + y1p^2 / ry^2)] for radii [rx], [ry]. *)
Definition sqrtLambda_at (x1p y1p rx ry : number) : number :=
  Math.sqrt (x1p * x1p / (rx * rx) + y1p * y1p / (ry * ry)).

(** A radius after [if (sqrtLambda > 1)]. *)
Definition corrected (sqrtLambda r : number) : number :=
  if sqrtLambda >? lit 1 then sqrtLambda * r else r.

Definition cFactor_at (rx ry x1p y1p : number) (largeArc sweep : bool) : number :=
  Math.sqrt
    (Math.max [lit 0;
               rx * rx * (ry * ry) - rx * rx * (y1p * y1p) - ry * ry * (x1p * x1p)]
     / (rx * rx * (y1p * y1p) + ry * ry * (x1p * x1p)))
  * (if Bool.eqb largeArc sweep then lit (-1) else lit 1).

Definition cxp_at (cFactor rx ry y1p : number) : number :=
  cFactor * rx * y1p / ry.

Definition cyp_at (cFactor rx ry x1p : number) : number :=
  - cFactor * ry * x1p / rx.

Definition vec1_at (x1p y1p cxp cyp rx ry : number) : Vector.t :=
  Vector.mk ((x1p - cxp) / rx) ((y1p - cyp) / ry).

Definition vec2_at (x1p y1p cxp cyp rx ry : number) : Vector.t :=
  Vector.mk ((- x1p - cxp) / rx) ((- y1p - cyp) / ry).

(** The correction of [dtheta] by the sweep flag. *)
Definition sweep_adjust (sweep : bool) (dtheta : number) : number :=
  if negb sweep && (dtheta >? lit 0) then dtheta - lit 2 * Math.PI
  else if sweep && (dtheta <? lit 0) then dtheta + lit 2 * Math.PI
  else dtheta.

(** From the corrected radii on: centre and angles. *)
Definition centre_form (phi x1 y1 x2 y2 x1p y1p rx ry : number)
    (largeArc sweep : bool) : ArcAlt.t :=
  let cFactor := cFactor_at rx ry x1p y1p largeArc sweep in
  let cxp := cxp_at cFactor rx ry y1p in
  let cyp := cyp_at cFactor rx ry x1p in
  let vec1 := vec1_at x1p y1p cxp cyp rx ry in
  let vec2 := vec2_at x1p y1p cxp cyp rx ry in
  ArcAlt.mk phi rx ry
    (Math.cos phi * cxp - Math.sin phi * cyp + (x1 + x2) / lit 2)
    (Math.sin phi * cxp + Math.cos phi * cyp + (y1 + y2) / lit 2)
    (angle (Vector.mk (lit 1) (lit 0)) vec1)
    (sweep_adjust sweep (angle vec1 vec2)).

Close Scope js_scope.

(** ** The documented input domain *)

Definition finite_point (p : Point.t) : Prop :=
  is_finite (Point.x p) /\ is_finite (Point.y p).

(** Finite coordinates, radii and rotation. *)
Definition finite_arc (arc : Arc.t) : Prop :=
  finite_point (Arc.start arc) /\ finite_point (Arc.end_ arc)
  /\ is_finite (Arc.rx arc) /\ is_finite (Arc.ry arc)
  /\ is_finite (Arc.rotation arc).

(** Order of numbers as a proposition: [a <= b], false when either is NaN. *)
Definition num_le (a b : number) : Prop := num_leb a b = true.
Definition num_lt (a b : number) : Prop := num_ltb a b = true.

Definition nonneg_radii (arc : Arc.t) : Prop :=
  num_le (lit 0) (Arc.rx arc) /\ num_le (lit 0) (Arc.ry arc).

Definition valid_arc (arc : Arc.t) : Prop :=
  finite_arc arc /\ nonneg_radii arc.

Definition finite_alt (alt : ArcAlt.t) : Prop :=
  is_finite (ArcAlt.phi alt) /\ is_finite (ArcAlt.rx alt)
  /\ is_finite (ArcAlt.ry alt) /\ is_finite (ArcAlt.cx alt)
  /\ is_finite (ArcAlt.cy alt) /\ is_finite (ArcAlt.theta1 alt)
  /\ is_finite (ArcAlt.dtheta alt).

Definition finite_rect (r : Rect.t) : Prop :=
  is_finite (Rect.left r) /\ is_finite (Rect.right r)
  /\ is_finite (Rect.top r) /\ is_finite (Rect.bottom r).

(** An arc built from reals. *)
Definition arc_of (x1 y1 x2 y2 rx ry rot : R) (largeArc sweep : bool) : Arc.t :=
  Arc.mk (Point.mk (Fin x1) (Fin y1)) (Point.mk (Fin x2) (Fin y2))
         (Fin rx) (Fin ry) (Fin rot) largeArc sweep.

(** The arc of the two scenarios of the specification. *)
Definition scenario_arc : Arc.t := arc_of (-1) 0 0 (-1) 1 1 0 false false.

(** [x] is finite and within [1e-9] of [v]. *)
Definition within_tolerance (x : number) (v : R) : Prop :=
  exists r, x = Fin r /\ Rabs (r - v) <= 1 / 1000000000.

(** ** The computation on reals

    What the steps compute when every value met is finite: the same
    expressions on [R]. *)

Definition phiR (rot : R) : R :=
  (rot - 180 * IZR (Rtrunc (rot / 180))) / 180 * PI.

Definition x1pR (p x1 y1 x2 y2 : R) : R :=
  cos p * ((x1 - x2) / 2) + sin p * ((y1 - y2) / 2).

Definition y1pR (p x1 y1 x2 y2 : R) : R :=
  - sin p * ((x1 - x2) / 2) + cos p * ((y1 - y2) / 2).

Definition sqrtLambdaR (X Y a b : R) : R :=
  sqrt (X * X / (a * a) + Y * Y / (b * b)).

Definition correctedR (l r : R) : R :=
  if Rlt_dec 1 l then l * r else r.

Definition flag_sign (largeArc sweep : bool) : R :=
  if Bool.eqb largeArc sweep then -1 else 1.

Definition cFactorR (A B X Y : R) (largeArc sweep : bool) : R :=
  sqrt (Rmax 0 (A * A * (B * B) - A * A * (Y * Y) - B * B * (X * X))
        / (A * A * (Y * Y) + B * B * (X * X)))
  * flag_sign largeArc sweep.

Definition cxpR (c A B Y : R) : R := c * A * Y / B.
Definition cypR (c A B X : R) : R := - c * B * X / A.

Definition angleR (ux uy vx vy : R) : R :=
  (if Rlt_dec (ux * vy - uy * vx) 0 then -1 else 1)
  * acos ((ux * vx + uy * vy)
          / (sqrt (ux * ux + uy * uy) * sqrt (vx * vx + vy * vy))).

Definition sweep_adjustR (sweep : bool) (d : R) : R :=
  if sweep then (if Rlt_dec d 0 then d + 2 * PI else d)
  else (if Rlt_dec 0 d then d - 2 * PI else d).

(** The centre parameterization on reals, from the corrected radii on. *)
Definition centre_formR (p x1 y1 x2 y2 X Y A B : R) (largeArc sweep : bool)
    : ArcAlt.t :=
  let c := cFactorR A B X Y largeArc sweep in
  let cxp := cxpR c A B Y in
  let cyp := cypR c A B X in
  ArcAlt.mk (Fin p) (Fin A) (Fin B)
    (Fin (cos p * cxp - sin p * cyp + (x1 + x2) / 2))
    (Fin (sin p * cxp + cos p * cyp + (y1 + y2) / 2))
    (Fin (angleR 1 0 ((X - cxp) / A) ((Y - cyp) / B)))
    (Fin (sweep_adjustR sweep
            (angleR ((X - cxp) / A) ((Y - cyp) / B)
                    ((- X - cxp) / A) ((- Y - cyp) / B)))).

(** The non-degenerate branch of [convertArcParams] on reals. *)
Definition convertR (x1 y1 x2 y2 a b rot : R) (largeArc sweep : bool) : ArcAlt.t :=
  let p := phiR rot in
  let X := x1pR p x1 y1 x2 y2 in
  let Y := y1pR p x1 y1 x2 y2 in
  let l := sqrtLambdaR X Y (Rabs a) (Rabs b) in
  centre_formR p x1 y1 x2 y2 X Y (correctedR l (Rabs a)) (correctedR l (Rabs b))
               largeArc sweep.

(** ** Predicates of the statements *)

Definition is_number (a : number) : Prop := a <> NaN.

Definition no_infinity (a : number) : Prop :=
  match a with PInf | NInf => False | _ => True end.

(** The two arrays of candidates of [arcBound]: finite numbers, among them
    the coordinates of the endpoints. *)
Definition candidates_ok (x1 x2 y1 y2 : number) (acc : list number * list number)
    : Prop :=
  Forall is_finite (fst acc) /\ Forall is_finite (snd acc)
  /\ In x1 (fst acc) /\ In x2 (fst acc) /\ In y1 (snd acc) /\ In y2 (snd acc).

(** The candidates [arcBound] collects in its general case, from the result
    [alt] of [convertArcParams]. *)
Definition candidates_of (alt : ArcAlt.t) (x1 y1 x2 y2 : number)
    : list number * list number :=
  let phi := ArcAlt.phi alt in
  let rx := ArcAlt.rx alt in
  let ry := ArcAlt.ry alt in
  let tanPhi := num_div (Math.sin phi) (Math.cos phi) in
  fold_left
    (arcBound_step alt
       (Math.atan (num_mul (num_div (num_neg ry) rx) tanPhi))
       (Math.atan (num_div (num_div ry rx) tanPhi)))
    offsets ([x1; x2], [y1; y2]).

(** The rectangle [r] contains the point [p]. *)
Definition contains (r : Rect.t) (p : Point.t) : Prop :=
  num_le (Rect.left r) (Point.x p) /\ num_le (Point.x p) (Rect.right r)
  /\ num_le (Rect.top r) (Point.y p) /\ num_le (Point.y p) (Rect.bottom r).

(** The same arc with the other value of the sweep flag. *)
Definition flip_sweep (arc : Arc.t) : Arc.t :=
  Arc.mk (Arc.start arc) (Arc.end_ arc) (Arc.rx arc) (Arc.ry arc)
         (Arc.rotation arc) (Arc.largeArc arc) (negb (Arc.sweep arc)).

(** Flipping the sweep flag flips the sign of [dtheta] relative to zero. *)
Definition sweep_flips_sign (arc : Arc.t) : Prop :=
  let d := ArcAlt.dtheta (convertArcParams arc) in
  let d' := ArcAlt.dtheta (convertArcParams (flip_sweep arc)) in
  (num_lt d (lit 0) -> num_le (lit 0) d')
  /\ (num_le (lit 0) d -> num_lt d' (lit 0)).

(** [d] is in [(-2 pi, 2 pi)] and is not zero. *)
Definition dtheta_in_range (d : number) : Prop :=
  num_lt (num_mul (lit (-2)) Math.PI) d /\ num_lt d (num_mul (lit 2) Math.PI)
  /\ d <> lit 0.

(** NaN, or a number of the interval [[lo, hi]]. *)
Definition nan_or_between (lo hi : R) (a : number) : Prop :=
  a = NaN \/ exists r, a = Fin r /\ lo <= r <= hi.

(** [2 * Math.PI]. *)
Definition two_pi : number := num_mul (lit 2) Math.PI.

(** The cross product of [u] and [v] as [angle] computes it, for its sign. *)
Definition cross (u v : Vector.t) : number :=
  num_sub (num_mul (Vector.x u) (Vector.y v)) (num_mul (Vector.y u) (Vector.x v)).

(** A number below or above zero: neither zero nor NaN. *)
Definition nonzero_number (a : number) : Prop :=
  num_lt a (lit 0) \/ num_lt (lit 0) a.

(** [vec1] and [vec2] as [convertArcParams] computes them for an arc with
    nonzero radii. *)
Definition vectors_of (arc : Arc.t) : Vector.t * Vector.t :=
  let x1p := x1p_of arc in
  let y1p := y1p_of arc in
  let sqrtLambda :=
    sqrtLambda_at x1p y1p (Math.abs (Arc.rx arc)) (Math.abs (Arc.ry arc)) in
  let rx := corrected sqrtLambda (Math.abs (Arc.rx arc)) in
  let ry := corrected sqrtLambda (Math.abs (Arc.ry arc)) in
  let cFactor := cFactor_at rx ry x1p y1p (Arc.largeArc arc) (Arc.sweep arc) in
  let cxp := cxp_at cFactor rx ry y1p in
  let cyp := cyp_at cFactor rx ry x1p in
  (vec1_at x1p y1p cxp cyp rx ry, vec2_at x1p y1p cxp cyp rx ry).

(** The sweep flag decides the side of zero of [dtheta]: never positive
    without the flag, never negative with it; hence what flipping the flag
    does to a negative and to a positive [dtheta]. *)
Definition sweep_decides_side (arc : Arc.t) : Prop :=
  let d := ArcAlt.dtheta (convertArcParams arc) in
  let d' := ArcAlt.dtheta (convertArcParams (flip_sweep arc)) in
  (if Arc.sweep arc then ~ num_lt d (lit 0) else ~ num_lt (lit 0) d)
  /\ (num_lt d (lit 0) -> ~ num_lt d' (lit 0))
  /\ (num_lt (lit 0) d -> ~ num_lt (lit 0) d').

(** A finite number whose magnitude is between [lo] and [hi]. *)
Definition magnitude_within (lo hi : R) (a : number) : Prop :=
  exists r, a = Fin r /\ lo <= Rabs r <= hi.

(** Coordinates of a magnitude of at most [1e50] and radii of a magnitude
    between [1e-50] and [1e50]: in binary64 no square, quotient or sum of
    the correction of the radii overflows, and none that matters
    underflows. *)
Definition moderate_arc (arc : Arc.t) : Prop :=
  magnitude_within 0 1e50 (Point.x (Arc.start arc))
  /\ magnitude_within 0 1e50 (Point.y (Arc.start arc))
  /\ magnitude_within 0 1e50 (Point.x (Arc.end_ arc))
  /\ magnitude_within 0 1e50 (Point.y (Arc.end_ arc))
  /\ magnitude_within 1e-50 1e50 (Arc.rx arc)
  /\ magnitude_within 1e-50 1e50 (Arc.ry arc)
  /\ is_finite (Arc.rotation arc).

Local Open Scope js_scope.

(** The squares, quotients and sums that the correction of the radii
    computes (lines 78 to 85), and those of the equation of the corrected
    radii. *)
Definition correction_values (arc : Arc.t) : list number :=
  let x1p := x1p_of arc in
  let y1p := y1p_of arc in
  let rx := Math.abs (Arc.rx arc) in
  let ry := Math.abs (Arc.ry arc) in
  let rx' := ArcAlt.rx (convertArcParams arc) in
  let ry' := ArcAlt.ry (convertArcParams arc) in
  [x1p; y1p; x1p * x1p; y1p * y1p;
   x1p * x1p / (rx * rx); y1p * y1p / (ry * ry);
   x1p * x1p / (rx * rx) + y1p * y1p / (ry * ry);
   sqrtLambda_at x1p y1p rx ry; rx'; ry';
   x1p * x1p / (rx' * rx'); y1p * y1p / (ry' * ry');
   x1p * x1p / (rx' * rx') + y1p * y1p / (ry' * ry')].

(** The divisors among them. *)
Definition correction_divisors (arc : Arc.t) : list number :=
  let rx := Math.abs (Arc.rx arc) in
  let ry := Math.abs (Arc.ry arc) in
  let rx' := ArcAlt.rx (convertArcParams arc) in
  let ry' := ArcAlt.ry (convertArcParams arc) in
  [rx * rx; ry * ry; rx' * rx'; ry' * ry'].

Close Scope js_scope.

(** ** Example arcs *)

(** Coincident endpoints, radii [1]. *)
Definition coincident_arc : Arc.t := arc_of 0 0 0 0 1 1 0 false false.

(** A zero radius. *)
Definition segment_arc : Arc.t := arc_of 0 0 2 4 0 1 30 true false.

(** Radii [1] for endpoints [4] apart. *)
Definition small_radii_arc : Arc.t := arc_of (-2) 0 2 0 1 1 0 false true.

(** ** Points of the ellipse

    The point of the ellipse of [alt] at the angle [theta]: the expressions of
    [arcBound] for a candidate (and of its comment on the centre
    parameterization). *)
Definition point_x (alt : ArcAlt.t) (theta : number) : number :=
  let sinPhi := Math.sin (ArcAlt.phi alt) in
  let cosPhi := Math.cos (ArcAlt.phi alt) in
  num_add
    (num_sub (num_mul (num_mul (ArcAlt.rx alt) cosPhi) (Math.cos theta))
             (num_mul (num_mul (ArcAlt.ry alt) sinPhi) (Math.sin theta)))
    (ArcAlt.cx alt).

Definition point_y (alt : ArcAlt.t) (theta : number) : number :=
  let sinPhi := Math.sin (ArcAlt.phi alt) in
  let cosPhi := Math.cos (ArcAlt.phi alt) in
  num_add
    (num_add (num_mul (num_mul (ArcAlt.rx alt) sinPhi) (Math.cos theta))
             (num_mul (num_mul (ArcAlt.ry alt) cosPhi) (Math.sin theta)))
    (ArcAlt.cy alt).

(** Finite numbers, nonzero radii and distinct endpoints. *)
Definition proper_arc (arc : Arc.t) : Prop :=
  finite_arc arc /\ Arc.rx arc <> lit 0 /\ Arc.ry arc <> lit 0
  /\ Arc.start arc <> Arc.end_ arc.

(** [v] is the x-coordinate of a point of the arc of [alt]: at an angle
    [theta1 + t * dtheta] with [0 <= t <= 1]. *)
Definition arc_x_value (alt : ArcAlt.t) (v : number) : Prop :=
  exists t : R, 0 <= t <= 1
    /\ v = point_x alt (num_add (ArcAlt.theta1 alt) (num_mul (Fin t) (ArcAlt.dtheta alt))).

(** ** More arcs

    A large arc of the unit circle, from the angle [5 pi/6] over [11 pi/6],
    with the rotation [90]. *)
Definition late_extremum_arc : Arc.t :=
  arc_of ((sqrt 3 - 1) / 2) (- ((sqrt 3 - 1) / 2)) 0 0 1 1 90 true true.

(** The other arc of the same ellipse between the same endpoints: both flags
    flipped. *)
Definition complement_arc (arc : Arc.t) : Arc.t :=
  Arc.mk (Arc.start arc) (Arc.end_ arc) (Arc.rx arc) (Arc.ry arc)
         (Arc.rotation arc) (negb (Arc.largeArc arc)) (negb (Arc.sweep arc)).

(** The same arc drawn from its end to its start. *)
Definition reverse_arc (arc : Arc.t) : Arc.t :=
  Arc.mk (Arc.end_ arc) (Arc.start arc) (Arc.rx arc) (Arc.ry arc)
         (Arc.rotation arc) (Arc.largeArc arc) (negb (Arc.sweep arc)).

(** ** The Cartesian product of [utils.ts]

    The arrays are of type [any[]]: an element is an array or something
    else, which matters to [concat]. *)

#[warnings="-register-all"]
Inductive value (A : Type) : Type :=
| Atom (x : A)
| Arr (l : list (value A)).

Arguments Atom {A} x.
Arguments Arr {A} l.

Module Utils.

(** What [concat] appends for one argument: the elements of an array, or the
    argument itself. *)
Definition spread {A : Type} (v : value A) : list (value A) :=
  match v with
  | Arr l => l
  | Atom _ => [v]
  end.

(** [[].concat(a2, b2)] *)
Definition concat2 {A : Type} (a2 b2 : value A) : value A :=
  Arr (spread a2 ++ spread b2).

Definition f {A : Type} (a b : list (value A)) : list (value A) :=
  concat (map (fun a2 => map (fun b2 => concat2 a2 b2) b) a).

(** [cartesianProduct(a, b, ...c)], with [bc] the arguments after [a].  The
    test [!b || b.length === 0] holds when there is no [b] ([bc = []]) and
    when [b] is empty. *)
Fixpoint cartesianProduct {A : Type} (a : list (value A)) (bc : list (list (value A)))
    : list (value A) :=
  match bc with
  | [] => a
  | b :: c =>
      match b with
      | [] => a
      | _ :: _ => cartesianProduct (f a b) c
      end
  end.

End Utils.

(** The tuples of a list of lists, in lexicographic order of the positions. *)
Fixpoint tuples {A : Type} (ls : list (list A)) : list (list A) :=
  match ls with
  | [] => [[]]
  | l :: ls' => flat_map (fun x => map (cons x) (tuples ls')) l
  end.

(** The array of the atoms of [t]. *)
Definition tuple_value {A : Type} (t : list A) : value A := Arr (map Atom t).

Definition nonempty {A : Type} (l : list A) : Prop := l <> [].

(** ** The arcs of [index.tsx] *)

(** What the arrays of the page hold: points, flags and numbers. *)
Inductive item : Type :=
| IPoint (p : Point.t)
| IBool (b : bool)
| INum (n : number).

Module Index.

Definition starts : list item := [IPoint (Point.mk (lit (-1)) (lit 0))].

Definition ends : list item :=
  [IPoint (Point.mk (lit 0) (lit (-1)));
   IPoint (Point.mk (lit 1) (lit 0));
   IPoint (Point.mk (lit 0) (lit 1))].

Definition xRadii : list item := [INum (Fin (1 / 2)); INum (lit 1); INum (lit 2)].

Definition rotations : list item := [INum (lit 0); INum (lit 30); INum (lit (-45))].

Definition largeArcs : list item := [IBool false; IBool true].

Definition sweeps : list item := [IBool false; IBool true].

(** The callback of [map]: the array is taken apart by position and [ry] is
    [1].  [None] stands for an array whose first six elements are not two
    points, two flags and two numbers, which gives no [Arc]. *)
Definition to_arc (v : value item) : option Arc.t :=
  match v with
  | Arr (Atom (IPoint start) :: Atom (IPoint end_) :: Atom (IBool largeArc)
         :: Atom (IBool sweep) :: Atom (INum rx) :: Atom (INum rotation) :: _) =>
      Some (Arc.mk start end_ rx (lit 1) rotation largeArc sweep)
  | _ => None
  end.

Definition combinations : list (option Arc.t) :=
  map to_arc
      (Utils.cartesianProduct (map Atom starts)
         [map Atom ends; map Atom largeArcs; map Atom sweeps;
          map Atom xRadii; map Atom rotations]).

End Index.

(** ** [convertArcParams] in binary64

    The same function on the primitive floating-point numbers: every
    operation rounds to nearest, overflows to an infinity and keeps the sign
    of zero as the language does. *)

Module Double.

Local Open Scope float_scope.

(** [Math.PI]: the number nearest to pi. *)
Definition PI : float := 0x1.921fb54442d18p+1.

(** The remainder [%]: exact, with the sign of the dividend; NaN for an
    infinite dividend or a zero divisor. *)
Definition rem (x y : float) : float :=
  match Prim2SF x, Prim2SF y with
  | S754_nan, _ | _, S754_nan => nan
  | S754_infinity _, _ => nan
  | _, S754_zero _ => nan
  | S754_zero _, _ => x
  | S754_finite _ _ _, S754_infinity _ => x
  | S754_finite sx mx ex, S754_finite _ my ey =>
      let e := Z.min ex ey in
      let n := (Zpos mx * 2 ^ (ex - e))%Z in
      let d := (Zpos my * 2 ^ (ey - e))%Z in
      match Z.rem n d with
      | Zpos r => SF2Prim (S754_finite sx r e)
      | _ => if sx then neg_zero else zero
      end
  end.

(** [Math.max]: NaN as soon as one argument is, [+0] above [-0]. *)
Definition max2 (a b : float) : float :=
  if PrimFloat.is_nan a || PrimFloat.is_nan b then nan
  else if a <? b then b
  else if b <? a then a
  else if get_sign a then b else a.

Definition max (l : list float) : float := fold_left max2 l neg_infinity.

(** The functions of [Math] that the language leaves to the implementation
    ("implementation-approximated"). *)
Record math : Type := {
  sin : float -> float;
  cos : float -> float;
  acos : float -> float
}.

(** What ECMAScript fixes of them: [Math.sin(+0)] is [+0], [Math.cos(+0)] is
    [1], [Math.acos(1)] is [+0], and [Math.acos(x)] is NaN when [x] is NaN,
    below [-1] or above [1]. *)
Definition ecma (M : math) : Prop :=
  sin M 0 = 0 /\ cos M 0 = 1 /\ acos M 1 = 0
  /\ forall x, ((-1 <=? x) && (x <=? 1)) = false -> acos M x = nan.

Module Point.
Record t : Type := mk { x : float; y : float }.
End Point.

Module Vector.
Record t : Type := mk { x : float; y : float }.
End Vector.

Module Arc.
Record t : Type := mk {
  start : Point.t;
  end_ : Point.t;
  rx : float;
  ry : float;
  rotation : float;
  largeArc : bool;
  sweep : bool
}.
End Arc.

Module ArcAlt.
Record t : Type := mk {
  phi : float;
  rx : float;
  ry : float;
  cx : float;
  cy : float;
  theta1 : float;
  dtheta : float
}.
End ArcAlt.

Definition norm (v : Vector.t) : float :=
  PrimFloat.sqrt (Vector.x v * Vector.x v + Vector.y v * Vector.y v).

Definition angle (M : math) (u v : Vector.t) : float :=
  let product := Vector.x u * Vector.x v + Vector.y u * Vector.y v in
  let sign :=
    if Vector.x u * Vector.y v - Vector.y u * Vector.x v <? 0 then -1 else 1 in
  sign * acos M (product / (norm u * norm v)).

Definition convertArcParams (M : math) (arc : Arc.t) : ArcAlt.t :=
  let rx := Arc.rx arc in
  let ry := Arc.ry arc in
  let rotation := Arc.rotation arc in
  let x1 := Point.x (Arc.start arc) in
  let y1 := Point.y (Arc.start arc) in
  let x2 := Point.x (Arc.end_ arc) in
  let y2 := Point.y (Arc.end_ arc) in
  let largeArc := Arc.largeArc arc in
  let sweep := Arc.sweep arc in
  let phi := rem rotation 180 / 180 * PI in
  let sinPhi := sin M phi in
  let cosPhi := cos M phi in
  if (rx =? 0) || (ry =? 0) then
    ArcAlt.mk phi rx ry ((x1 + x2) / 2) ((y1 + y2) / 2) 0 PI
  else
    let rx := PrimFloat.abs rx in
    let ry := PrimFloat.abs ry in
    let dx2 := (x1 - x2) / 2 in
    let dy2 := (y1 - y2) / 2 in
    let x1p := cosPhi * dx2 + sinPhi * dy2 in
    let y1p := - sinPhi * dx2 + cosPhi * dy2 in
    let x1p2 := x1p * x1p in
    let y1p2 := y1p * y1p in
    let sqrtLambda := PrimFloat.sqrt (x1p2 / (rx * rx) + y1p2 / (ry * ry)) in
    let rx' := if 1 <? sqrtLambda then sqrtLambda * rx else rx in
    let ry' := if 1 <? sqrtLambda then sqrtLambda * ry else ry in
    let rx := rx' in
    let ry := ry' in
    let rx2 := rx * rx in
    let ry2 := ry * ry in
    let cFactorA := max [0; rx2 * ry2 - rx2 * y1p2 - ry2 * x1p2] in
    let cFactor :=
      PrimFloat.sqrt (cFactorA / (rx2 * y1p2 + ry2 * x1p2))
      * (if Bool.eqb largeArc sweep then -1 else 1) in
    let cxp := cFactor * rx * y1p / ry in
    let cyp := - cFactor * ry * x1p / rx in
    let cx := cosPhi * cxp - sinPhi * cyp + (x1 + x2) / 2 in
    let cy := sinPhi * cxp + cosPhi * cyp + (y1 + y2) / 2 in
    let vec1 := Vector.mk ((x1p - cxp) / rx) ((y1p - cyp) / ry) in
    let vec2 := Vector.mk ((- x1p - cxp) / rx) ((- y1p - cyp) / ry) in
    let theta1 := angle M (Vector.mk 1 0) vec1 in
    let dtheta := angle M vec1 vec2 in
    let dtheta :=
      if negb sweep && (0 <? dtheta) then dtheta - 2 * PI
      else if sweep && (dtheta <? 0) then dtheta + 2 * PI
      else dtheta in
    ArcAlt.mk phi rx ry cx cy theta1 dtheta.

(** [x1p] and [y1p] of [convertArcParams]. *)
Definition x1p_of (M : math) (arc : Arc.t) : float :=
  let phi := rem (Arc.rotation arc) 180 / 180 * PI in
  let dx2 := (Point.x (Arc.start arc) - Point.x (Arc.end_ arc)) / 2 in
  let dy2 := (Point.y (Arc.start arc) - Point.y (Arc.end_ arc)) / 2 in
  cos M phi * dx2 + sin M phi * dy2.

Definition y1p_of (M : math) (arc : Arc.t) : float :=
  let phi := rem (Arc.rotation arc) 180 / 180 * PI in
  let dx2 := (Point.x (Arc.start arc) - Point.x (Arc.end_ arc)) / 2 in
  let dy2 := (Point.y (Arc.start arc) - Point.y (Arc.end_ arc)) / 2 in
  - sin M phi * dx2 + cos M phi * dy2.

(** [sqrt(x1p^2 / rx^2 + y1p^2 / ry^2)] for radii [rx], [ry]. *)
Definition sqrtLambda_at (x1p y1p rx ry : float) : float :=
  PrimFloat.sqrt (x1p * x1p / (rx * rx) + y1p * y1p / (ry * ry)).

(** [x] is within [1e-9] of [v]; false when [x] is NaN. *)
Definition within_tolerance (x v : float) : bool :=
  PrimFloat.abs (x - v) <=? 0x1.12e0be826d695p-30.

(** The correction of radii that are too small, for one arc: with nonzero
    radii and [sqrt(x1p^2/rx^2 + y1p^2/ry^2) > 1], the radii returned give
    [1] within tolerance. *)
Definition radii_correction_holds (M : math) (arc : Arc.t) : Prop :=
  (Arc.rx arc =? 0) = false -> (Arc.ry arc =? 0) = false ->
  (1 <? sqrtLambda_at (x1p_of M arc) (y1p_of M arc) (Arc.rx arc) (Arc.ry arc)) = true ->
  within_tolerance
    (sqrtLambda_at (x1p_of M arc) (y1p_of M arc)
                   (ArcAlt.rx (convertArcParams M arc))
                   (ArcAlt.ry (convertArcParams M arc))) 1 = true.

Definition arc_of (x1 y1 x2 y2 rx ry rot : float) (largeArc sweep : bool) : Arc.t :=
  Arc.mk (Point.mk x1 y1) (Point.mk x2 y2) rx ry rot largeArc sweep.

(** From [(-1e200, 0)] to [(1e200, 0)] with radii [1]. *)
Definition overflow_arc : Arc.t :=
  arc_of (-0x1.4e718d7d7625ap+664) 0 0x1.4e718d7d7625ap+664 0 1 1 0 false false.

(** From [(0, 0)] to [(1, 5)] with radii [1]. *)
Definition rounding_arc : Arc.t := arc_of 0 0 1 5 1 1 0 false true.

(** From [(0, 0)] to [(1, 0)] with radii [1e9]. *)
Definition flat_arc (sweep : bool) : Arc.t :=
  arc_of 0 0 1 0 0x1.dcd65p+29 0x1.dcd65p+29 0 false sweep.

(** The other arc of the same ellipse between the same endpoints: both flags
    flipped. *)
Definition complement_arc (arc : Arc.t) : Arc.t :=
  Arc.mk (Arc.start arc) (Arc.end_ arc) (Arc.rx arc) (Arc.ry arc)
         (Arc.rotation arc) (negb (Arc.largeArc arc)) (negb (Arc.sweep arc)).

(** One implementation of the three functions, by their series, with the
    values that the language fixes: what the statements below assume of an
    implementation can be met. *)
Fixpoint horner (cs : list float) (x : float) : float :=
  match cs with
  | [] => 0
  | c :: cs => c + x * horner cs x
  end.

Definition series_sin (x : float) : float :=
  if PrimFloat.is_nan x || is_zero x then x
  else if is_infinity x then nan
  else x * horner [1; -1 / 6; 1 / 120; -1 / 5040; 1 / 362880; -1 / 39916800;
                   1 / 6227020800; -1 / 1307674368000; 1 / 355687428096000;
                   -1 / 121645100408832000] (x * x).

Definition series_cos (x : float) : float :=
  if is_zero x then 1
  else if PrimFloat.is_nan x || is_infinity x then nan
  else horner [1; -1 / 2; 1 / 24; -1 / 720; 1 / 40320; -1 / 3628800;
               1 / 479001600; -1 / 87178291200; 1 / 20922789888000;
               -1 / 6402373705728000] (x * x).

(** [atan t] for [0 <= t]: the tangent of the half angle, five times, then
    the series. *)
Definition half_tangent (t : float) : float := t / (1 + PrimFloat.sqrt (1 + t * t)).

Definition series_atan (t : float) : float :=
  let s := half_tangent (half_tangent (half_tangent (half_tangent (half_tangent t)))) in
  32 * (s * horner [1; -1 / 3; 1 / 5; -1 / 7; 1 / 9; -1 / 11; 1 / 13] (s * s)).

Definition series_acos (x : float) : float :=
  if (-1 <=? x) && (x <=? 1) then
    if x =? 1 then 0
    else if x =? -1 then PI
    else 2 * series_atan (PrimFloat.sqrt ((1 - x) / (1 + x)))
  else nan.

Definition series_math : math :=
  {| sin := series_sin; cos := series_cos; acos := series_acos |}.

Close Scope float_scope.

End Double.

(** ** The function as the composition of its steps *)

Local Open Scope js_scope.

Lemma convertArcParams_eq (arc : Arc.t) :
  convertArcParams arc =
  let x1 := Point.x (Arc.start arc) in
  let y1 := Point.y (Arc.start arc) in
  let x2 := Point.x (Arc.end_ arc) in
  let y2 := Point.y (Arc.end_ arc) in
  if (Arc.rx arc == lit 0) || (Arc.ry arc == lit 0) then
    ArcAlt.mk (phi_of arc) (Arc.rx arc) (Arc.ry arc)
      ((x1 + x2) / lit 2) ((y1 + y2) / lit 2) (lit 0) Math.PI
  else
    let sqrtLambda :=
      sqrtLambda_at (x1p_of arc) (y1p_of arc)
                    (Math.abs (Arc.rx arc)) (Math.abs (Arc.ry arc)) in
    centre_form (phi_of arc) x1 y1 x2 y2 (x1p_of arc) (y1p_of arc)
      (corrected sqrtLambda (Math.abs (Arc.rx arc)))
      (corrected sqrtLambda (Math.abs (Arc.ry arc)))
      (Arc.largeArc arc) (Arc.sweep arc).
Proof.
  destruct arc as [[x1 y1] [x2 y2] rx ry rot la sw].
  lazy delta [convertArcParams centre_form sqrtLambda_at corrected cFactor_at
              cxp_at cyp_at vec1_at vec2_at sweep_adjust phi_of x1p_of y1p_of]
       beta zeta.
  reflexivity.
Qed.

Close Scope js_scope.

(** ** Arithmetic of finite numbers *)

Section FiniteArithmetic.

Variables a b : R.

Lemma add_fin : num_add (Fin a) (Fin b) = Fin (a + b).
Proof. reflexivity. Qed.

Lemma sub_fin : num_sub (Fin a) (Fin b) = Fin (a - b).
Proof. reflexivity. Qed.

Lemma mul_fin : num_mul (Fin a) (Fin b) = Fin (a * b).
Proof. reflexivity. Qed.

Lemma neg_fin : num_neg (Fin a) = Fin (- a).
Proof. reflexivity. Qed.

Lemma div_fin : b <> 0 -> num_div (Fin a) (Fin b) = Fin (a / b).
Proof. intros Hb. simpl. destruct (Req_dec_T b 0); [contradiction | reflexivity]. Qed.

Lemma ltb_fin_true : a < b -> num_ltb (Fin a) (Fin b) = true.
Proof. intros H. simpl. destruct (Rlt_dec a b); [reflexivity | contradiction]. Qed.

Lemma ltb_fin_iff : num_ltb (Fin a) (Fin b) = true <-> a < b.
Proof. simpl. destruct (Rlt_dec a b); split; intros H; try assumption; try reflexivity; try discriminate H; contradiction. Qed.

Lemma leb_fin_iff : num_leb (Fin a) (Fin b) = true <-> a <= b.
Proof. simpl. destruct (Rle_dec a b); split; intros H; try assumption; try reflexivity; try discriminate H; contradiction. Qed.

Lemma eqb_fin_true : a = b -> num_eqb (Fin a) (Fin b) = true.
Proof. intros H. simpl. destruct (Req_dec_T a b); [reflexivity | contradiction]. Qed.

Lemma eqb_fin_false : a <> b -> num_eqb (Fin a) (Fin b) = false.
Proof. intros H. simpl. destruct (Req_dec_T a b); [contradiction | reflexivity]. Qed.

Lemma abs_fin : Math.abs (Fin a) = Fin (Rabs a).
Proof. reflexivity. Qed.

Lemma sin_fin : Math.sin (Fin a) = Fin (sin a).
Proof. reflexivity. Qed.

Lemma cos_fin : Math.cos (Fin a) = Fin (cos a).
Proof. reflexivity. Qed.

Lemma atan_fin : Math.atan (Fin a) = Fin (atan a).
Proof. reflexivity. Qed.

Lemma sqrt_fin : 0 <= a -> Math.sqrt (Fin a) = Fin (sqrt a).
Proof. intros H. simpl. destruct (Rlt_dec a 0); [lra | reflexivity]. Qed.

Lemma acos_fin : -1 <= a <= 1 -> Math.acos (Fin a) = Fin (acos a).
Proof.
  intros [H1 H2]. simpl.
  destruct (Rlt_dec a (-1)); [lra |].
  destruct (Rlt_dec 1 a); [lra | reflexivity].
Qed.

End FiniteArithmetic.

Lemma is_finite_inv (x : number) : is_finite x -> exists r, x = Fin r.
Proof. destruct x; simpl; try contradiction. intros _. now exists r. Qed.

Lemma inf_times_pos (r : R) : 0 < r -> inf_times r = PInf.
Proof.
  intros H. unfold inf_times.
  destruct (Req_dec_T r 0); [lra |].
  destruct (Rlt_dec 0 r); [reflexivity | contradiction].
Qed.

Lemma inf_times_neg (r : R) : r < 0 -> inf_times r = NInf.
Proof.
  intros H. unfold inf_times.
  destruct (Req_dec_T r 0); [lra |].
  destruct (Rlt_dec 0 r); [lra | reflexivity].
Qed.

Lemma inf_times_zero : inf_times 0 = NaN.
Proof. unfold inf_times. destruct (Req_dec_T 0 0); [reflexivity | lra]. Qed.

(** ** The steps on finite numbers *)

Lemma finite_arc_inv (arc : Arc.t) :
  finite_arc arc ->
  exists x1 y1 x2 y2 a b rot,
    arc = arc_of x1 y1 x2 y2 a b rot (Arc.largeArc arc) (Arc.sweep arc).
Proof.
  destruct arc as [[x1 y1] [x2 y2] a b rot la sw].
  unfold finite_arc, finite_point; simpl.
  intros [[Hx1 Hy1] [[Hx2 Hy2] [Ha [Hb Hr]]]].
  apply is_finite_inv in Hx1, Hy1, Hx2, Hy2, Ha, Hb, Hr.
  destruct Hx1 as [rx1 ->], Hy1 as [ry1 ->], Hx2 as [rx2 ->], Hy2 as [ry2 ->],
    Ha as [ra ->], Hb as [rb ->], Hr as [rr ->].
  exists rx1, ry1, rx2, ry2, ra, rb, rr. reflexivity.
Qed.

Lemma phi_of_fin x1 y1 x2 y2 a b rot la sw :
  phi_of (arc_of x1 y1 x2 y2 a b rot la sw) = Fin (phiR rot).
Proof.
  unfold phi_of, arc_of, lit, Math.PI, phiR. cbn [Arc.rotation].
  unfold num_rem. destruct (Req_dec_T 180 0) as [H | H]; [lra |].
  rewrite div_fin by lra. reflexivity.
Qed.

Lemma x1p_of_fin x1 y1 x2 y2 a b rot la sw :
  x1p_of (arc_of x1 y1 x2 y2 a b rot la sw) = Fin (x1pR (phiR rot) x1 y1 x2 y2).
Proof.
  unfold x1p_of. rewrite phi_of_fin.
  unfold arc_of, lit; cbn [Arc.start Arc.end_ Point.x Point.y].
  rewrite !sub_fin, !div_fin by lra. reflexivity.
Qed.

Lemma y1p_of_fin x1 y1 x2 y2 a b rot la sw :
  y1p_of (arc_of x1 y1 x2 y2 a b rot la sw) = Fin (y1pR (phiR rot) x1 y1 x2 y2).
Proof.
  unfold y1p_of. rewrite phi_of_fin.
  unfold arc_of, lit; cbn [Arc.start Arc.end_ Point.x Point.y].
  rewrite !sub_fin, !div_fin by lra. reflexivity.
Qed.

Lemma sq_div_nonneg (X a : R) : a <> 0 -> 0 <= X * X / (a * a).
Proof.
  intros Ha. apply Rmult_le_pos; [nra |].
  apply Rlt_le, Rinv_0_lt_compat. nra.
Qed.

Lemma sqrtLambda_at_fin (X Y a b : R) :
  a <> 0 -> b <> 0 ->
  sqrtLambda_at (Fin X) (Fin Y) (Fin a) (Fin b) = Fin (sqrtLambdaR X Y a b).
Proof.
  intros Ha Hb. unfold sqrtLambda_at, sqrtLambdaR.
  rewrite !mul_fin, !div_fin by nra. rewrite add_fin.
  apply sqrt_fin.
  pose proof (sq_div_nonneg X a Ha). pose proof (sq_div_nonneg Y b Hb). lra.
Qed.

Lemma corrected_fin (l r : R) :
  corrected (Fin l) (Fin r) = Fin (correctedR l r).
Proof.
  unfold corrected, correctedR, num_gtb, lit. simpl.
  destruct (Rlt_dec 1 l); reflexivity.
Qed.

Lemma max_zero_fin (v : R) : Math.max [lit 0; Fin v] = Fin (Rmax 0 v).
Proof.
  unfold Math.max, lit, Rmax. simpl.
  destruct (Rlt_dec 0 v); destruct (Rle_dec 0 v); try reflexivity; try lra.
  f_equal. lra.
Qed.

Lemma cFactor_at_fin (A B X Y : R) (la sw : bool) :
  A * A * (Y * Y) + B * B * (X * X) <> 0 ->
  cFactor_at (Fin A) (Fin B) (Fin X) (Fin Y) la sw = Fin (cFactorR A B X Y la sw).
Proof.
  intros HD. unfold cFactor_at, cFactorR, flag_sign.
  rewrite !mul_fin, !sub_fin, add_fin, max_zero_fin, div_fin by assumption.
  rewrite sqrt_fin.
  - destruct (Bool.eqb la sw); reflexivity.
  - apply Rmult_le_pos; [apply Rmax_l |].
    apply Rlt_le, Rinv_0_lt_compat. nra.
Qed.

Lemma cxp_at_fin (c A B Y : R) :
  B <> 0 -> cxp_at (Fin c) (Fin A) (Fin B) (Fin Y) = Fin (cxpR c A B Y).
Proof. intros HB. unfold cxp_at, cxpR. rewrite !mul_fin, div_fin by assumption. reflexivity. Qed.

Lemma cyp_at_fin (c A B X : R) :
  A <> 0 -> cyp_at (Fin c) (Fin A) (Fin B) (Fin X) = Fin (cypR c A B X).
Proof. intros HA. unfold cyp_at, cypR. rewrite neg_fin, !mul_fin, div_fin by assumption. reflexivity. Qed.

(** Cauchy-Schwarz in the plane, in the form [angle] needs. *)
Lemma cos_ratio_bound (ux uy vx vy : R) :
  ux * ux + uy * uy <> 0 -> vx * vx + vy * vy <> 0 ->
  0 < sqrt (ux * ux + uy * uy) * sqrt (vx * vx + vy * vy)
  /\ -1 <= (ux * vx + uy * vy)
            / (sqrt (ux * ux + uy * uy) * sqrt (vx * vx + vy * vy)) <= 1.
Proof.
  intros Hu Hv.
  assert (HU : 0 < ux * ux + uy * uy) by nra.
  assert (HV : 0 < vx * vx + vy * vy) by nra.
  pose proof (sqrt_lt_R0 _ HU) as Hsu. pose proof (sqrt_lt_R0 _ HV) as Hsv.
  pose proof (sqrt_sqrt _ (Rlt_le _ _ HU)) as Hqu.
  pose proof (sqrt_sqrt _ (Rlt_le _ _ HV)) as Hqv.
  generalize dependent (sqrt (ux * ux + uy * uy)). intros su Hsu Hqu.
  generalize dependent (sqrt (vx * vx + vy * vy)). intros sv Hsv Hqv.
  assert (Hp : 0 < su * sv) by (apply Rmult_lt_0_compat; assumption).
  split; [assumption |].
  assert (Hsq : (ux * vx + uy * vy) * (ux * vx + uy * vy) <= (su * sv) * (su * sv)).
  { replace (su * sv * (su * sv)) with ((su * su) * (sv * sv)) by ring.
    rewrite Hqu, Hqv.
    pose proof (Rle_0_sqr (ux * vy - uy * vx)) as Hc. unfold Rsqr in Hc. lra. }
  assert (Habs : - (su * sv) <= ux * vx + uy * vy <= su * sv) by nra.
  split.
  - apply Rmult_le_reg_r with (su * sv); [assumption |].
    unfold Rdiv. rewrite Rmult_assoc, Rinv_l by lra. lra.
  - apply Rmult_le_reg_r with (su * sv); [assumption |].
    unfold Rdiv. rewrite Rmult_assoc, Rinv_l by lra. lra.
Qed.

Lemma norm_fin (x y : R) : norm (Vector.mk (Fin x) (Fin y)) = Fin (sqrt (x * x + y * y)).
Proof. unfold norm. cbn [Vector.x Vector.y]. rewrite !mul_fin, add_fin. apply sqrt_fin. nra. Qed.

Lemma angle_fin (ux uy vx vy : R) :
  ux * ux + uy * uy <> 0 -> vx * vx + vy * vy <> 0 ->
  angle (Vector.mk (Fin ux) (Fin uy)) (Vector.mk (Fin vx) (Fin vy))
  = Fin (angleR ux uy vx vy).
Proof.
  intros Hu Hv. destruct (cos_ratio_bound ux uy vx vy Hu Hv) as [Hp Hr].
  unfold angle, angleR. rewrite !norm_fin. cbn [Vector.x Vector.y].
  rewrite !mul_fin, sub_fin, add_fin, div_fin by lra.
  rewrite acos_fin by assumption.
  unfold lit. simpl num_ltb.
  destruct (Rlt_dec (ux * vy - uy * vx) 0); reflexivity.
Qed.

Lemma sweep_adjust_fin (sw : bool) (d : R) :
  sweep_adjust sw (Fin d) = Fin (sweep_adjustR sw d).
Proof.
  unfold sweep_adjust, sweep_adjustR, num_gtb, lit, Math.PI.
  destruct sw; simpl.
  - destruct (Rlt_dec d 0); reflexivity.
  - destruct (Rlt_dec 0 d); reflexivity.
Qed.

Lemma uv_pos (A B X Y : R) :
  0 < A -> 0 < B -> X * X + Y * Y <> 0 ->
  0 < X / A * (X / A) + Y / B * (Y / B).
Proof.
  intros HA HB HXY.
  assert (HiA : 0 < / A) by (apply Rinv_0_lt_compat; assumption).
  assert (HiB : 0 < / B) by (apply Rinv_0_lt_compat; assumption).
  unfold Rdiv.
  destruct (Req_dec_T X 0) as [HX | HX].
  - assert (HY : Y <> 0) by (intros ->; apply HXY; rewrite HX; ring).
    assert (0 < (Y * / B) * (Y * / B)) by (apply Rsqr_pos_lt; nra).
    nra.
  - assert (0 < (X * / A) * (X * / A)) by (apply Rsqr_pos_lt; nra).
    nra.
Qed.

(** The vectors [vec1], [vec2] from the centre to the two endpoints, in terms
    of [X/A] and [Y/B]: both have the squared norm [(1 + c^2) (u^2 + v^2)]. *)
Section Vectors.

Variables A B X Y c : R.
Hypothesis HA : 0 < A.
Hypothesis HB : 0 < B.

Lemma vec1_x : (X - cxpR c A B Y) / A = X / A - c * (Y / B).
Proof. unfold cxpR. field. lra. Qed.

Lemma vec1_y : (Y - cypR c A B X) / B = Y / B + c * (X / A).
Proof. unfold cypR. field. lra. Qed.

Lemma vec2_x : (- X - cxpR c A B Y) / A = - (X / A) - c * (Y / B).
Proof. unfold cxpR. field. lra. Qed.

Lemma vec2_y : (- Y - cypR c A B X) / B = - (Y / B) + c * (X / A).
Proof. unfold cypR. field. lra. Qed.

Hypothesis HXY : X * X + Y * Y <> 0.

Lemma vec1_norm2 :
  (X - cxpR c A B Y) / A * ((X - cxpR c A B Y) / A)
  + (Y - cypR c A B X) / B * ((Y - cypR c A B X) / B)
  = (1 + c * c) * (X / A * (X / A) + Y / B * (Y / B)).
Proof. rewrite vec1_x, vec1_y. ring. Qed.

Lemma vec2_norm2 :
  (- X - cxpR c A B Y) / A * ((- X - cxpR c A B Y) / A)
  + (- Y - cypR c A B X) / B * ((- Y - cypR c A B X) / B)
  = (1 + c * c) * (X / A * (X / A) + Y / B * (Y / B)).
Proof. rewrite vec2_x, vec2_y. ring. Qed.

Lemma vec_dot :
  (X - cxpR c A B Y) / A * ((- X - cxpR c A B Y) / A)
  + (Y - cypR c A B X) / B * ((- Y - cypR c A B X) / B)
  = (c * c - 1) * (X / A * (X / A) + Y / B * (Y / B)).
Proof. rewrite vec1_x, vec1_y, vec2_x, vec2_y. ring. Qed.

Lemma vec1_nonzero :
  (X - cxpR c A B Y) / A * ((X - cxpR c A B Y) / A)
  + (Y - cypR c A B X) / B * ((Y - cypR c A B X) / B) <> 0.
Proof. rewrite vec1_norm2. pose proof (uv_pos A B X Y HA HB HXY). nra. Qed.

Lemma vec2_nonzero :
  (- X - cxpR c A B Y) / A * ((- X - cxpR c A B Y) / A)
  + (- Y - cypR c A B X) / B * ((- Y - cypR c A B X) / B) <> 0.
Proof. rewrite vec2_norm2. pose proof (uv_pos A B X Y HA HB HXY). nra. Qed.

End Vectors.

Lemma centre_form_fin (p x1 y1 x2 y2 X Y A B : R) (la sw : bool) :
  0 < A -> 0 < B -> X * X + Y * Y <> 0 ->
  centre_form (Fin p) (Fin x1) (Fin y1) (Fin x2) (Fin y2) (Fin X) (Fin Y)
              (Fin A) (Fin B) la sw
  = centre_formR p x1 y1 x2 y2 X Y A B la sw.
Proof.
  intros HA HB HXY. unfold centre_form, centre_formR.
  assert (HD : A * A * (Y * Y) + B * B * (X * X) <> 0).
  { assert (0 < A * A) by nra. assert (0 < B * B) by nra.
    destruct (Req_dec_T X 0) as [HX | HX].
    - assert (HY : Y <> 0) by (intros ->; apply HXY; rewrite HX; ring).
      assert (0 < Y * Y) by (apply Rsqr_pos_lt; assumption). nra.
    - assert (0 < X * X) by (apply Rsqr_pos_lt; assumption). nra. }
  rewrite cFactor_at_fin by assumption.
  rewrite cxp_at_fin, cyp_at_fin by lra.
  cbv zeta. unfold vec1_at, vec2_at, lit.
  rewrite !neg_fin, !sub_fin, !div_fin by lra.
  rewrite !angle_fin.
  - rewrite sweep_adjust_fin, !sin_fin, !cos_fin, !mul_fin, !add_fin, !sub_fin,
      !div_fin, !add_fin by lra.
    reflexivity.
  - apply vec1_nonzero; assumption.
  - apply vec2_nonzero; assumption.
  - lra.
  - apply vec1_nonzero; assumption.
Qed.

Lemma x1p_y1p_norm (p x1 y1 x2 y2 : R) :
  x1pR p x1 y1 x2 y2 * x1pR p x1 y1 x2 y2 + y1pR p x1 y1 x2 y2 * y1pR p x1 y1 x2 y2
  = (x1 - x2) / 2 * ((x1 - x2) / 2) + (y1 - y2) / 2 * ((y1 - y2) / 2).
Proof.
  unfold x1pR, y1pR. pose proof (sin2_cos2 p) as H. unfold Rsqr in H.
  set (s := sin p) in *. set (c := cos p) in *.
  set (dx := (x1 - x2) / 2). set (dy := (y1 - y2) / 2).
  replace ((c * dx + s * dy) * (c * dx + s * dy) + (- s * dx + c * dy) * (- s * dx + c * dy))
    with ((s * s + c * c) * (dx * dx + dy * dy)) by ring.
  rewrite H. ring.
Qed.

Lemma x1p_y1p_nonzero (p x1 y1 x2 y2 : R) :
  x1 <> x2 \/ y1 <> y2 ->
  x1pR p x1 y1 x2 y2 * x1pR p x1 y1 x2 y2 + y1pR p x1 y1 x2 y2 * y1pR p x1 y1 x2 y2 <> 0.
Proof.
  intros H. rewrite x1p_y1p_norm.
  destruct H as [H | H].
  - assert (0 < (x1 - x2) / 2 * ((x1 - x2) / 2)) by (apply Rsqr_pos_lt; lra).
    assert (0 <= (y1 - y2) / 2 * ((y1 - y2) / 2)) by apply Rle_0_sqr.
    lra.
  - assert (0 < (y1 - y2) / 2 * ((y1 - y2) / 2)) by (apply Rsqr_pos_lt; lra).
    assert (0 <= (x1 - x2) / 2 * ((x1 - x2) / 2)) by apply Rle_0_sqr.
    lra.
Qed.

Lemma x1p_y1p_zero (p x y : R) :
  x1pR p x y x y = 0 /\ y1pR p x y x y = 0.
Proof. unfold x1pR, y1pR. split; replace (x - x) with 0 by ring; replace (y - y) with 0 by ring; lra. Qed.

Lemma correctedR_ge (l r : R) : 0 <= r -> r <= correctedR l r.
Proof. intros Hr. unfold correctedR. destruct (Rlt_dec 1 l); nra. Qed.

Lemma correctedR_pos (l r : R) : 0 < r -> 0 < correctedR l r.
Proof. intros Hr. pose proof (correctedR_ge l r). lra. Qed.

Lemma convertArcParams_fin (x1 y1 x2 y2 a b rot : R) (la sw : bool) :
  a <> 0 -> b <> 0 -> x1 <> x2 \/ y1 <> y2 ->
  convertArcParams (arc_of x1 y1 x2 y2 a b rot la sw)
  = convertR x1 y1 x2 y2 a b rot la sw.
Proof.
  intros Ha Hb Hne. rewrite convertArcParams_eq. cbv zeta.
  rewrite x1p_of_fin, y1p_of_fin, phi_of_fin.
  unfold arc_of. cbn [Arc.rx Arc.ry Arc.start Arc.end_ Point.x Point.y Arc.largeArc Arc.sweep].
  unfold lit. rewrite !eqb_fin_false by assumption. cbn [orb].
  rewrite !abs_fin.
  assert (HA : 0 < Rabs a) by (apply Rabs_pos_lt; assumption).
  assert (HB : 0 < Rabs b) by (apply Rabs_pos_lt; assumption).
  rewrite sqrtLambda_at_fin by lra.
  rewrite !corrected_fin.
  apply centre_form_fin.
  - apply correctedR_pos; assumption.
  - apply correctedR_pos; assumption.
  - apply x1p_y1p_nonzero; assumption.
Qed.

(** ** Angles on reals *)

Lemma acos_pos (x : R) : -1 <= x < 1 -> 0 < acos x <= PI.
Proof.
  intros [H1 H2]. pose proof (acos_bound x) as [Hl Hu]. split; [| assumption].
  destruct (Req_dec_T (acos x) 0) as [H0 | H0]; [| lra].
  exfalso. pose proof (cos_acos x ltac:(lra)) as Hc.
  rewrite H0, cos_0 in Hc. lra.
Qed.

Lemma angleR_nonzero (ux uy vx vy : R) :
  -1 <= (ux * vx + uy * vy) / (sqrt (ux * ux + uy * uy) * sqrt (vx * vx + vy * vy)) < 1 ->
  angleR ux uy vx vy <> 0.
Proof.
  intros H. apply acos_pos in H. unfold angleR.
  destruct (Rlt_dec (ux * vy - uy * vx) 0); lra.
Qed.

Lemma dtheta_raw_nonzero (A B X Y c : R) :
  0 < A -> 0 < B -> X * X + Y * Y <> 0 ->
  angleR ((X - cxpR c A B Y) / A) ((Y - cypR c A B X) / B)
         ((- X - cxpR c A B Y) / A) ((- Y - cypR c A B X) / B) <> 0.
Proof.
  intros HA HB HXY. apply angleR_nonzero.
  pose proof (uv_pos A B X Y HA HB HXY) as HW.
  split.
  - apply cos_ratio_bound; [apply vec1_nonzero | apply vec2_nonzero]; assumption.
  - rewrite vec_dot, vec1_norm2, vec2_norm2 by assumption.
    set (W := X / A * (X / A) + Y / B * (Y / B)) in *.
    assert (HN : 0 < (1 + c * c) * W) by nra.
    rewrite sqrt_sqrt by lra.
    apply Rmult_lt_reg_r with ((1 + c * c) * W); [assumption |].
    unfold Rdiv. rewrite Rmult_assoc, Rinv_l by lra. nra.
Qed.

(** ** Coincident endpoints: NaN *)

Lemma nan_sub_r (a : number) : num_sub a NaN = NaN.
Proof. destruct a; reflexivity. Qed.
Lemma nan_mul_r (a : number) : num_mul a NaN = NaN.
Proof. destruct a; reflexivity. Qed.
Lemma nan_div_l (a : number) : num_div NaN a = NaN.
Proof. reflexivity. Qed.
Lemma angle_nan_r (u : Vector.t) : angle u (Vector.mk NaN NaN) = NaN.
Proof.
  unfold angle. cbn [Vector.x Vector.y].
  rewrite !nan_mul_r. reflexivity.
Qed.

Lemma angle_nan_l (v : Vector.t) : angle (Vector.mk NaN NaN) v = NaN.
Proof.
  unfold angle. cbn [Vector.x Vector.y].
  rewrite nan_mul_r. reflexivity.
Qed.

Lemma sweep_adjust_nan (sw : bool) : sweep_adjust sw NaN = NaN.
Proof. destruct sw; reflexivity. Qed.

Lemma cFactor_at_coincident (A B : R) (la sw : bool) :
  0 < A -> 0 < B ->
  cFactor_at (Fin A) (Fin B) (Fin 0) (Fin 0) la sw
  = if Bool.eqb la sw then NInf else PInf.
Proof.
  intros HA HB. unfold cFactor_at.
  rewrite !mul_fin, !sub_fin, add_fin, max_zero_fin.
  unfold num_div. destruct (Req_dec_T (A * A * (0 * 0) + B * B * (0 * 0)) 0) as [_ | H];
    [| exfalso; apply H; ring].
  rewrite inf_times_pos.
  - unfold lit. destruct (Bool.eqb la sw); cbn [Math.sqrt num_mul num_neg].
    + rewrite inf_times_neg by lra. reflexivity.
    + rewrite inf_times_pos by lra. reflexivity.
  - assert (H0 : 0 < A * A * (B * B) - A * A * (0 * 0) - B * B * (0 * 0)).
    { replace (A * A * (B * B) - A * A * (0 * 0) - B * B * (0 * 0))
        with ((A * A) * (B * B)) by ring.
      apply Rmult_lt_0_compat; apply Rmult_lt_0_compat; assumption. }
    rewrite Rmax_right; lra.
Qed.

Lemma centre_form_coincident (p A B : R) (x1 y1 x2 y2 : number) (la sw : bool) :
  0 < A -> 0 < B ->
  centre_form (Fin p) x1 y1 x2 y2 (Fin 0) (Fin 0) (Fin A) (Fin B) la sw
  = ArcAlt.mk (Fin p) (Fin A) (Fin B) NaN NaN NaN NaN.
Proof.
  intros HA HB. unfold centre_form. cbv zeta.
  rewrite cFactor_at_coincident by assumption.
  assert (Hcx : cxp_at (if Bool.eqb la sw then NInf else PInf) (Fin A) (Fin B) (Fin 0) = NaN).
  { unfold cxp_at. destruct (Bool.eqb la sw); cbn [num_mul num_neg];
      rewrite (inf_times_pos A) by assumption; cbn [num_mul num_neg];
      rewrite inf_times_zero; reflexivity. }
  assert (Hcy : cyp_at (if Bool.eqb la sw then NInf else PInf) (Fin A) (Fin B) (Fin 0) = NaN).
  { unfold cyp_at. destruct (Bool.eqb la sw); cbn [num_mul num_neg];
      rewrite (inf_times_pos B) by assumption; cbn [num_mul num_neg];
      rewrite inf_times_zero; reflexivity. }
  rewrite Hcx, Hcy. unfold vec1_at, vec2_at.
  rewrite !nan_sub_r, !nan_div_l, angle_nan_r, angle_nan_l, sweep_adjust_nan.
  rewrite ?nan_mul_r. reflexivity.
Qed.

Lemma sqrtLambdaR_zero (a b : R) : sqrtLambdaR 0 0 a b = 0.
Proof.
  unfold sqrtLambdaR. replace (0 * 0 / (a * a) + 0 * 0 / (b * b)) with 0.
  - apply sqrt_0.
  - unfold Rdiv. ring.
Qed.

Lemma correctedR_small (l r : R) : l <= 1 -> correctedR l r = r.
Proof. intros H. unfold correctedR. destruct (Rlt_dec 1 l); [lra | reflexivity]. Qed.

Lemma convertArcParams_coincident (x y a b rot : R) (la sw : bool) :
  a <> 0 -> b <> 0 ->
  convertArcParams (arc_of x y x y a b rot la sw)
  = ArcAlt.mk (Fin (phiR rot)) (Fin (Rabs a)) (Fin (Rabs b)) NaN NaN NaN NaN.
Proof.
  intros Ha Hb. rewrite convertArcParams_eq. cbv zeta.
  rewrite x1p_of_fin, y1p_of_fin, phi_of_fin.
  destruct (x1p_y1p_zero (phiR rot) x y) as [-> ->].
  unfold arc_of. cbn [Arc.rx Arc.ry Arc.start Arc.end_ Point.x Point.y Arc.largeArc Arc.sweep].
  unfold lit. rewrite !eqb_fin_false by assumption. cbn [orb].
  rewrite !abs_fin.
  assert (HA : 0 < Rabs a) by (apply Rabs_pos_lt; assumption).
  assert (HB : 0 < Rabs b) by (apply Rabs_pos_lt; assumption).
  rewrite sqrtLambda_at_fin by lra.
  rewrite !corrected_fin, sqrtLambdaR_zero, !correctedR_small by lra.
  apply centre_form_coincident; assumption.
Qed.

(** ** The arc of the scenarios *)

Lemma Rtrunc_0 : Rtrunc 0 = 0%Z.
Proof.
  unfold Rtrunc. destruct (Rle_dec 0 0); [| lra].
  apply Zfloor_eq. simpl. lra.
Qed.

Lemma phiR_0 : phiR 0 = 0.
Proof.
  unfold phiR. replace (0 / 180) with 0 by lra. rewrite Rtrunc_0. simpl. lra.
Qed.

Lemma sqrt_half_le_1 : sqrt (1 / 2) <= 1.
Proof.
  rewrite <- sqrt_1 at 2. apply sqrt_le_1; lra.
Qed.

Lemma scenario_converted :
  convertArcParams scenario_arc
  = ArcAlt.mk (Fin 0) (Fin 1) (Fin 1) (Fin (-1)) (Fin (-1))
              (Fin (PI / 2)) (Fin (- (PI / 2))).
Proof.
  unfold scenario_arc. rewrite convertArcParams_fin by lra.
  unfold convertR. cbv zeta. rewrite phiR_0.
  assert (HX : x1pR 0 (-1) 0 0 (-1) = -1 / 2).
  { unfold x1pR. rewrite sin_0, cos_0. lra. }
  assert (HY : y1pR 0 (-1) 0 0 (-1) = 1 / 2).
  { unfold y1pR. rewrite sin_0, cos_0. lra. }
  rewrite HX, HY, Rabs_R1.
  assert (Hl : sqrtLambdaR (-1 / 2) (1 / 2) 1 1 = sqrt (1 / 2)).
  { unfold sqrtLambdaR. f_equal. lra. }
  rewrite Hl, correctedR_small by apply sqrt_half_le_1.
  unfold centre_formR. cbv zeta.
  assert (Hc : cFactorR 1 1 (-1 / 2) (1 / 2) false false = -1).
  { unfold cFactorR, flag_sign. cbn [Bool.eqb].
    replace (1 * 1 * (1 * 1) - 1 * 1 * (1 / 2 * (1 / 2)) - 1 * 1 * (-1 / 2 * (-1 / 2)))
      with (1 / 2) by lra.
    rewrite Rmax_right by lra.
    replace (1 / 2 / (1 * 1 * (1 / 2 * (1 / 2)) + 1 * 1 * (-1 / 2 * (-1 / 2)))) with 1 by lra.
    rewrite sqrt_1. lra. }
  rewrite Hc.
  assert (Hcx : cxpR (-1) 1 1 (1 / 2) = -1 / 2) by (unfold cxpR; lra).
  assert (Hcy : cypR (-1) 1 1 (-1 / 2) = -1 / 2) by (unfold cypR; lra).
  rewrite Hcx, Hcy, sin_0, cos_0.
  replace ((-1 / 2 - -1 / 2) / 1) with 0 by lra.
  replace ((1 / 2 - -1 / 2) / 1) with 1 by lra.
  replace ((- (-1 / 2) - -1 / 2) / 1) with 1 by lra.
  replace ((- (1 / 2) - -1 / 2) / 1) with 0 by lra.
  assert (Ht : angleR 1 0 0 1 = PI / 2).
  { unfold angleR. destruct (Rlt_dec (1 * 1 - 0 * 0) 0); [lra |].
    replace (1 * 0 + 0 * 1) with 0 by lra. unfold Rdiv at 1. rewrite Rmult_0_l, acos_0. lra. }
  assert (Hd : angleR 0 1 1 0 = - (PI / 2)).
  { unfold angleR. destruct (Rlt_dec (0 * 0 - 1 * 1) 0); [| lra].
    replace (0 * 1 + 1 * 0) with 0 by lra. unfold Rdiv at 1. rewrite Rmult_0_l, acos_0. lra. }
  rewrite Ht, Hd.
  assert (Hs : sweep_adjustR false (- (PI / 2)) = - (PI / 2)).
  { unfold sweep_adjustR. pose proof PI_RGT_0. destruct (Rlt_dec 0 (- (PI / 2))); [lra | reflexivity]. }
  rewrite Hs. f_equal; f_equal; lra.
Qed.

(** ** Order on numbers; minimum and maximum of a list *)

Ltac num_cases :=
  unfold num_le, num_lt, Math.min2, Math.max2, num_leb, num_ltb;
  repeat match goal with
         | |- context [Rlt_dec ?a ?b] => destruct (Rlt_dec a b)
         | |- context [Rle_dec ?a ?b] => destruct (Rle_dec a b)
         | H : context [Rlt_dec ?a ?b] |- _ => destruct (Rlt_dec a b)
         | H : context [Rle_dec ?a ?b] |- _ => destruct (Rle_dec a b)
         end;
  try reflexivity; try discriminate; try contradiction; try (exfalso; lra).

Lemma num_le_refl (a : number) : a <> NaN -> num_le a a.
Proof. destruct a; intros H; num_cases. Qed.

Lemma num_le_trans (a b c : number) : num_le a b -> num_le b c -> num_le a c.
Proof. destruct a, b, c; intros H1 H2; revert H1 H2; num_cases; intros; num_cases. Qed.

Lemma finite_not_nan (a : number) : is_finite a -> a <> NaN.
Proof. destruct a; simpl; intros H; try contradiction. discriminate. Qed.

Lemma min2_spec (a b : number) :
  a <> NaN -> b <> NaN ->
  (Math.min2 a b = a \/ Math.min2 a b = b)
  /\ num_le (Math.min2 a b) a /\ num_le (Math.min2 a b) b.
Proof.
  destruct a, b; intros Ha Hb; try contradiction;
    repeat split; num_cases; auto.
Qed.

Lemma max2_spec (a b : number) :
  a <> NaN -> b <> NaN ->
  (Math.max2 a b = a \/ Math.max2 a b = b)
  /\ num_le a (Math.max2 a b) /\ num_le b (Math.max2 a b).
Proof.
  destruct a, b; intros Ha Hb; try contradiction;
    repeat split; num_cases; auto.
Qed.

Lemma fold_min2_spec (l : list number) :
  Forall (fun x => x <> NaN) l ->
  forall acc, acc <> NaN ->
    In (fold_left Math.min2 l acc) (acc :: l)
    /\ num_le (fold_left Math.min2 l acc) acc
    /\ forall x, In x l -> num_le (fold_left Math.min2 l acc) x.
Proof.
  induction 1 as [| b l Hb Hl IH]; intros acc Hacc; simpl.
  - repeat split; [now left | now apply num_le_refl | contradiction].
  - destruct (min2_spec acc b Hacc Hb) as [Hsel [Hma Hmb]].
    assert (Hm : Math.min2 acc b <> NaN) by (destruct Hsel as [-> | ->]; assumption).
    destruct (IH _ Hm) as [Hin [Hle Hall]].
    repeat split.
    + destruct Hin as [Hin | Hin]; [| now right; right].
      rewrite <- Hin. destruct Hsel as [-> | ->]; [now left | now right; left].
    + eapply num_le_trans; eassumption.
    + intros x [<- | Hx]; [eapply num_le_trans; eassumption | now apply Hall].
Qed.

Lemma fold_max2_spec (l : list number) :
  Forall (fun x => x <> NaN) l ->
  forall acc, acc <> NaN ->
    In (fold_left Math.max2 l acc) (acc :: l)
    /\ num_le acc (fold_left Math.max2 l acc)
    /\ forall x, In x l -> num_le x (fold_left Math.max2 l acc).
Proof.
  induction 1 as [| b l Hb Hl IH]; intros acc Hacc; simpl.
  - repeat split; [now left | now apply num_le_refl | contradiction].
  - destruct (max2_spec acc b Hacc Hb) as [Hsel [Hma Hmb]].
    assert (Hm : Math.max2 acc b <> NaN) by (destruct Hsel as [-> | ->]; assumption).
    destruct (IH _ Hm) as [Hin [Hle Hall]].
    repeat split.
    + destruct Hin as [Hin | Hin]; [| now right; right].
      rewrite <- Hin. destruct Hsel as [-> | ->]; [now left | now right; left].
    + eapply num_le_trans; eassumption.
    + intros x [<- | Hx]; [eapply num_le_trans; eassumption | now apply Hall].
Qed.

Lemma Forall_finite_not_nan (l : list number) :
  Forall is_finite l -> Forall (fun x => x <> NaN) l.
Proof. intros H. eapply Forall_impl; [| exact H]. exact finite_not_nan. Qed.

Lemma min_le (l : list number) (x : number) :
  Forall is_finite l -> In x l -> num_le (Math.min l) x.
Proof.
  intros Hl Hx. unfold Math.min.
  apply (fold_min2_spec l (Forall_finite_not_nan l Hl) PInf); [discriminate | assumption].
Qed.

Lemma max_ge (l : list number) (x : number) :
  Forall is_finite l -> In x l -> num_le x (Math.max l).
Proof.
  intros Hl Hx. unfold Math.max.
  apply (fold_max2_spec l (Forall_finite_not_nan l Hl) NInf); [discriminate | assumption].
Qed.

Lemma min_finite (l : list number) :
  Forall is_finite l -> l <> [] -> is_finite (Math.min l).
Proof.
  intros Hl Hne. unfold Math.min.
  destruct (fold_min2_spec l (Forall_finite_not_nan l Hl) PInf) as [Hin [_ Hall]];
    [discriminate |].
  destruct Hin as [Hin | Hin].
  - destruct l as [| x l]; [contradiction |].
    specialize (Hall x (or_introl eq_refl)). rewrite <- Hin in Hall.
    inversion Hl as [| ? ? Hx _]; subst. destruct x; simpl in Hx; try contradiction.
    discriminate Hall.
  - rewrite Forall_forall in Hl. now apply Hl.
Qed.

Lemma max_finite (l : list number) :
  Forall is_finite l -> l <> [] -> is_finite (Math.max l).
Proof.
  intros Hl Hne. unfold Math.max.
  destruct (fold_max2_spec l (Forall_finite_not_nan l Hl) NInf) as [Hin [_ Hall]];
    [discriminate |].
  destruct Hin as [Hin | Hin].
  - destruct l as [| x l]; [contradiction |].
    specialize (Hall x (or_introl eq_refl)). rewrite <- Hin in Hall.
    inversion Hl as [| ? ? Hx _]; subst. destruct x; simpl in Hx; try contradiction.
    discriminate Hall.
  - rewrite Forall_forall in Hl. now apply Hl.
Qed.

Lemma min_pair_fin (a b : R) : Math.min [Fin a; Fin b] = Fin (Rmin a b).
Proof.
  unfold Math.min, Rmin. simpl. destruct (Rlt_dec b a), (Rle_dec a b); try reflexivity; lra.
Qed.

Lemma max_pair_fin (a b : R) : Math.max [Fin a; Fin b] = Fin (Rmax a b).
Proof.
  unfold Math.max, Rmax. simpl. destruct (Rlt_dec a b), (Rle_dec a b); try reflexivity; try lra.
  f_equal. lra.
Qed.

(** ** The candidates of [arcBound] *)

Lemma atan_no_infinity (a : number) : no_infinity (Math.atan a).
Proof. destruct a; exact I. Qed.

Lemma arcBound_step_ok (alt : ArcAlt.t) (tX tY offset x1 x2 y1 y2 : number)
    (acc : list number * list number) :
  finite_alt alt -> no_infinity tX -> no_infinity tY -> is_finite offset ->
  candidates_ok x1 x2 y1 y2 acc ->
  candidates_ok x1 x2 y1 y2 (arcBound_step alt tX tY acc offset).
Proof.
  intros Halt HtX HtY Ho (Hxs & Hys & Hx1 & Hx2 & Hy1 & Hy2).
  destruct alt as [phi rx ry cx cy theta1 dtheta].
  destruct Halt as (Hphi & Hrx & Hry & Hcx & Hcy & Ht1 & Hdt). simpl in *.
  apply is_finite_inv in Hphi, Hrx, Hry, Hcx, Hcy, Ht1, Hdt, Ho.
  destruct Hphi as [p ->], Hrx as [A ->], Hry as [B ->], Hcx as [c1 ->],
    Hcy as [c2 ->], Ht1 as [t1 ->], Hdt as [dt ->], Ho as [o ->].
  unfold arcBound_step, candidates_ok.
  cbn [ArcAlt.phi ArcAlt.rx ArcAlt.ry ArcAlt.cx ArcAlt.cy ArcAlt.theta1 ArcAlt.dtheta fst snd].
  cbv zeta.
  repeat split.
  - destruct tX as [| | | t]; try contradiction; cbn; [assumption |].
    destruct (_ && _)%bool; [| assumption].
    apply Forall_app; split; [assumption |]. constructor; [exact I | constructor].
  - destruct tY as [| | | t]; try contradiction; cbn; [assumption |].
    destruct (_ && _)%bool; [| assumption].
    apply Forall_app; split; [assumption |]. constructor; [exact I | constructor].
  - destruct (_ && _)%bool; [apply in_or_app; left |]; assumption.
  - destruct (_ && _)%bool; [apply in_or_app; left |]; assumption.
  - destruct (_ && _)%bool; [apply in_or_app; left |]; assumption.
  - destruct (_ && _)%bool; [apply in_or_app; left |]; assumption.
Qed.

Lemma endpoints_ok (x1 y1 x2 y2 : R) :
  candidates_ok (Fin x1) (Fin x2) (Fin y1) (Fin y2)
                ([Fin x1; Fin x2], [Fin y1; Fin y2]).
Proof.
  unfold candidates_ok; simpl.
  repeat split; auto; repeat (constructor; try exact I).
Qed.

Lemma offsets_finite : Forall is_finite offsets.
Proof. unfold offsets. repeat constructor. Qed.

Lemma arcBound_fold_ok (alt : ArcAlt.t) (tX tY x1 x2 y1 y2 : number) (os : list number) :
  finite_alt alt -> no_infinity tX -> no_infinity tY -> Forall is_finite os ->
  forall acc, candidates_ok x1 x2 y1 y2 acc ->
    candidates_ok x1 x2 y1 y2 (fold_left (arcBound_step alt tX tY) os acc).
Proof.
  intros Halt HtX HtY Hos. induction Hos as [| o os Ho Hos IH]; intros acc Hacc; simpl.
  - assumption.
  - apply IH. apply arcBound_step_ok; assumption.
Qed.

Lemma convertR_finite (x1 y1 x2 y2 a b rot : R) (la sw : bool) :
  finite_alt (convertR x1 y1 x2 y2 a b rot la sw).
Proof. unfold convertR, centre_formR, finite_alt. simpl. tauto. Qed.

Lemma arcBound_degenerate_eq (arc : Arc.t) :
  (num_eqb (Arc.rx arc) (lit 0)
   || num_eqb (Arc.ry arc) (lit 0)
   || (num_eqb (Point.x (Arc.start arc)) (Point.x (Arc.end_ arc))
       && num_eqb (Point.y (Arc.start arc)) (Point.y (Arc.end_ arc))))%bool = true ->
  arcBound arc
  = Rect.mk (Math.min [Point.x (Arc.start arc); Point.x (Arc.end_ arc)])
            (Math.max [Point.x (Arc.start arc); Point.x (Arc.end_ arc)])
            (Math.min [Point.y (Arc.start arc); Point.y (Arc.end_ arc)])
            (Math.max [Point.y (Arc.start arc); Point.y (Arc.end_ arc)]).
Proof. intros H. unfold arcBound. cbv zeta. rewrite H. reflexivity. Qed.

Lemma arcBound_proper_eq (arc : Arc.t) :
  (num_eqb (Arc.rx arc) (lit 0)
   || num_eqb (Arc.ry arc) (lit 0)
   || (num_eqb (Point.x (Arc.start arc)) (Point.x (Arc.end_ arc))
       && num_eqb (Point.y (Arc.start arc)) (Point.y (Arc.end_ arc))))%bool = false ->
  arcBound arc
  = let c := candidates_of (convertArcParams arc)
               (Point.x (Arc.start arc)) (Point.y (Arc.start arc))
               (Point.x (Arc.end_ arc)) (Point.y (Arc.end_ arc)) in
    Rect.mk (Math.min (fst c)) (Math.max (fst c))
            (Math.min (snd c)) (Math.max (snd c)).
Proof. intros H. unfold arcBound. cbv zeta. rewrite H. reflexivity. Qed.

Lemma proper_guard (x1 y1 x2 y2 a b : R) :
  a <> 0 -> b <> 0 -> x1 <> x2 \/ y1 <> y2 ->
  (num_eqb (Fin a) (lit 0) || num_eqb (Fin b) (lit 0)
   || (num_eqb (Fin x1) (Fin x2) && num_eqb (Fin y1) (Fin y2)))%bool = false.
Proof.
  intros Ha Hb Hne. unfold lit. rewrite !eqb_fin_false by assumption.
  destruct Hne as [H | H]; rewrite (eqb_fin_false _ _ H); simpl;
    [reflexivity | apply andb_false_r].
Qed.

Lemma candidates_of_ok (alt : ArcAlt.t) (x1 y1 x2 y2 : R) :
  finite_alt alt ->
  candidates_ok (Fin x1) (Fin x2) (Fin y1) (Fin y2)
                (candidates_of alt (Fin x1) (Fin y1) (Fin x2) (Fin y2)).
Proof.
  intros Halt. unfold candidates_of. cbv zeta.
  apply arcBound_fold_ok; try assumption; try apply atan_no_infinity.
  - apply offsets_finite.
  - apply endpoints_ok.
Qed.

Lemma rect_of_candidates (x1 x2 y1 y2 : number) (c : list number * list number) :
  candidates_ok x1 x2 y1 y2 c ->
  let r := Rect.mk (Math.min (fst c)) (Math.max (fst c))
                   (Math.min (snd c)) (Math.max (snd c)) in
  contains r (Point.mk x1 y1) /\ contains r (Point.mk x2 y2) /\ finite_rect r.
Proof.
  intros (Hxs & Hys & Hx1 & Hx2 & Hy1 & Hy2). unfold contains, finite_rect. simpl.
  assert (Hnx : fst c <> []) by (intros E; rewrite E in Hx1; contradiction).
  assert (Hny : snd c <> []) by (intros E; rewrite E in Hy1; contradiction).
  repeat split; auto using min_le, max_ge, min_finite, max_finite.
Qed.

Lemma arcBound_finite_arc (arc : Arc.t) :
  finite_arc arc ->
  contains (arcBound arc) (Arc.start arc) /\ contains (arcBound arc) (Arc.end_ arc)
  /\ finite_rect (arcBound arc).
Proof.
  intros Hfin. destruct (finite_arc_inv arc Hfin) as (x1 & y1 & x2 & y2 & a & b & rot & E).
  rewrite E. generalize (Arc.largeArc arc) (Arc.sweep arc). intros la sw.
  destruct (num_eqb (Fin a) (lit 0) || num_eqb (Fin b) (lit 0)
            || (num_eqb (Fin x1) (Fin x2) && num_eqb (Fin y1) (Fin y2)))%bool eqn:G.
  - rewrite arcBound_degenerate_eq by exact G.
    apply (rect_of_candidates (Fin x1) (Fin x2) (Fin y1) (Fin y2) ([Fin x1; Fin x2], [Fin y1; Fin y2])).
    apply endpoints_ok.
  - rewrite arcBound_proper_eq by exact G. cbv zeta.
    assert (Ha : a <> 0).
    { intros ->. unfold lit in G. rewrite eqb_fin_true in G by reflexivity. discriminate G. }
    assert (Hb : b <> 0).
    { intros ->. unfold lit in G. rewrite (eqb_fin_true 0 0) in G by reflexivity.
      rewrite orb_true_r in G. discriminate G. }
    assert (Hne : x1 <> x2 \/ y1 <> y2).
    { destruct (Req_dec_T x1 x2) as [Hx | Hx]; [| now left].
      destruct (Req_dec_T y1 y2) as [Hy | Hy]; [| now right].
      rewrite (eqb_fin_true x1 x2 Hx), (eqb_fin_true y1 y2 Hy), orb_true_r in G.
      discriminate G. }
    rewrite convertArcParams_fin by assumption.
    apply (rect_of_candidates (Fin x1) (Fin x2) (Fin y1) (Fin y2)).
    apply candidates_of_ok, convertR_finite.
Qed.

Lemma arcBound_step_skip (alt : ArcAlt.t) (tx ty o t1 dt : R)
    (acc : list number * list number) :
  ArcAlt.theta1 alt = Fin t1 -> ArcAlt.dtheta alt = Fin dt -> dt <> 0 ->
  ~ 0 < (tx + o - t1) / dt < 1 ->
  ~ 0 < (ty + o - t1) / dt < 1 ->
  arcBound_step alt (Fin tx) (Fin ty) acc (Fin o) = acc.
Proof.
  intros Ht1 Hdt Hnz HX HY. destruct acc as [xs ys].
  unfold arcBound_step. cbv zeta. rewrite Ht1, Hdt.
  rewrite !add_fin, !sub_fin, !div_fin by assumption.
  unfold num_gtb, lit. cbn [fst snd].
  assert (Hx : (num_ltb (Fin 0) (Fin ((tx + o - t1) / dt))
                && num_ltb (Fin ((tx + o - t1) / dt)) (Fin 1))%bool = false).
  { apply not_true_is_false. intros H. apply andb_prop in H as [H1 H2].
    apply ltb_fin_iff in H1, H2. tauto. }
  assert (Hy : (num_ltb (Fin 0) (Fin ((ty + o - t1) / dt))
                && num_ltb (Fin ((ty + o - t1) / dt)) (Fin 1))%bool = false).
  { apply not_true_is_false. intros H. apply andb_prop in H as [H1 H2].
    apply ltb_fin_iff in H1, H2. tauto. }
  rewrite Hx, Hy. reflexivity.
Qed.

Lemma scenario_candidates :
  candidates_of (convertArcParams scenario_arc) (Fin (-1)) (Fin 0) (Fin 0) (Fin (-1))
  = ([Fin (-1); Fin 0], [Fin 0; Fin (-1)]).
Proof.
  rewrite scenario_converted. unfold candidates_of. cbv zeta.
  cbn [ArcAlt.phi ArcAlt.rx ArcAlt.ry].
  rewrite sin_fin, cos_fin, sin_0, cos_0.
  rewrite neg_fin, !div_fin by lra.
  replace (0 / 1) with 0 by lra.
  rewrite mul_fin, atan_fin.
  replace (- (1) / 1 * 0) with 0 by lra. rewrite atan_0.
  unfold num_div at 1. destruct (Req_dec_T 0 0) as [_ | H]; [| lra].
  rewrite inf_times_pos by lra. cbn [Math.atan].
  unfold offsets, lit, Math.PI. rewrite !mul_fin, neg_fin. cbn [fold_left].
  pose proof PI_RGT_0 as Hpi.
  assert (Hnz : - (PI / 2) <> 0) by lra.
  rewrite (arcBound_step_skip _ 0 (PI / 2) (-2 * PI) (PI / 2) (- (PI / 2)));
    [| reflexivity | reflexivity | assumption | |].
  rewrite (arcBound_step_skip _ 0 (PI / 2) (- PI) (PI / 2) (- (PI / 2)));
    [| reflexivity | reflexivity | assumption | |].
  rewrite (arcBound_step_skip _ 0 (PI / 2) 0 (PI / 2) (- (PI / 2)));
    [| reflexivity | reflexivity | assumption | |].
  rewrite (arcBound_step_skip _ 0 (PI / 2) PI (PI / 2) (- (PI / 2)));
    [| reflexivity | reflexivity | assumption | |].
  rewrite (arcBound_step_skip _ 0 (PI / 2) (2 * PI) (PI / 2) (- (PI / 2)));
    [| reflexivity | reflexivity | assumption | |].
  - reflexivity.
  - replace ((0 + 2 * PI - PI / 2) / - (PI / 2)) with (-3) by (field; lra). lra.
  - replace ((PI / 2 + 2 * PI - PI / 2) / - (PI / 2)) with (-4) by (field; lra). lra.
  - replace ((0 + PI - PI / 2) / - (PI / 2)) with (-1) by (field; lra). lra.
  - replace ((PI / 2 + PI - PI / 2) / - (PI / 2)) with (-2) by (field; lra). lra.
  - replace ((0 + 0 - PI / 2) / - (PI / 2)) with 1 by (field; lra). lra.
  - replace ((PI / 2 + 0 - PI / 2) / - (PI / 2)) with 0 by (field; lra). lra.
  - replace ((0 + - PI - PI / 2) / - (PI / 2)) with 3 by (field; lra). lra.
  - replace ((PI / 2 + - PI - PI / 2) / - (PI / 2)) with 2 by (field; lra). lra.
  - replace ((0 + -2 * PI - PI / 2) / - (PI / 2)) with 5 by (field; lra). lra.
  - replace ((PI / 2 + -2 * PI - PI / 2) / - (PI / 2)) with 4 by (field; lra). lra.
Qed.

Lemma scenario_bound :
  arcBound scenario_arc = Rect.mk (Fin (-1)) (Fin 0) (Fin (-1)) (Fin 0).
Proof.
  rewrite arcBound_proper_eq.
  - change (Point.x (Arc.start scenario_arc)) with (Fin (-1)).
    change (Point.y (Arc.start scenario_arc)) with (Fin 0).
    change (Point.x (Arc.end_ scenario_arc)) with (Fin 0).
    change (Point.y (Arc.end_ scenario_arc)) with (Fin (-1)).
    rewrite scenario_candidates. cbv zeta. cbn [fst snd].
    rewrite !min_pair_fin, !max_pair_fin.
    rewrite Rmin_left, Rmax_right, Rmin_right, Rmax_left by lra. reflexivity.
  - apply proper_guard; lra.
Qed.

(** ** Radii other than zero *)

Lemma fin_neq_lit0 (a : R) : Fin a <> lit 0 -> a <> 0.
Proof. intros H ->. apply H. reflexivity. Qed.

(** ** The degenerate branch *)

Lemma eqb_lit0_false (r : number) : r <> lit 0 -> num_eqb r (lit 0) = false.
Proof.
  destruct r as [| | | x]; intros H; try reflexivity.
  unfold lit. apply eqb_fin_false. intros ->. apply H. reflexivity.
Qed.

Lemma eqb_refl_number (r : number) : is_number r -> num_eqb r r = true.
Proof.
  destruct r as [| | | x]; intros H; try reflexivity.
  - exfalso. apply H. reflexivity.
  - apply eqb_fin_true. reflexivity.
Qed.

Lemma degenerate_guard (arc : Arc.t) :
  Arc.rx arc = lit 0 \/ Arc.ry arc = lit 0 ->
  (num_eqb (Arc.rx arc) (lit 0) || num_eqb (Arc.ry arc) (lit 0))%bool = true.
Proof.
  unfold lit. intros [-> | ->]; rewrite (eqb_fin_true 0 0) by reflexivity;
    [reflexivity | apply orb_true_r].
Qed.

Lemma convertArcParams_degenerate (arc : Arc.t) :
  Arc.rx arc = lit 0 \/ Arc.ry arc = lit 0 ->
  convertArcParams arc
  = ArcAlt.mk (phi_of arc) (Arc.rx arc) (Arc.ry arc)
      (num_div (num_add (Point.x (Arc.start arc)) (Point.x (Arc.end_ arc))) (lit 2))
      (num_div (num_add (Point.y (Arc.start arc)) (Point.y (Arc.end_ arc))) (lit 2))
      (lit 0) Math.PI.
Proof.
  intros H. rewrite convertArcParams_eq. cbv zeta.
  rewrite (degenerate_guard arc H). reflexivity.
Qed.

(** ** The corrected radii *)

Lemma convertArcParams_radii (arc : Arc.t) :
  Arc.rx arc <> lit 0 -> Arc.ry arc <> lit 0 ->
  let sqrtLambda :=
    sqrtLambda_at (x1p_of arc) (y1p_of arc)
                  (Math.abs (Arc.rx arc)) (Math.abs (Arc.ry arc)) in
  ArcAlt.rx (convertArcParams arc) = corrected sqrtLambda (Math.abs (Arc.rx arc))
  /\ ArcAlt.ry (convertArcParams arc) = corrected sqrtLambda (Math.abs (Arc.ry arc)).
Proof.
  intros Ha Hb. rewrite convertArcParams_eq. cbv zeta.
  rewrite (eqb_lit0_false _ Ha), (eqb_lit0_false _ Hb). cbn [orb].
  unfold centre_form. cbv zeta. cbn [ArcAlt.rx ArcAlt.ry]. split; reflexivity.
Qed.

Lemma corrected_ge (l r : number) :
  is_number r -> r <> lit 0 ->
  num_le (Math.abs r) (corrected l (Math.abs r)).
Proof.
  intros Hn Hz. unfold corrected, num_gtb, num_le, lit.
  destruct r as [| | | a]; [exfalso; apply Hn; reflexivity | | |].
  - destruct l as [| | | x]; cbn; try reflexivity.
    destruct (Rlt_dec 1 x); [| reflexivity].
    rewrite inf_times_pos by lra. reflexivity.
  - destruct l as [| | | x]; cbn; try reflexivity.
    destruct (Rlt_dec 1 x); [| reflexivity].
    rewrite inf_times_pos by lra. reflexivity.
  - assert (Ha : 0 < Rabs a).
    { apply Rabs_pos_lt. intros ->. apply Hz. reflexivity. }
    destruct l as [| | | x]; cbn [Math.abs num_ltb num_mul].
    + apply leb_fin_iff. lra.
    + rewrite inf_times_pos by assumption. reflexivity.
    + apply leb_fin_iff. lra.
    + destruct (Rlt_dec 1 x); apply leb_fin_iff; nra.
Qed.

Lemma Rabs_sq (a : R) : Rabs a * Rabs a = a * a.
Proof. unfold Rabs. destruct (Rcase_abs a); ring. Qed.

Lemma sqrtLambdaR_abs (X Y a b : R) :
  sqrtLambdaR X Y (Rabs a) (Rabs b) = sqrtLambdaR X Y a b.
Proof. unfold sqrtLambdaR. rewrite !Rabs_sq. reflexivity. Qed.

Lemma sqrtLambdaR_corrected (X Y a b : R) :
  a <> 0 -> b <> 0 -> 1 < sqrtLambdaR X Y a b ->
  sqrtLambdaR X Y (sqrtLambdaR X Y a b * Rabs a) (sqrtLambdaR X Y a b * Rabs b) = 1.
Proof.
  intros Ha Hb Hl.
  assert (HL : 0 <= X * X / (a * a) + Y * Y / (b * b)).
  { pose proof (sq_div_nonneg X a Ha). pose proof (sq_div_nonneg Y b Hb). lra. }
  pose proof (sqrt_sqrt _ HL) as Hsq. fold (sqrtLambdaR X Y a b) in Hsq.
  set (l := sqrtLambdaR X Y a b) in *.
  assert (HA : Rabs a <> 0) by (apply Rabs_no_R0; assumption).
  assert (HB : Rabs b <> 0) by (apply Rabs_no_R0; assumption).
  unfold sqrtLambdaR at 1.
  replace (X * X / (l * Rabs a * (l * Rabs a)) + Y * Y / (l * Rabs b * (l * Rabs b)))
    with ((X * X / (Rabs a * Rabs a) + Y * Y / (Rabs b * Rabs b)) / (l * l))
    by (field; repeat split; lra).
  rewrite !Rabs_sq, Hsq.
  unfold Rdiv at 1. rewrite Rinv_r by nra. apply sqrt_1.
Qed.

Lemma within_tolerance_exact (v : R) : within_tolerance (Fin v) v.
Proof.
  exists v. split; [reflexivity |].
  replace (v - v) with 0 by ring. rewrite Rabs_R0. lra.
Qed.

Lemma scenario_arc_finite : finite_arc scenario_arc.
Proof. unfold finite_arc, finite_point. simpl. tauto. Qed.

Lemma coincident_arc_valid : valid_arc coincident_arc.
Proof.
  unfold valid_arc, finite_arc, finite_point, nonneg_radii, num_le, lit. simpl.
  repeat split; destruct (Rle_dec 0 1); try reflexivity; lra.
Qed.

Lemma small_radii_arc_finite : finite_arc small_radii_arc.
Proof. unfold finite_arc, finite_point. simpl. tauto. Qed.

Lemma small_radii_arc_too_small :
  num_lt (lit 1)
         (sqrtLambda_at (x1p_of small_radii_arc) (y1p_of small_radii_arc)
                        (Arc.rx small_radii_arc) (Arc.ry small_radii_arc)).
Proof.
  unfold small_radii_arc. rewrite x1p_of_fin, y1p_of_fin.
  unfold arc_of. cbn [Arc.rx Arc.ry].
  rewrite sqrtLambda_at_fin by lra.
  unfold num_lt, lit. apply ltb_fin_true.
  rewrite phiR_0. unfold sqrtLambdaR, x1pR, y1pR. rewrite sin_0, cos_0.
  rewrite <- sqrt_1 at 1. apply sqrt_lt_1_alt. lra.
Qed.

Lemma fin_one_neq_zero : Fin 1 <> lit 0.
Proof. unfold lit. intros H. injection H as H. lra. Qed.

(** ** The angles, whatever the arithmetic

    [Math.acos] returns NaN or a number of [[0, pi]]; what follows from that
    alone for [angle] and for the correction by the sweep flag. *)

Lemma acos_nan_or_range (a : number) : nan_or_between 0 PI (Math.acos a).
Proof.
  destruct a as [| | | r]; try (left; reflexivity).
  unfold Math.acos.
  destruct (Rlt_dec r (-1)); [left; reflexivity |].
  destruct (Rlt_dec 1 r); [left; reflexivity |].
  right. exists (acos r). split; [reflexivity | apply acos_bound].
Qed.

Lemma angle_sign_acos (u v : Vector.t) :
  angle u v
  = num_mul (if num_ltb (cross u v) (lit 0) then lit (-1) else lit 1)
            (Math.acos (num_div (num_add (num_mul (Vector.x u) (Vector.x v))
                                         (num_mul (Vector.y u) (Vector.y v)))
                                (num_mul (norm u) (norm v)))).
Proof. reflexivity. Qed.

Lemma angle_nan_or_range (u v : Vector.t) : nan_or_between (- PI) PI (angle u v).
Proof.
  rewrite angle_sign_acos.
  destruct (acos_nan_or_range
              (num_div (num_add (num_mul (Vector.x u) (Vector.x v))
                                (num_mul (Vector.y u) (Vector.y v)))
                       (num_mul (norm u) (norm v)))) as [-> | (r & -> & Hr)].
  - left. apply nan_mul_r.
  - right.
    destruct (num_ltb _ _); unfold lit; rewrite mul_fin; eexists;
      (split; [reflexivity |]); lra.
Qed.

Lemma sweep_adjust_side (sw : bool) (raw : number) :
  nan_or_between (- PI) PI raw ->
  if sw then nan_or_between 0 (2 * PI) (sweep_adjust sw raw)
  else nan_or_between (- (2 * PI)) 0 (sweep_adjust sw raw).
Proof.
  pose proof PI_RGT_0 as Hpi.
  intros [-> | (r & -> & Hr)].
  - rewrite sweep_adjust_nan. destruct sw; left; reflexivity.
  - rewrite sweep_adjust_fin. unfold sweep_adjustR.
    destruct sw; right; eexists; (split; [reflexivity |]).
    + destruct (Rlt_dec r 0); lra.
    + destruct (Rlt_dec 0 r); lra.
Qed.

Lemma convertArcParams_vectors (arc : Arc.t) :
  Arc.rx arc <> lit 0 -> Arc.ry arc <> lit 0 ->
  ArcAlt.theta1 (convertArcParams arc)
  = angle (Vector.mk (lit 1) (lit 0)) (fst (vectors_of arc))
  /\ ArcAlt.dtheta (convertArcParams arc)
     = sweep_adjust (Arc.sweep arc) (angle (fst (vectors_of arc)) (snd (vectors_of arc))).
Proof.
  intros Ha Hb. rewrite convertArcParams_eq. cbv zeta.
  rewrite (eqb_lit0_false _ Ha), (eqb_lit0_false _ Hb). cbn [orb].
  unfold centre_form, vectors_of. cbv zeta. cbn [ArcAlt.theta1 ArcAlt.dtheta fst snd].
  split; reflexivity.
Qed.

Lemma angles_in_range (arc : Arc.t) :
  Arc.rx arc <> lit 0 -> Arc.ry arc <> lit 0 ->
  nan_or_between (- PI) PI (ArcAlt.theta1 (convertArcParams arc))
  /\ if Arc.sweep arc
     then nan_or_between 0 (2 * PI) (ArcAlt.dtheta (convertArcParams arc))
     else nan_or_between (- (2 * PI)) 0 (ArcAlt.dtheta (convertArcParams arc)).
Proof.
  intros Ha Hb.
  destruct (convertArcParams_vectors arc Ha Hb) as [-> ->].
  split; [apply angle_nan_or_range |].
  apply sweep_adjust_side, angle_nan_or_range.
Qed.

Lemma nan_or_between_not_lt (lo hi : R) (a : number) (c : R) :
  nan_or_between lo hi a -> c <= lo -> ~ num_lt a (Fin c).
Proof.
  unfold num_lt. intros [-> | (r & -> & Hr)] Hc H; [discriminate H |].
  apply ltb_fin_iff in H. lra.
Qed.

Lemma nan_or_between_not_gt (lo hi : R) (a : number) (c : R) :
  nan_or_between lo hi a -> hi <= c -> ~ num_lt (Fin c) a.
Proof.
  unfold num_lt. intros [-> | (r & -> & Hr)] Hc H; [discriminate H |].
  apply ltb_fin_iff in H. lra.
Qed.

(** ** Exchanging the two vectors of [angle] *)

Lemma num_mul_comm (a b : number) : num_mul a b = num_mul b a.
Proof. destruct a, b; try reflexivity. cbn. f_equal. ring. Qed.

Lemma num_add_comm (a b : number) : num_add a b = num_add b a.
Proof. destruct a, b; try reflexivity. cbn. f_equal. ring. Qed.

Lemma num_neg_involutive (a : number) : num_neg (num_neg a) = a.
Proof. destruct a; try reflexivity. cbn. f_equal. ring. Qed.

Lemma num_neg_add (a b : number) :
  num_neg (num_add a b) = num_add (num_neg a) (num_neg b).
Proof. destruct a, b; try reflexivity. cbn. f_equal. ring. Qed.

Lemma cross_swap (u v : Vector.t) : cross v u = num_neg (cross u v).
Proof.
  unfold cross, num_sub. rewrite num_neg_add, num_neg_involutive.
  rewrite (num_add_comm (num_neg _)).
  rewrite (num_mul_comm (Vector.x v)), (num_mul_comm (Vector.y v)). reflexivity.
Qed.

Lemma ltb_neg_zero (a : number) : num_ltb (num_neg a) (lit 0) = num_ltb (lit 0) a.
Proof.
  unfold lit. destruct a as [| | | r]; try reflexivity. cbn.
  destruct (Rlt_dec (- r) 0), (Rlt_dec 0 r); try reflexivity; lra.
Qed.

Lemma mul_minus_one (a : number) : num_mul (lit (-1)) a = num_neg a.
Proof.
  unfold lit. destruct a as [| | | r]; cbn.
  - reflexivity.
  - rewrite inf_times_neg by lra. reflexivity.
  - rewrite inf_times_neg by lra. reflexivity.
  - f_equal. ring.
Qed.

Lemma mul_one (a : number) : num_mul (lit 1) a = a.
Proof.
  unfold lit. destruct a as [| | | r]; cbn.
  - reflexivity.
  - rewrite inf_times_pos by lra. reflexivity.
  - rewrite inf_times_pos by lra. reflexivity.
  - f_equal. ring.
Qed.

Lemma ltb_asym (a b : number) : num_ltb a b = true -> num_ltb b a = false.
Proof.
  destruct a, b; cbn; try discriminate; try reflexivity.
  destruct (Rlt_dec r r0), (Rlt_dec r0 r); try discriminate; try reflexivity; lra.
Qed.

Lemma angle_swap (u v : Vector.t) :
  nonzero_number (cross u v) -> angle v u = num_neg (angle u v).
Proof.
  intros H. rewrite !angle_sign_acos.
  rewrite (num_mul_comm (Vector.x v) (Vector.x u)), (num_mul_comm (Vector.y v) (Vector.y u)),
    (num_mul_comm (norm v) (norm u)).
  rewrite (cross_swap u v), ltb_neg_zero.
  destruct H as [H | H]; unfold num_lt in H; rewrite H, (ltb_asym _ _ H).
  - rewrite mul_minus_one, mul_one, num_neg_involutive. reflexivity.
  - rewrite mul_minus_one, mul_one. reflexivity.
Qed.

(** ** Arcs of moderate magnitude *)

Lemma magnitude_finite (lo hi : R) (a : number) : magnitude_within lo hi a -> is_finite a.
Proof. intros (r & -> & _). exact I. Qed.

Lemma magnitude_nonzero (lo hi : R) (a : number) :
  0 < lo -> magnitude_within lo hi a -> a <> lit 0.
Proof.
  intros Hlo (r & -> & Hr) E. unfold lit in E. injection E as ->.
  rewrite Rabs_R0 in Hr. lra.
Qed.

Lemma moderate_arc_finite (arc : Arc.t) :
  moderate_arc arc -> finite_arc arc /\ Arc.rx arc <> lit 0 /\ Arc.ry arc <> lit 0.
Proof.
  intros (H1 & H2 & H3 & H4 & H5 & H6 & H7).
  repeat split; eauto using magnitude_finite.
  - apply (magnitude_nonzero 1e-50 1e50); [lra | assumption].
  - apply (magnitude_nonzero 1e-50 1e50); [lra | assumption].
Qed.

Lemma rotated_bound (c s u v M : R) :
  -1 <= c <= 1 -> -1 <= s <= 1 -> Rabs u <= M -> Rabs v <= M ->
  Rabs (c * u + s * v) <= 2 * M.
Proof.
  intros Hc Hs Hu Hv.
  apply Rle_trans with (Rabs (c * u) + Rabs (s * v)); [apply Rabs_triang |].
  rewrite !Rabs_mult.
  assert (Rabs c <= 1) by (apply Rabs_le; lra).
  assert (Rabs s <= 1) by (apply Rabs_le; lra).
  pose proof (Rabs_pos u). pose proof (Rabs_pos v).
  pose proof (Rabs_pos c). pose proof (Rabs_pos s).
  nra.
Qed.

Lemma Rabs_bounds (x M : R) : Rabs x <= M -> - M <= x <= M.
Proof. unfold Rabs. destruct (Rcase_abs x); lra. Qed.

Lemma half_diff_bound (x y M : R) :
  Rabs x <= M -> Rabs y <= M -> Rabs ((x - y) / 2) <= M.
Proof.
  intros Hx Hy. apply Rabs_le. apply Rabs_bounds in Hx, Hy. lra.
Qed.

Lemma sq_bound (x M : R) : Rabs x <= M -> x * x <= M * M.
Proof.
  intros H. rewrite <- (Rabs_sq x). pose proof (Rabs_pos x). nra.
Qed.

Lemma x1pR_bound (p x1 y1 x2 y2 M : R) :
  Rabs x1 <= M -> Rabs y1 <= M -> Rabs x2 <= M -> Rabs y2 <= M ->
  Rabs (x1pR p x1 y1 x2 y2) <= 2 * M /\ Rabs (y1pR p x1 y1 x2 y2) <= 2 * M.
Proof.
  intros H1 H2 H3 H4. pose proof (COS_bound p) as Hc. pose proof (SIN_bound p) as Hs.
  unfold x1pR, y1pR. split.
  - apply rotated_bound; try assumption; apply half_diff_bound; assumption.
  - replace (- sin p * ((x1 - x2) / 2) + cos p * ((y1 - y2) / 2))
      with ((- sin p) * ((x1 - x2) / 2) + cos p * ((y1 - y2) / 2)) by ring.
    apply rotated_bound; try assumption; try lra; apply half_diff_bound; assumption.
Qed.

(** A quotient of a square of at most [4e100] by a divisor of at least
    [1e-100]. *)
Lemma quotient_bound (n d : R) :
  0 <= n <= 4e100 -> 1e-100 <= d -> 0 <= n / d <= 4e200.
Proof.
  intros Hn Hd. assert (Hd0 : 0 < d) by lra.
  assert (Hi : 0 < / d) by (apply Rinv_0_lt_compat; assumption).
  assert (Hi' : / d <= 1e100).
  { replace 1e100 with (/ 1e-100) by lra. apply Rinv_le_contravar; lra. }
  unfold Rdiv. split; [nra |].
  apply Rle_trans with (4e100 * / d); [nra |]. nra.
Qed.

Section Moderate.

Variables x1 y1 x2 y2 a b p : R.
Hypothesis Hx1 : Rabs x1 <= 1e50.
Hypothesis Hy1 : Rabs y1 <= 1e50.
Hypothesis Hx2 : Rabs x2 <= 1e50.
Hypothesis Hy2 : Rabs y2 <= 1e50.
Hypothesis Ha : 1e-50 <= Rabs a <= 1e50.
Hypothesis Hb : 1e-50 <= Rabs b <= 1e50.

Local Abbreviation X := (x1pR p x1 y1 x2 y2).
Local Abbreviation Y := (y1pR p x1 y1 x2 y2).
Local Abbreviation l := (sqrtLambdaR X Y (Rabs a) (Rabs b)).

Hypothesis Hl : 1 < l.

Lemma moderate_squares : 0 <= X * X <= 4e100 /\ 0 <= Y * Y <= 4e100.
Proof.
  destruct (x1pR_bound p x1 y1 x2 y2 1e50 Hx1 Hy1 Hx2 Hy2) as [HX HY].
  apply sq_bound in HX, HY. split; split; try nra.
Qed.

Lemma moderate_radii_squares :
  1e-100 <= Rabs a * Rabs a <= 1e100 /\ 1e-100 <= Rabs b * Rabs b <= 1e100.
Proof. split; split; nra. Qed.

Lemma moderate_lambda :
  0 <= X * X / (Rabs a * Rabs a) <= 4e200
  /\ 0 <= Y * Y / (Rabs b * Rabs b) <= 4e200
  /\ l <= 3e100.
Proof.
  destruct moderate_squares as [HX HY]. destruct moderate_radii_squares as [HA HB].
  pose proof (quotient_bound _ _ HX (proj1 HA)) as Q1.
  pose proof (quotient_bound _ _ HY (proj1 HB)) as Q2.
  split; [exact Q1 |]. split; [exact Q2 |].
  unfold sqrtLambdaR.
  replace 3e100 with (sqrt (3e100 * 3e100)) by (apply sqrt_square; lra).
  apply sqrt_le_1_alt. lra.
Qed.

Lemma moderate_corrected :
  1e-50 <= l * Rabs a <= 3e150 /\ 1e-50 <= l * Rabs b <= 3e150
  /\ 1e-100 <= l * Rabs a * (l * Rabs a) <= 9e300
  /\ 1e-100 <= l * Rabs b * (l * Rabs b) <= 9e300.
Proof.
  destruct moderate_lambda as (_ & _ & Hu).
  assert (HA : 1e-50 <= l * Rabs a <= 3e150) by (split; nra).
  assert (HB : 1e-50 <= l * Rabs b <= 3e150) by (split; nra).
  repeat split; try nra.
Qed.

End Moderate.

Lemma magnitude_within_fin (lo hi r : R) :
  lo <= Rabs r <= hi -> magnitude_within lo hi (Fin r).
Proof. intros H. exists r. split; [reflexivity | exact H]. Qed.

Lemma magnitude_within_nonneg (lo hi r : R) :
  0 <= r -> lo <= r <= hi -> magnitude_within lo hi (Fin r).
Proof.
  intros H0 H. apply magnitude_within_fin. rewrite Rabs_pos_eq by assumption. exact H.
Qed.

Lemma moderate_arc_inv (arc : Arc.t) :
  moderate_arc arc ->
  exists x1 y1 x2 y2 a b rot,
    arc = arc_of x1 y1 x2 y2 a b rot (Arc.largeArc arc) (Arc.sweep arc)
    /\ Rabs x1 <= 1e50 /\ Rabs y1 <= 1e50 /\ Rabs x2 <= 1e50 /\ Rabs y2 <= 1e50
    /\ 1e-50 <= Rabs a <= 1e50 /\ 1e-50 <= Rabs b <= 1e50.
Proof.
  destruct arc as [[sx sy] [ex ey] rx ry rot la sw]. unfold moderate_arc.
  cbn [Arc.start Arc.end_ Arc.rx Arc.ry Arc.rotation Arc.largeArc Arc.sweep Point.x Point.y].
  intros ((x1 & -> & H1) & (y1 & -> & H2) & (x2 & -> & H3) & (y2 & -> & H4)
          & (a & -> & H5) & (b & -> & H6) & H7).
  apply is_finite_inv in H7 as (r & ->).
  exists x1, y1, x2, y2, a, b, r. split; [reflexivity |].
  repeat split; try assumption; lra.
Qed.

Lemma correction_in_range (arc : Arc.t) :
  moderate_arc arc ->
  num_lt (lit 1)
         (sqrtLambda_at (x1p_of arc) (y1p_of arc) (Arc.rx arc) (Arc.ry arc)) ->
  Forall (magnitude_within 0 1e301) (correction_values arc)
  /\ Forall (magnitude_within 1e-101 1e301) (correction_divisors arc).
Proof.
  intros Hm.
  destruct (moderate_arc_inv arc Hm)
    as (x1 & y1 & x2 & y2 & a & b & rot & E & Hx1 & Hy1 & Hx2 & Hy2 & Ha & Hb).
  rewrite E. generalize (Arc.largeArc arc) (Arc.sweep arc). clear E Hm. intros la sw Hl.
  assert (Ha0 : a <> 0) by (intros ->; rewrite Rabs_R0 in Ha; lra).
  assert (Hb0 : b <> 0) by (intros ->; rewrite Rabs_R0 in Hb; lra).
  assert (Ha' : Arc.rx (arc_of x1 y1 x2 y2 a b rot la sw) <> lit 0).
  { cbn [arc_of Arc.rx]. unfold lit. intros H. injection H as H. contradiction. }
  assert (Hb' : Arc.ry (arc_of x1 y1 x2 y2 a b rot la sw) <> lit 0).
  { cbn [arc_of Arc.ry]. unfold lit. intros H. injection H as H. contradiction. }
  unfold correction_values, correction_divisors. cbv zeta.
  destruct (convertArcParams_radii _ Ha' Hb') as [-> ->].
  rewrite x1p_of_fin, y1p_of_fin in Hl |- *.
  cbn [arc_of Arc.rx Arc.ry] in Hl |- *.
  rewrite sqrtLambda_at_fin in Hl by assumption.
  unfold num_lt, lit in Hl. apply ltb_fin_iff in Hl. rewrite <- sqrtLambdaR_abs in Hl.
  rewrite !abs_fin.
  set (X := x1pR (phiR rot) x1 y1 x2 y2) in *. set (Y := y1pR (phiR rot) x1 y1 x2 y2) in *.
  destruct (x1pR_bound (phiR rot) x1 y1 x2 y2 1e50 Hx1 Hy1 Hx2 Hy2) as [HX HY].
  fold X in HX. fold Y in HY.
  destruct (moderate_squares x1 y1 x2 y2 (phiR rot) Hx1 Hy1 Hx2 Hy2) as [HXX HYY].
  fold X in HXX. fold Y in HYY.
  destruct (moderate_radii_squares a b Ha Hb) as [HAA HBB].
  destruct (moderate_lambda x1 y1 x2 y2 a b (phiR rot) Hx1 Hy1 Hx2 Hy2 Ha Hb)
    as (HQ1 & HQ2 & Hlu).
  fold X in HQ1, Hlu. fold Y in HQ2, Hlu.
  destruct (moderate_corrected x1 y1 x2 y2 a b (phiR rot) Hx1 Hy1 Hx2 Hy2 Ha Hb Hl)
    as (HA & HB & HA2 & HB2).
  fold X Y in HA, HB, HA2, HB2.
  assert (HaP : 0 < Rabs a) by lra. assert (HbP : 0 < Rabs b) by lra.
  rewrite sqrtLambda_at_fin by lra.
  rewrite !corrected_fin. unfold correctedR.
  set (l := sqrtLambdaR X Y (Rabs a) (Rabs b)) in *.
  destruct (Rlt_dec 1 l) as [_ | Hn]; [| contradiction].
  assert (Hone : X * X / (l * Rabs a * (l * Rabs a)) + Y * Y / (l * Rabs b * (l * Rabs b)) = 1).
  { pose proof (sqrtLambdaR_corrected X Y a b Ha0 Hb0) as Hc.
    rewrite <- sqrtLambdaR_abs in Hc. fold l in Hc. specialize (Hc Hl).
    unfold sqrtLambdaR in Hc. apply sqrt_lem_0 in Hc; [lra | | lra].
    pose proof (sq_div_nonneg X (l * Rabs a)). pose proof (sq_div_nonneg Y (l * Rabs b)).
    assert (l * Rabs a <> 0) by lra. assert (l * Rabs b <> 0) by lra. lra. }
  assert (HP1 : 0 <= X * X / (l * Rabs a * (l * Rabs a))).
  { apply sq_div_nonneg. lra. }
  assert (HP2 : 0 <= Y * Y / (l * Rabs b * (l * Rabs b))).
  { apply sq_div_nonneg. lra. }
  rewrite !mul_fin, !div_fin, !add_fin by lra.
  split.
  - repeat constructor; try (apply magnitude_within_fin; split; [apply Rabs_pos | lra]);
      apply magnitude_within_nonneg; lra.
  - repeat constructor; apply magnitude_within_nonneg; lra.
Qed.

Lemma small_radii_arc_moderate : moderate_arc small_radii_arc.
Proof.
  unfold moderate_arc, magnitude_within, small_radii_arc, arc_of.
  cbn [Arc.start Arc.end_ Arc.rx Arc.ry Arc.rotation Point.x Point.y].
  repeat split; try (eexists; split; [reflexivity |]);
    try (unfold Rabs; destruct (Rcase_abs _); lra).
Qed.

Lemma small_radii_arc_valid : valid_arc small_radii_arc.
Proof.
  split; [exact small_radii_arc_finite |].
  unfold nonneg_radii, num_le, lit, small_radii_arc, arc_of. cbn [Arc.rx Arc.ry].
  split; apply leb_fin_iff; lra.
Qed.

Lemma scenario_arc_distinct : Arc.start scenario_arc <> Arc.end_ scenario_arc.
Proof.
  unfold scenario_arc, arc_of. cbn [Arc.start Arc.end_]. intros H.
  injection H as H1 H2. lra.
Qed.

(** On reals the corrected radii give exactly [1]. *)
Lemma radii_correction_on_reals (arc : Arc.t) :
  finite_arc arc -> Arc.rx arc <> lit 0 -> Arc.ry arc <> lit 0 ->
  num_lt (lit 1)
         (sqrtLambda_at (x1p_of arc) (y1p_of arc) (Arc.rx arc) (Arc.ry arc)) ->
  let alt := convertArcParams arc in
  within_tolerance
    (sqrtLambda_at (x1p_of arc) (y1p_of arc) (ArcAlt.rx alt) (ArcAlt.ry alt)) 1.
Proof.
  intros Hfin.
  destruct (finite_arc_inv arc Hfin) as (x1 & y1 & x2 & y2 & a & b & rot & E).
  rewrite E. generalize (Arc.largeArc arc) (Arc.sweep arc). clear E Hfin.
  intros la sw Ha Hb Hl. cbv zeta.
  destruct (convertArcParams_radii _ Ha Hb) as [-> ->].
  rewrite x1p_of_fin, y1p_of_fin in Hl |- *.
  cbn [arc_of Arc.rx Arc.ry] in Ha, Hb, Hl |- *.
  apply fin_neq_lit0 in Ha, Hb.
  rewrite sqrtLambda_at_fin in Hl by assumption.
  unfold num_lt, lit in Hl. apply ltb_fin_iff in Hl.
  rewrite !abs_fin.
  rewrite sqrtLambda_at_fin by (apply Rabs_no_R0; assumption).
  rewrite !corrected_fin, sqrtLambdaR_abs.
  unfold correctedR. destruct (Rlt_dec 1 _) as [Hgt | Hngt]; [| contradiction].
  assert (HA : 0 < Rabs a) by (apply Rabs_pos_lt; assumption).
  assert (HB : 0 < Rabs b) by (apply Rabs_pos_lt; assumption).
  rewrite sqrtLambda_at_fin by nra.
  rewrite sqrtLambdaR_corrected by assumption.
  apply within_tolerance_exact.
Qed.

(** ** Binary64: three arcs *)

Local Open Scope float_scope.

Lemma series_math_ecma : Double.ecma Double.series_math.
Proof.
  repeat split.
  intros x Hx. cbn [Double.acos Double.series_math]. unfold Double.series_acos.
  rewrite Hx. reflexivity.
Qed.

(** Endpoints [2e200] apart: [x1p * x1p] overflows, the radii returned are
    infinite, and the quotient of two infinities is NaN. *)
Lemma overflow_arc_radii (M : Double.math) :
  Double.ecma M ->
  Double.ArcAlt.rx (Double.convertArcParams M Double.overflow_arc) = infinity
  /\ Double.ArcAlt.ry (Double.convertArcParams M Double.overflow_arc) = infinity
  /\ (1 <? Double.sqrtLambda_at (Double.x1p_of M Double.overflow_arc)
                                (Double.y1p_of M Double.overflow_arc)
                                (Double.Arc.rx Double.overflow_arc)
                                (Double.Arc.ry Double.overflow_arc)) = true
  /\ Double.sqrtLambda_at (Double.x1p_of M Double.overflow_arc)
                          (Double.y1p_of M Double.overflow_arc) infinity infinity
     = nan.
Proof.
  destruct M as [s c a]. unfold Double.ecma. cbn [Double.sin Double.cos Double.acos].
  intros (Hs & Hc & _ & _).
  repeat split; vm_compute; rewrite Hs, Hc; reflexivity.
Qed.

(** From [(0, 0)] to [(1, 5)] with radii [1]: the corrected radii are
    rounded, the argument of [Math.acos] for [dtheta] is
    [-1.0000000000000002], and [dtheta] is NaN; the centre is the
    midpoint. *)
Lemma rounding_arc_converted (M : Double.math) :
  Double.ecma M ->
  Double.ArcAlt.cx (Double.convertArcParams M Double.rounding_arc) = 0.5
  /\ Double.ArcAlt.cy (Double.convertArcParams M Double.rounding_arc) = 2.5
  /\ Double.ArcAlt.dtheta (Double.convertArcParams M Double.rounding_arc) = nan.
Proof.
  destruct M as [s c a]. unfold Double.ecma. cbn [Double.sin Double.cos Double.acos].
  intros (Hs & Hc & _ & Hnan).
  repeat split; vm_compute; rewrite Hs, Hc; vm_compute; [reflexivity | reflexivity |].
  rewrite !Hnan by reflexivity. reflexivity.
Qed.

(** From [(0, 0)] to [(1, 0)] with radii [1e9]: the argument of [Math.acos]
    for [dtheta] is rounded to [1], and [dtheta] is a zero. *)
Lemma flat_arc_dtheta (M : Double.math) (sweep : bool) :
  Double.ecma M ->
  Double.ArcAlt.dtheta (Double.convertArcParams M (Double.flat_arc sweep))
  = if sweep then 0 else -0.
Proof.
  destruct M as [s c a]. unfold Double.ecma. cbn [Double.sin Double.cos Double.acos].
  intros (Hs & Hc & Ha & _).
  destruct sweep; vm_compute; rewrite Hs, Hc; vm_compute; rewrite Ha; reflexivity.
Qed.

Close Scope float_scope.

(** ** The claims *)

(** C1 (fails on the code): for an arc of the documented input domain,
    [convertArcParams] returns no NaN component.  With coincident endpoints
    and radii [1] the centre and both angles are NaN; [arcBound] has a guard
    for coincident endpoints (see [arcBound_finite_arc]), [convertArcParams]
    has none. *)
Theorem C1_coincident_endpoints_give_nan :
  valid_arc coincident_arc
  /\ convertArcParams coincident_arc
     = ArcAlt.mk (Fin 0) (Fin 1) (Fin 1) NaN NaN NaN NaN.
Proof.
  split; [exact coincident_arc_valid |].
  unfold coincident_arc. rewrite convertArcParams_coincident by lra.
  rewrite phiR_0, Rabs_R1. reflexivity.
Qed.

(** C2: for the arc from [(-1, 0)] to [(0, -1)] with radii [1], rotation [0]
    and both flags false, [convertArcParams] returns [phi = 0], [rx = 1],
    [ry = 1], [cx = -1], [cy = -1], [theta1 = pi/2], [dtheta = -pi/2], each
    within [1e-9]. *)
Theorem C2_scenario_A :
  let alt := convertArcParams scenario_arc in
  within_tolerance (ArcAlt.phi alt) 0
  /\ within_tolerance (ArcAlt.rx alt) 1
  /\ within_tolerance (ArcAlt.ry alt) 1
  /\ within_tolerance (ArcAlt.cx alt) (-1)
  /\ within_tolerance (ArcAlt.cy alt) (-1)
  /\ within_tolerance (ArcAlt.theta1 alt) (PI / 2)
  /\ within_tolerance (ArcAlt.dtheta alt) (- (PI / 2)).
Proof.
  cbv zeta. rewrite scenario_converted. cbn [ArcAlt.phi ArcAlt.rx ArcAlt.ry
    ArcAlt.cx ArcAlt.cy ArcAlt.theta1 ArcAlt.dtheta].
  repeat split; apply within_tolerance_exact.
Qed.

(** C3: for every arc with [rx = 0] or [ry = 0], [convertArcParams] returns
    exactly [theta1 = 0] and [dtheta = pi], and [(cx, cy)] is the midpoint
    [((start.x + end.x) / 2, (start.y + end.y) / 2)]. *)
Theorem C3_degenerate_radius (arc : Arc.t) :
  Arc.rx arc = lit 0 \/ Arc.ry arc = lit 0 ->
  let alt := convertArcParams arc in
  ArcAlt.theta1 alt = lit 0
  /\ ArcAlt.dtheta alt = Math.PI
  /\ ArcAlt.cx alt
     = num_div (num_add (Point.x (Arc.start arc)) (Point.x (Arc.end_ arc))) (lit 2)
  /\ ArcAlt.cy alt
     = num_div (num_add (Point.y (Arc.start arc)) (Point.y (Arc.end_ arc))) (lit 2).
Proof.
  intros H. cbv zeta. rewrite (convertArcParams_degenerate arc H).
  repeat split; reflexivity.
Qed.

Lemma C3_degenerate_radius_witness :
  (Arc.rx segment_arc = lit 0 \/ Arc.ry segment_arc = lit 0)
  /\ ArcAlt.theta1 (convertArcParams segment_arc) = lit 0
  /\ ArcAlt.dtheta (convertArcParams segment_arc) = Math.PI.
Proof.
  split; [left; reflexivity |].
  destruct (C3_degenerate_radius segment_arc (or_introl eq_refl)) as (H1 & H2 & _).
  split; assumption.
Defined.

(** C4 as stated fails: with [rx = 0] the returned [dtheta] is [pi] for both
    values of the sweep flag, so a non-negative [dtheta] stays
    non-negative. *)
Lemma C4_counterexample_zero_radius : ~ sweep_flips_sign segment_arc.
Proof.
  unfold sweep_flips_sign. cbv zeta. intros [_ H].
  rewrite (convertArcParams_degenerate segment_arc (or_introl eq_refl)) in H.
  rewrite (convertArcParams_degenerate (flip_sweep segment_arc) (or_introl eq_refl)) in H.
  cbn [ArcAlt.dtheta] in H. unfold num_le, num_lt, lit, Math.PI in H.
  pose proof PI_RGT_0 as Hpi.
  assert (H0 : num_leb (Fin 0) (Fin PI) = true) by (apply leb_fin_iff; lra).
  apply H in H0. apply ltb_fin_iff in H0. lra.
Qed.

(** C4, amended: for every arc with [rx <> 0], [ry <> 0] and distinct
    endpoints, the sweep flag decides on which side of zero the returned
    [dtheta] lies: it is never positive when [sweep] is false and never
    negative when [sweep] is true.  So flipping the flag, with all other
    fields fixed, turns a negative [dtheta] into one that is not negative
    and a positive [dtheta] into one that is not positive.  (A [dtheta] that
    is zero or NaN is on both sides; in binary64 both occur, see
    [flat_arc_dtheta] and [rounding_arc_converted].) *)
Theorem C4_sweep_decides_side (arc : Arc.t) :
  Arc.rx arc <> lit 0 -> Arc.ry arc <> lit 0 -> Arc.start arc <> Arc.end_ arc ->
  sweep_decides_side arc.
Proof.
  intros Ha Hb _.
  pose proof (proj2 (angles_in_range arc Ha Hb)) as H.
  pose proof (proj2 (angles_in_range (flip_sweep arc) Ha Hb)) as H'.
  unfold sweep_decides_side. cbv zeta.
  cbn [flip_sweep Arc.sweep] in H'.
  destruct (Arc.sweep arc); cbn [negb] in H'; unfold lit.
  - assert (N : ~ num_lt (ArcAlt.dtheta (convertArcParams arc)) (Fin 0)).
    { apply (nan_or_between_not_lt _ _ _ _ H). lra. }
    assert (N' : ~ num_lt (Fin 0) (ArcAlt.dtheta (convertArcParams (flip_sweep arc)))).
    { apply (nan_or_between_not_gt _ _ _ _ H'). lra. }
    split; [exact N |]. split; [intros Hd; contradiction | intros _; exact N'].
  - assert (N : ~ num_lt (Fin 0) (ArcAlt.dtheta (convertArcParams arc))).
    { apply (nan_or_between_not_gt _ _ _ _ H). lra. }
    assert (N' : ~ num_lt (ArcAlt.dtheta (convertArcParams (flip_sweep arc))) (Fin 0)).
    { apply (nan_or_between_not_lt _ _ _ _ H'). lra. }
    split; [exact N |]. split; [intros _; exact N' | intros Hd; contradiction].
Qed.

Lemma C4_sweep_decides_side_witness :
  Arc.start scenario_arc <> Arc.end_ scenario_arc /\ sweep_decides_side scenario_arc.
Proof.
  split; [exact scenario_arc_distinct |].
  exact (C4_sweep_decides_side scenario_arc fin_one_neq_zero fin_one_neq_zero
           scenario_arc_distinct).
Defined.

(** C5 as stated fails in binary64: for the arc from [(-1e200, 0)] to
    [(1e200, 0)] with radii [1] the radii are too small, [x1p * x1p]
    overflows, the radii returned are infinite and
    [sqrt(x1p^2/rx'^2 + y1p^2/ry'^2)] is NaN, not [1] within tolerance,
    whatever the implementation of [Math.sin], [Math.cos] and
    [Math.acos]. *)
Lemma C5_counterexample_overflow :
  ~ exists M, Double.ecma M /\ Double.radii_correction_holds M Double.overflow_arc.
Proof.
  intros (M & HM & H).
  destruct (overflow_arc_radii M HM) as (Hx & Hy & Hl & Hn).
  unfold Double.radii_correction_holds in H. rewrite Hx, Hy, Hn in H.
  specialize (H eq_refl eq_refl Hl). vm_compute in H. discriminate H.
Qed.

(** C5, amended: for every arc whose coordinates have a magnitude of at most
    [1e50] and whose radii have a magnitude between [1e-50] and [1e50], with
    radii too small to connect the endpoints
    ([sqrt(x1p^2/rx^2 + y1p^2/ry^2) > 1]), the returned radii [rx'], [ry']
    satisfy [sqrt(x1p^2/rx'^2 + y1p^2/ry'^2) = 1] within [1e-9]; and every
    square, quotient and sum of that computation is a number of a magnitude
    of at most [1e301], every divisor of a magnitude of at least [1e-101]:
    far from the overflow and the underflow of binary64.  (On reals the
    value is exactly [1], see [radii_correction_on_reals].) *)
Theorem C5_radius_correction_moderate (arc : Arc.t) :
  moderate_arc arc ->
  num_lt (lit 1)
         (sqrtLambda_at (x1p_of arc) (y1p_of arc) (Arc.rx arc) (Arc.ry arc)) ->
  let alt := convertArcParams arc in
  within_tolerance
    (sqrtLambda_at (x1p_of arc) (y1p_of arc) (ArcAlt.rx alt) (ArcAlt.ry alt)) 1
  /\ Forall (magnitude_within 0 1e301) (correction_values arc)
  /\ Forall (magnitude_within 1e-101 1e301) (correction_divisors arc).
Proof.
  intros Hm Hl. destruct (moderate_arc_finite arc Hm) as (Hfin & Ha & Hb).
  split; [exact (radii_correction_on_reals arc Hfin Ha Hb Hl) |].
  exact (correction_in_range arc Hm Hl).
Qed.

Lemma C5_radius_correction_moderate_witness :
  moderate_arc small_radii_arc
  /\ within_tolerance
       (sqrtLambda_at (x1p_of small_radii_arc) (y1p_of small_radii_arc)
          (ArcAlt.rx (convertArcParams small_radii_arc))
          (ArcAlt.ry (convertArcParams small_radii_arc))) 1.
Proof.
  split; [exact small_radii_arc_moderate |].
  exact (proj1 (C5_radius_correction_moderate small_radii_arc small_radii_arc_moderate
                  small_radii_arc_too_small)).
Defined.

(** C6: for every arc with [rx = 0], or [ry = 0], or start equal to end,
    [arcBound] returns exactly the bounding box of the two endpoints:
    [left = min(start.x, end.x)], [right = max(start.x, end.x)],
    [top = min(start.y, end.y)], [bottom = max(start.y, end.y)]. *)
Theorem C6_degenerate_bound (arc : Arc.t) :
  Arc.rx arc = lit 0 \/ Arc.ry arc = lit 0
  \/ (Arc.start arc = Arc.end_ arc
      /\ is_number (Point.x (Arc.start arc)) /\ is_number (Point.y (Arc.start arc))) ->
  arcBound arc
  = Rect.mk (Math.min [Point.x (Arc.start arc); Point.x (Arc.end_ arc)])
            (Math.max [Point.x (Arc.start arc); Point.x (Arc.end_ arc)])
            (Math.min [Point.y (Arc.start arc); Point.y (Arc.end_ arc)])
            (Math.max [Point.y (Arc.start arc); Point.y (Arc.end_ arc)]).
Proof.
  intros H. apply arcBound_degenerate_eq.
  destruct H as [H | [H | (H & Hx & Hy)]].
  - rewrite (degenerate_guard arc (or_introl H)). reflexivity.
  - rewrite (degenerate_guard arc (or_intror H)). reflexivity.
  - rewrite <- H, (eqb_refl_number _ Hx), (eqb_refl_number _ Hy). apply orb_true_r.
Qed.

Lemma C6_degenerate_bound_witness :
  Arc.start coincident_arc = Arc.end_ coincident_arc
  /\ arcBound coincident_arc
     = Rect.mk (Math.min [Fin 0; Fin 0]) (Math.max [Fin 0; Fin 0])
               (Math.min [Fin 0; Fin 0]) (Math.max [Fin 0; Fin 0]).
Proof.
  split; [reflexivity |].
  apply (C6_degenerate_bound coincident_arc).
  right; right. repeat split; discriminate.
Defined.

(** C7: for the arc of scenario A, [arcBound] returns [left = -1],
    [right = 0], [top = -1], [bottom = 0] (within tolerance): the extrema of
    the quarter arc are its endpoints. *)
Theorem C7_scenario_B :
  let r := arcBound scenario_arc in
  within_tolerance (Rect.left r) (-1)
  /\ within_tolerance (Rect.right r) 0
  /\ within_tolerance (Rect.top r) (-1)
  /\ within_tolerance (Rect.bottom r) 0.
Proof.
  cbv zeta. rewrite scenario_bound. cbn [Rect.left Rect.right Rect.top Rect.bottom].
  repeat split; apply within_tolerance_exact.
Qed.

(** C8: for every valid arc (finite coordinates, non-negative radii), the
    rectangle returned by [arcBound] contains both endpoints:
    [left <= start.x <= right], [left <= end.x <= right],
    [top <= start.y <= bottom] and [top <= end.y <= bottom]. *)
Theorem C8_bound_contains_endpoints (arc : Arc.t) :
  valid_arc arc ->
  contains (arcBound arc) (Arc.start arc) /\ contains (arcBound arc) (Arc.end_ arc).
Proof.
  intros [Hfin _]. destruct (arcBound_finite_arc arc Hfin) as (H1 & H2 & _).
  split; assumption.
Qed.

Lemma C8_bound_contains_endpoints_witness :
  valid_arc small_radii_arc
  /\ contains (arcBound small_radii_arc) (Arc.start small_radii_arc)
  /\ contains (arcBound small_radii_arc) (Arc.end_ small_radii_arc).
Proof.
  split; [exact small_radii_arc_valid |].
  exact (C8_bound_contains_endpoints small_radii_arc small_radii_arc_valid).
Defined.

(** C9 (fails on the code): the returned [dtheta] lies in [(-2 pi, 2 pi)]
    and is not zero.  With coincident endpoints and radii [1] it is NaN,
    which is in no interval. *)
Theorem C9_coincident_endpoints_dtheta :
  ArcAlt.dtheta (convertArcParams coincident_arc) = NaN
  /\ ~ dtheta_in_range (ArcAlt.dtheta (convertArcParams coincident_arc)).
Proof.
  assert (H : ArcAlt.dtheta (convertArcParams coincident_arc) = NaN).
  { unfold coincident_arc. rewrite convertArcParams_coincident by lra. reflexivity. }
  split; [exact H |]. rewrite H. intros (_ & Hlt & _). discriminate Hlt.
Qed.

(** C10: for every arc with [rx <> 0] and [ry <> 0], the returned radii are
    at least the absolute values of the input radii: returned
    [rx >= |rx|] and returned [ry >= |ry|]. *)
Theorem C10_radii_never_shrink (arc : Arc.t) :
  is_number (Arc.rx arc) -> is_number (Arc.ry arc) ->
  Arc.rx arc <> lit 0 -> Arc.ry arc <> lit 0 ->
  num_le (Math.abs (Arc.rx arc)) (ArcAlt.rx (convertArcParams arc))
  /\ num_le (Math.abs (Arc.ry arc)) (ArcAlt.ry (convertArcParams arc)).
Proof.
  intros Hna Hnb Ha Hb.
  destruct (convertArcParams_radii arc Ha Hb) as [-> ->].
  split; apply corrected_ge; assumption.
Qed.

Lemma C10_radii_never_shrink_witness :
  Arc.rx small_radii_arc <> lit 0
  /\ num_le (Math.abs (Arc.rx small_radii_arc))
            (ArcAlt.rx (convertArcParams small_radii_arc))
  /\ num_le (Math.abs (Arc.ry small_radii_arc))
            (ArcAlt.ry (convertArcParams small_radii_arc)).
Proof.
  split; [exact fin_one_neq_zero |].
  apply (C10_radii_never_shrink small_radii_arc);
    try exact fin_one_neq_zero; discriminate.
Defined.

(** * Further properties

    Properties of the same functions beyond the claims, and of the rest of
    the code: [norm] and [angle], [cartesianProduct] and the arcs of the
    page; and what [convertArcParams] returns in binary64 where rounding
    decides. *)

(** ** The angle of two vectors exchanged, on reals *)

Lemma angleR_swap (ux uy vx vy : R) :
  ux * vy - uy * vx <> 0 ->
  angleR vx vy ux uy = - angleR ux uy vx vy.
Proof.
  intros Hc. unfold angleR.
  replace (vx * ux + vy * uy) with (ux * vx + uy * vy) by ring.
  replace (sqrt (vx * vx + vy * vy) * sqrt (ux * ux + uy * uy))
    with (sqrt (ux * ux + uy * uy) * sqrt (vx * vx + vy * vy)) by ring.
  destruct (Rlt_dec (vx * uy - vy * ux) 0), (Rlt_dec (ux * vy - uy * vx) 0); lra.
Qed.

(** ** The corrected radii: [vec1] and [vec2] are unit vectors *)

Lemma sq_div (X A : R) : A <> 0 -> X / A * (X / A) = X * X / (A * A).
Proof. intros HA. field. assumption. Qed.

Lemma corrected_lambda_le_1 (X Y a b : R) :
  a <> 0 -> b <> 0 ->
  let l := sqrtLambdaR X Y (Rabs a) (Rabs b) in
  X / correctedR l (Rabs a) * (X / correctedR l (Rabs a))
  + Y / correctedR l (Rabs b) * (Y / correctedR l (Rabs b)) <= 1.
Proof.
  intros Ha Hb l.
  assert (HA : 0 < Rabs a) by (apply Rabs_pos_lt; assumption).
  assert (HB : 0 < Rabs b) by (apply Rabs_pos_lt; assumption).
  assert (HL : 0 <= X * X / (Rabs a * Rabs a) + Y * Y / (Rabs b * Rabs b)).
  { pose proof (sq_div_nonneg X (Rabs a)). pose proof (sq_div_nonneg Y (Rabs b)). lra. }
  pose proof (sqrt_sqrt _ HL) as Hsq. fold (sqrtLambdaR X Y (Rabs a) (Rabs b)) in Hsq.
  fold l in Hsq.
  assert (Hl0 : 0 <= l) by apply sqrt_pos.
  unfold correctedR. destruct (Rlt_dec 1 l) as [Hgt | Hle].
  - rewrite !sq_div by nra.
    pose proof (sqrtLambdaR_corrected X Y a b Ha Hb) as Hc.
    rewrite <- sqrtLambdaR_abs in Hc. fold l in Hc. specialize (Hc Hgt).
    unfold sqrtLambdaR in Hc.
    apply sqrt_lem_0 in Hc; [lra | | lra].
    pose proof (sq_div_nonneg X (l * Rabs a)). pose proof (sq_div_nonneg Y (l * Rabs b)).
    assert (l * Rabs a <> 0) by nra. assert (l * Rabs b <> 0) by nra. lra.
  - rewrite !sq_div by lra. nra.
Qed.

Lemma cFactorR_sq (A B X Y : R) (la sw : bool) :
  0 < A -> 0 < B -> X * X + Y * Y <> 0 ->
  X / A * (X / A) + Y / B * (Y / B) <= 1 ->
  cFactorR A B X Y la sw * cFactorR A B X Y la sw
  * (X / A * (X / A) + Y / B * (Y / B))
  = 1 - (X / A * (X / A) + Y / B * (Y / B)).
Proof.
  intros HA HB HXY HW. pose proof (uv_pos A B X Y HA HB HXY) as HW0.
  set (W := X / A * (X / A) + Y / B * (Y / B)) in *.
  assert (HAB : 0 < A * A * (B * B)).
  { apply Rmult_lt_0_compat; apply Rmult_lt_0_compat; assumption. }
  assert (Hnum : A * A * (B * B) - A * A * (Y * Y) - B * B * (X * X)
                 = A * A * (B * B) * (1 - W)).
  { unfold W. field. lra. }
  assert (Hden : A * A * (Y * Y) + B * B * (X * X) = A * A * (B * B) * W).
  { unfold W. field. lra. }
  unfold cFactorR. rewrite Hnum, Hden.
  rewrite Rmax_right by (apply Rmult_le_pos; lra).
  assert (HQ : A * A * (B * B) * (1 - W) / (A * A * (B * B) * W) = (1 - W) / W).
  { field. lra. }
  rewrite HQ.
  assert (HQ0 : 0 <= (1 - W) / W).
  { apply Rmult_le_pos; [lra |]. apply Rlt_le, Rinv_0_lt_compat. assumption. }
  replace (sqrt ((1 - W) / W) * flag_sign la sw * (sqrt ((1 - W) / W) * flag_sign la sw) * W)
    with (sqrt ((1 - W) / W) * sqrt ((1 - W) / W) * (flag_sign la sw * flag_sign la sw) * W)
    by ring.
  rewrite sqrt_sqrt by assumption.
  replace (flag_sign la sw * flag_sign la sw) with 1
    by (unfold flag_sign; destruct (Bool.eqb la sw); ring).
  field. lra.
Qed.

(** The vectors [vec1] and [vec2] of a proper arc. *)
Section ProperArc.

Variables x1 y1 x2 y2 a b rot : R.
Variables la sw : bool.
Hypothesis Ha : a <> 0.
Hypothesis Hb : b <> 0.
Hypothesis Hne : x1 <> x2 \/ y1 <> y2.

Local Abbreviation p := (phiR rot).
Local Abbreviation X := (x1pR (phiR rot) x1 y1 x2 y2).
Local Abbreviation Y := (y1pR (phiR rot) x1 y1 x2 y2).
Local Abbreviation l := (sqrtLambdaR X Y (Rabs a) (Rabs b)).
Local Abbreviation A := (correctedR l (Rabs a)).
Local Abbreviation B := (correctedR l (Rabs b)).
Local Abbreviation c := (cFactorR A B X Y la sw).
Local Abbreviation v1x := ((X - cxpR c A B Y) / A).
Local Abbreviation v1y := ((Y - cypR c A B X) / B).
Local Abbreviation v2x := ((- X - cxpR c A B Y) / A).
Local Abbreviation v2y := ((- Y - cypR c A B X) / B).

Lemma proper_A_pos : 0 < A.
Proof. apply correctedR_pos, Rabs_pos_lt, Ha. Qed.

Lemma proper_B_pos : 0 < B.
Proof. apply correctedR_pos, Rabs_pos_lt, Hb. Qed.

Lemma proper_XY : X * X + Y * Y <> 0.
Proof. apply x1p_y1p_nonzero, Hne. Qed.

Lemma proper_W_bounds :
  0 < X / A * (X / A) + Y / B * (Y / B) <= 1.
Proof.
  split.
  - apply uv_pos; [apply proper_A_pos | apply proper_B_pos | apply proper_XY].
  - apply corrected_lambda_le_1; assumption.
Qed.

Lemma proper_unit :
  (1 + c * c) * (X / A * (X / A) + Y / B * (Y / B)) = 1.
Proof.
  pose proof (cFactorR_sq A B X Y la sw proper_A_pos proper_B_pos proper_XY
                (proj2 proper_W_bounds)) as H.
  lra.
Qed.

Lemma vec1_unit : v1x * v1x + v1y * v1y = 1.
Proof.
  rewrite (vec1_norm2 A B X Y c proper_A_pos proper_B_pos). apply proper_unit.
Qed.

Lemma vec2_unit : v2x * v2x + v2y * v2y = 1.
Proof.
  rewrite (vec2_norm2 A B X Y c proper_A_pos proper_B_pos). apply proper_unit.
Qed.

End ProperArc.

Lemma proper_arc_inv (arc : Arc.t) :
  proper_arc arc ->
  exists x1 y1 x2 y2 a b rot,
    arc = arc_of x1 y1 x2 y2 a b rot (Arc.largeArc arc) (Arc.sweep arc)
    /\ a <> 0 /\ b <> 0 /\ (x1 <> x2 \/ y1 <> y2).
Proof.
  intros (Hfin & Ha & Hb & Hne).
  destruct (finite_arc_inv arc Hfin) as (x1 & y1 & x2 & y2 & a & b & rot & E).
  exists x1, y1, x2, y2, a, b, rot. split; [exact E |].
  rewrite E in Ha, Hb, Hne. unfold arc_of in Ha, Hb, Hne. simpl in Ha, Hb, Hne.
  repeat split.
  - apply fin_neq_lit0, Ha.
  - apply fin_neq_lit0, Hb.
  - destruct (Req_dec_T x1 x2) as [Hx | Hx]; [| now left].
    destruct (Req_dec_T y1 y2) as [Hy | Hy]; [| now right].
    exfalso. apply Hne. now rewrite Hx, Hy.
Qed.

Lemma scenario_arc_proper : proper_arc scenario_arc.
Proof.
  split; [exact scenario_arc_finite |].
  repeat split; try exact fin_one_neq_zero.
  unfold scenario_arc, arc_of. simpl. intros H. injection H as H1 H2. lra.
Qed.

(** ** The rotation *)

Lemma Rtrunc_bounds (x : R) :
  (0 <= x -> 0 <= x - IZR (Rtrunc x) < 1)
  /\ (x <= 0 -> -1 < x - IZR (Rtrunc x) <= 0).
Proof.
  unfold Rtrunc. split; intros Hx.
  - destruct (Rle_dec 0 x); [| contradiction].
    pose proof (Zfloor_bound x). lra.
  - destruct (Rle_dec 0 x) as [H0 | H0].
    + assert (E : x = 0) by lra. subst x.
      rewrite (Zfloor_eq 0 0) by (simpl; lra). simpl. lra.
    + rewrite opp_IZR. pose proof (Zfloor_bound (- x)). lra.
Qed.

Lemma phiR_reduced (rot : R) :
  phiR rot = rot / 180 * PI - IZR (Rtrunc (rot / 180)) * PI.
Proof. unfold phiR. field. Qed.

Lemma phiR_range (rot : R) :
  - PI < phiR rot < PI
  /\ (0 <= rot -> 0 <= phiR rot)
  /\ (rot <= 0 -> phiR rot <= 0).
Proof.
  rewrite phiR_reduced. pose proof PI_RGT_0 as Hpi.
  destruct (Rtrunc_bounds (rot / 180)) as [Hpos Hneg].
  set (q := rot / 180) in *. set (k := IZR (Rtrunc q)) in *.
  replace (q * PI - k * PI) with ((q - k) * PI) by ring.
  destruct (Rle_dec 0 rot) as [H0 | H0]; [destruct (Rle_dec rot 0) as [H1 | H1] |].
  - assert (Eq : q = 0) by (unfold q; lra).
    assert (Ek : k = 0) by (unfold k; rewrite Eq, Rtrunc_0; reflexivity).
    rewrite Eq, Ek. repeat split; intros; lra.
  - assert (Hq : 0 <= q) by (unfold q; lra). specialize (Hpos Hq).
    repeat split; intros; try lra; nra.
  - assert (Hq : q <= 0) by (unfold q; lra). specialize (Hneg Hq).
    repeat split; intros; try lra; nra.
Qed.

Lemma phi_of_rotation (arc : Arc.t) (rot : R) :
  Arc.rotation arc = Fin rot -> phi_of arc = Fin (phiR rot).
Proof.
  intros H. unfold phi_of, lit, Math.PI, phiR. rewrite H.
  unfold num_rem. destruct (Req_dec_T 180 0) as [E | E]; [lra |].
  rewrite div_fin by lra. reflexivity.
Qed.

Lemma convertArcParams_phi (arc : Arc.t) :
  ArcAlt.phi (convertArcParams arc) = phi_of arc.
Proof.
  rewrite convertArcParams_eq. cbv zeta.
  destruct (num_eqb (Arc.rx arc) (lit 0) || num_eqb (Arc.ry arc) (lit 0))%bool;
    reflexivity.
Qed.

(** ** [norm] and [angle] on finite vectors *)

Lemma div_fin_zero (x y : R) : x = 0 -> y = 0 -> num_div (Fin x) (Fin y) = NaN.
Proof.
  intros -> ->. unfold num_div.
  destruct (Req_dec_T 0 0) as [_ | H]; [apply inf_times_zero | lra].
Qed.

Lemma angle_zero_vector (ux uy vx vy : R) :
  ux * ux + uy * uy = 0 \/ vx * vx + vy * vy = 0 ->
  angle (Vector.mk (Fin ux) (Fin uy)) (Vector.mk (Fin vx) (Fin vy)) = NaN.
Proof.
  intros H. unfold angle. rewrite !norm_fin. cbn [Vector.x Vector.y].
  rewrite !mul_fin, add_fin.
  rewrite div_fin_zero.
  - cbn [Math.acos]. apply nan_mul_r.
  - destruct H as [H | H].
    + assert (ux = 0) by nra. assert (uy = 0) by nra. subst. ring.
    + assert (vx = 0) by nra. assert (vy = 0) by nra. subst. ring.
  - destruct H as [H | H]; rewrite H, sqrt_0; ring.
Qed.

(** ** [cartesianProduct] *)

Local Open Scope nat_scope.

Section CartesianProduct.

Context {A : Type}.
Implicit Types (a b : list (value A)) (bc : list (list (value A))).

Lemma f_length a b : length (Utils.f a b) = length a * length b.
Proof.
  unfold Utils.f. induction a as [| a2 a IH]; simpl.
  - reflexivity.
  - rewrite length_app, length_map, IH. reflexivity.
Qed.

Lemma f_spread a a' b :
  map Utils.spread a = map Utils.spread a' -> Utils.f a b = Utils.f a' b.
Proof.
  unfold Utils.f, Utils.concat2. revert a'.
  induction a as [| a2 a IH]; intros [| a2' a'] H; try discriminate H.
  - reflexivity.
  - simpl in H. injection H as H2 H. simpl. rewrite H2. f_equal. apply IH, H.
Qed.

Lemma cartesianProduct_cons a b c :
  nonempty b ->
  Utils.cartesianProduct a (b :: c) = Utils.cartesianProduct (Utils.f a b) c.
Proof. intros Hb. destruct b; [contradiction Hb; reflexivity | reflexivity]. Qed.

Lemma cartesianProduct_length a bc :
  Forall nonempty bc ->
  length (Utils.cartesianProduct a bc)
  = length a * fold_right (fun b n => length b * n) 1 bc.
Proof.
  intros H. revert a. induction H as [| b c Hb Hc IH]; intros a.
  - simpl. rewrite Nat.mul_1_r. reflexivity.
  - rewrite cartesianProduct_cons by assumption.
    rewrite IH, f_length. simpl. rewrite Nat.mul_assoc. reflexivity.
Qed.

Lemma cartesianProduct_empty_factor a bs cs :
  Forall nonempty bs ->
  Utils.cartesianProduct a (bs ++ [] :: cs) = Utils.cartesianProduct a bs.
Proof.
  intros H. revert a. induction H as [| b c Hb Hc IH]; intros a.
  - reflexivity.
  - simpl app. rewrite !cartesianProduct_cons by assumption. apply IH.
Qed.

Lemma f_tuples (ts : list (list A)) (b : list A) :
  Utils.f (map tuple_value ts) (map Atom b)
  = map tuple_value (flat_map (fun t => map (fun y => t ++ [y]) b) ts).
Proof.
  unfold Utils.f. induction ts as [| t ts IH]; simpl.
  - reflexivity.
  - rewrite map_app, IH. f_equal.
    rewrite !map_map. apply map_ext. intros y.
    unfold Utils.concat2, tuple_value. simpl. rewrite map_app. reflexivity.
Qed.

Lemma flat_map_flat_map {B C D : Type} (g : B -> list C) (h : C -> list D) (l : list B) :
  flat_map h (flat_map g l) = flat_map (fun x => flat_map h (g x)) l.
Proof.
  induction l as [| x l IH]; simpl.
  - reflexivity.
  - rewrite flat_map_app, IH. reflexivity.
Qed.

Lemma flat_map_map {B C D : Type} (g : B -> C) (h : C -> list D) (l : list B) :
  flat_map h (map g l) = flat_map (fun x => h (g x)) l.
Proof. induction l as [| x l IH]; simpl; [reflexivity | now rewrite IH]. Qed.

Lemma map_flat_map {B C D : Type} (g : C -> D) (h : B -> list C) (l : list B) :
  map g (flat_map h l) = flat_map (fun x => map g (h x)) l.
Proof.
  induction l as [| x l IH]; simpl; [reflexivity |].
  rewrite map_app, IH. reflexivity.
Qed.

Lemma cartesianProduct_extends (ts : list (list A)) (bs : list (list A)) :
  Forall nonempty bs ->
  Utils.cartesianProduct (map tuple_value ts) (map (map Atom) bs)
  = map tuple_value (flat_map (fun t => map (app t) (tuples bs)) ts).
Proof.
  intros H. revert ts. induction H as [| b bs Hb Hbs IH]; intros ts.
  - simpl. f_equal. induction ts as [| t ts IHts]; simpl; [reflexivity |].
    rewrite app_nil_r, <- IHts. reflexivity.
  - change (map (map (@Atom A)) (b :: bs))
      with (map (@Atom A) b :: map (map (@Atom A)) bs).
    rewrite cartesianProduct_cons.
    + rewrite f_tuples, IH, flat_map_flat_map. f_equal.
      apply flat_map_ext. intros t. simpl tuples.
      rewrite flat_map_map, map_flat_map.
      apply flat_map_ext. intros y. rewrite map_map. apply map_ext. intros s.
      rewrite <- app_assoc. reflexivity.
    + unfold nonempty in *. destruct b; [contradiction Hb; reflexivity | discriminate].
Qed.

Lemma cartesianProduct_tuples (a0 b : list A) (bs : list (list A)) :
  Forall nonempty (b :: bs) ->
  Utils.cartesianProduct (map Atom a0) (map (map Atom) (b :: bs))
  = map tuple_value (tuples (a0 :: b :: bs)).
Proof.
  intros H. pose proof (cartesianProduct_extends (map (fun x => [x]) a0) (b :: bs) H) as E.
  assert (Hb : nonempty (map (@Atom A) b)).
  { inversion H as [| ? ? Hb _]; subst. unfold nonempty in *.
    destruct b; [contradiction Hb; reflexivity | discriminate]. }
  change (map (map (@Atom A)) (b :: bs))
    with (map (@Atom A) b :: map (map (@Atom A)) bs) in *.
  rewrite cartesianProduct_cons in E |- * by assumption.
  rewrite (f_spread (map Atom a0) (map tuple_value (map (fun x => [x]) a0))).
  - rewrite E. f_equal. rewrite flat_map_map. reflexivity.
  - rewrite !map_map. apply map_ext. intros x. reflexivity.
Qed.

Lemma tuples_in (ls : list (list A)) (t : list A) :
  In t (tuples ls) <-> Forall2 (fun x l => In x l) t ls.
Proof.
  revert t. induction ls as [| l ls IH]; intros t; simpl.
  - split.
    + intros [<- | []]. constructor.
    + intros H. inversion H. now left.
  - rewrite in_flat_map. split.
    + intros (x & Hx & Ht). apply in_map_iff in Ht as (s & <- & Hs).
      constructor; [assumption | now apply IH].
    + intros H. inversion H as [| x s ? ? Hx Hs]; subst.
      exists x. split; [assumption |]. apply in_map, IH, Hs.
Qed.

End CartesianProduct.

Close Scope nat_scope.

(** ** An arc that runs past the last candidate angle *)

Lemma sqrt3_sq : sqrt 3 * sqrt 3 = 3.
Proof. apply sqrt_sqrt. lra. Qed.

Lemma sqrt3_bounds : 1 < sqrt 3 < 2.
Proof.
  pose proof sqrt3_sq as H. pose proof (sqrt_pos 3) as H0. split; nra.
Qed.

Lemma acos_sqrt3_2 : acos (sqrt 3 / 2) = PI / 6.
Proof.
  rewrite <- cos_PI6. apply acos_cos. pose proof PI_RGT_0. lra.
Qed.

Lemma phiR_90 : phiR 90 = PI / 2.
Proof.
  unfold phiR. replace (90 / 180) with (1 / 2) by lra.
  assert (E : Rtrunc (1 / 2) = 0%Z).
  { unfold Rtrunc. destruct (Rle_dec 0 (1 / 2)); [| lra].
    apply Zfloor_eq. simpl. lra. }
  rewrite E. simpl. field.
Qed.

Lemma late_extremum_converted :
  convertArcParams late_extremum_arc
  = ArcAlt.mk (Fin (PI / 2)) (Fin 1) (Fin 1) (Fin (sqrt 3 / 2)) (Fin (1 / 2))
              (Fin (5 * PI / 6)) (Fin (11 * PI / 6)).
Proof.
  pose proof sqrt3_sq as H3. pose proof sqrt3_bounds as Hb3. pose proof PI_RGT_0 as Hpi.
  unfold late_extremum_arc.
  rewrite convertArcParams_fin; [| lra | lra | left; lra].
  unfold convertR. cbv zeta. rewrite phiR_90.
  set (s3 := sqrt 3) in *.
  assert (HX : x1pR (PI / 2) ((s3 - 1) / 2) (- ((s3 - 1) / 2)) 0 0 = (1 - s3) / 4).
  { unfold x1pR. rewrite sin_PI2, cos_PI2. field. }
  assert (HY : y1pR (PI / 2) ((s3 - 1) / 2) (- ((s3 - 1) / 2)) 0 0 = (1 - s3) / 4).
  { unfold y1pR. rewrite sin_PI2, cos_PI2. field. }
  rewrite HX, HY, Rabs_R1.
  assert (Hl : sqrtLambdaR ((1 - s3) / 4) ((1 - s3) / 4) 1 1 <= 1).
  { unfold sqrtLambdaR. apply Rle_trans with (sqrt 1); [| rewrite sqrt_1; lra].
    apply sqrt_le_1_alt. nra. }
  rewrite !correctedR_small by exact Hl.
  unfold centre_formR. cbv zeta.
  assert (Hc : cFactorR 1 1 ((1 - s3) / 4) ((1 - s3) / 4) true true = - (2 + s3)).
  { unfold cFactorR, flag_sign. cbn [Bool.eqb].
    assert (HN : 1 * 1 * (1 * 1) - 1 * 1 * ((1 - s3) / 4 * ((1 - s3) / 4))
                 - 1 * 1 * ((1 - s3) / 4 * ((1 - s3) / 4)) = (2 + s3) / 4) by nra.
    assert (HD : 1 * 1 * ((1 - s3) / 4 * ((1 - s3) / 4))
                 + 1 * 1 * ((1 - s3) / 4 * ((1 - s3) / 4)) = (2 - s3) / 4) by nra.
    rewrite HN, HD, Rmax_right by lra.
    assert (HQ : (2 + s3) / 4 / ((2 - s3) / 4) = (2 + s3) * (2 + s3)).
    { apply Rmult_eq_reg_r with ((2 - s3) / 4); [| lra].
      unfold Rdiv at 1. rewrite Rmult_assoc, Rinv_l by lra. nra. }
    rewrite HQ, sqrt_square by lra. ring. }
  rewrite Hc.
  assert (Hcx : cxpR (- (2 + s3)) 1 1 ((1 - s3) / 4) = (s3 + 1) / 4) by (unfold cxpR; nra).
  assert (Hcy : cypR (- (2 + s3)) 1 1 ((1 - s3) / 4) = - ((s3 + 1) / 4)) by (unfold cypR; nra).
  rewrite Hcx, Hcy, sin_PI2, cos_PI2.
  replace (((1 - s3) / 4 - (s3 + 1) / 4) / 1) with (- (s3 / 2)) by field.
  replace (((1 - s3) / 4 - - ((s3 + 1) / 4)) / 1) with (1 / 2) by field.
  replace ((- ((1 - s3) / 4) - (s3 + 1) / 4) / 1) with (- (1 / 2)) by field.
  replace ((- ((1 - s3) / 4) - - ((s3 + 1) / 4)) / 1) with (s3 / 2) by field.
  assert (Hn1 : sqrt (- (s3 / 2) * - (s3 / 2) + 1 / 2 * (1 / 2)) = 1).
  { replace (- (s3 / 2) * - (s3 / 2) + 1 / 2 * (1 / 2)) with 1 by nra. apply sqrt_1. }
  assert (Hn2 : sqrt (- (1 / 2) * - (1 / 2) + s3 / 2 * (s3 / 2)) = 1).
  { replace (- (1 / 2) * - (1 / 2) + s3 / 2 * (s3 / 2)) with 1 by nra. apply sqrt_1. }
  assert (Ht : angleR 1 0 (- (s3 / 2)) (1 / 2) = 5 * PI / 6).
  { unfold angleR. rewrite Hn1.
    destruct (Rlt_dec (1 * (1 / 2) - 0 * - (s3 / 2)) 0); [lra |].
    replace (1 * 1 + 0 * 0) with 1 by ring. rewrite sqrt_1.
    replace ((1 * - (s3 / 2) + 0 * (1 / 2)) / (1 * 1)) with (- (s3 / 2)) by field.
    rewrite acos_opp. unfold s3. rewrite acos_sqrt3_2. field. }
  assert (Hd : angleR (- (s3 / 2)) (1 / 2) (- (1 / 2)) (s3 / 2) = - (PI / 6)).
  { unfold angleR. rewrite Hn1, Hn2.
    destruct (Rlt_dec (- (s3 / 2) * (s3 / 2) - 1 / 2 * - (1 / 2)) 0); [| nra].
    replace ((- (s3 / 2) * - (1 / 2) + 1 / 2 * (s3 / 2)) / (1 * 1)) with (s3 / 2) by field.
    unfold s3. rewrite acos_sqrt3_2. ring. }
  rewrite Ht, Hd.
  assert (Hs : sweep_adjustR true (- (PI / 6)) = 11 * PI / 6).
  { unfold sweep_adjustR. destruct (Rlt_dec (- (PI / 6)) 0); [field | lra]. }
  rewrite Hs. f_equal; f_equal; field.
Qed.

Lemma inside_true (r : R) :
  0 < r < 1 -> (num_gtb (Fin r) (lit 0) && num_ltb (Fin r) (lit 1))%bool = true.
Proof.
  intros [H0 H1]. unfold num_gtb, lit.
  rewrite (ltb_fin_true 0 r H0), (ltb_fin_true r 1 H1). reflexivity.
Qed.

Lemma inside_false (r : R) :
  ~ 0 < r < 1 -> (num_gtb (Fin r) (lit 0) && num_ltb (Fin r) (lit 1))%bool = false.
Proof.
  intros H. apply not_true_is_false. intros E. apply andb_prop in E as [H0 H1].
  unfold num_gtb, lit in H0. apply ltb_fin_iff in H0. unfold lit in H1.
  apply ltb_fin_iff in H1. tauto.
Qed.

(** One turn of the loop, deciding the two tests on reals. *)
Lemma arcBound_step_eval (alt : ArcAlt.t) (tx ty o t1 dt : R) (xs ys : list number)
    (bx byy : bool) :
  ArcAlt.theta1 alt = Fin t1 -> ArcAlt.dtheta alt = Fin dt -> dt <> 0 ->
  (if bx then 0 < (tx + o - t1) / dt < 1 else ~ 0 < (tx + o - t1) / dt < 1) ->
  (if byy then 0 < (ty + o - t1) / dt < 1 else ~ 0 < (ty + o - t1) / dt < 1) ->
  arcBound_step alt (Fin tx) (Fin ty) (xs, ys) (Fin o)
  = (if bx then xs ++ [point_x alt (Fin (tx + o))] else xs,
     if byy then ys ++ [point_y alt (Fin (ty + o))] else ys).
Proof.
  intros Ht1 Hdt Hnz HX HY.
  unfold arcBound_step, point_x, point_y. cbv zeta. rewrite Ht1, Hdt.
  rewrite !add_fin, !sub_fin, !div_fin by assumption. cbn [fst snd].
  destruct bx, byy;
    rewrite ?(inside_true _ HX), ?(inside_false _ HX),
      ?(inside_true _ HY), ?(inside_false _ HY); reflexivity.
Qed.

Lemma late_extremum_guard :
  (num_eqb (Arc.rx late_extremum_arc) (lit 0)
   || num_eqb (Arc.ry late_extremum_arc) (lit 0)
   || (num_eqb (Point.x (Arc.start late_extremum_arc))
               (Point.x (Arc.end_ late_extremum_arc))
       && num_eqb (Point.y (Arc.start late_extremum_arc))
                  (Point.y (Arc.end_ late_extremum_arc))))%bool = false.
Proof.
  pose proof sqrt3_bounds. unfold late_extremum_arc, arc_of.
  cbn [Arc.rx Arc.ry Arc.start Arc.end_ Point.x Point.y].
  apply proper_guard; lra.
Qed.

Lemma late_extremum_xs :
  fst (candidates_of (convertArcParams late_extremum_arc)
         (Fin ((sqrt 3 - 1) / 2)) (Fin (- ((sqrt 3 - 1) / 2))) (Fin 0) (Fin 0))
  = [Fin ((sqrt 3 - 1) / 2); Fin 0; Fin (1 + sqrt 3 / 2)].
Proof.
  pose proof PI_RGT_0 as Hpi.
  rewrite late_extremum_converted. unfold candidates_of. cbv zeta.
  cbn [ArcAlt.phi ArcAlt.rx ArcAlt.ry].
  rewrite sin_fin, cos_fin, sin_PI2, cos_PI2.
  assert (Htan : num_div (Fin 1) (Fin 0) = PInf).
  { unfold num_div. destruct (Req_dec_T 0 0); [apply inf_times_pos; lra | lra]. }
  rewrite Htan, neg_fin, !div_fin by lra.
  assert (HtX : Math.atan (num_mul (Fin (- (1) / 1)) PInf) = Fin (- (PI / 2))).
  { cbn [num_mul]. rewrite inf_times_neg by lra. reflexivity. }
  assert (HtY : Math.atan (num_div (Fin (1 / 1)) PInf) = Fin 0).
  { cbn [num_div Math.atan]. rewrite atan_0. reflexivity. }
  rewrite HtX, HtY.
  unfold offsets, lit, Math.PI. rewrite !mul_fin, neg_fin. cbn [fold_left].
  assert (Hnz : 11 * PI / 6 <> 0) by lra.
  set (alt := ArcAlt.mk (Fin (PI / 2)) (Fin 1) (Fin 1) (Fin (sqrt 3 / 2)) (Fin (1 / 2))
                (Fin (5 * PI / 6)) (Fin (11 * PI / 6))).
  rewrite (arcBound_step_eval alt (- (PI / 2)) 0 (-2 * PI) (5 * PI / 6) (11 * PI / 6)
             _ _ false false eq_refl eq_refl Hnz).
  2: { replace ((- (PI / 2) + -2 * PI - 5 * PI / 6) / (11 * PI / 6)) with (- (20 / 11))
         by (field; lra). lra. }
  2: { replace ((0 + -2 * PI - 5 * PI / 6) / (11 * PI / 6)) with (- (17 / 11))
         by (field; lra). lra. }
  rewrite (arcBound_step_eval alt (- (PI / 2)) 0 (- PI) (5 * PI / 6) (11 * PI / 6)
             _ _ false false eq_refl eq_refl Hnz).
  2: { replace ((- (PI / 2) + - PI - 5 * PI / 6) / (11 * PI / 6)) with (- (14 / 11))
         by (field; lra). lra. }
  2: { replace ((0 + - PI - 5 * PI / 6) / (11 * PI / 6)) with (- (1))
         by (field; lra). lra. }
  rewrite (arcBound_step_eval alt (- (PI / 2)) 0 0 (5 * PI / 6) (11 * PI / 6)
             _ _ false false eq_refl eq_refl Hnz).
  2: { replace ((- (PI / 2) + 0 - 5 * PI / 6) / (11 * PI / 6)) with (- (8 / 11))
         by (field; lra). lra. }
  2: { replace ((0 + 0 - 5 * PI / 6) / (11 * PI / 6)) with (- (5 / 11))
         by (field; lra). lra. }
  rewrite (arcBound_step_eval alt (- (PI / 2)) 0 PI (5 * PI / 6) (11 * PI / 6)
             _ _ false true eq_refl eq_refl Hnz).
  2: { replace ((- (PI / 2) + PI - 5 * PI / 6) / (11 * PI / 6)) with (- (2 / 11))
         by (field; lra). lra. }
  2: { replace ((0 + PI - 5 * PI / 6) / (11 * PI / 6)) with (1 / 11)
         by (field; lra). lra. }
  rewrite (arcBound_step_eval alt (- (PI / 2)) 0 (2 * PI) (5 * PI / 6) (11 * PI / 6)
             _ _ true true eq_refl eq_refl Hnz).
  2: { replace ((- (PI / 2) + 2 * PI - 5 * PI / 6) / (11 * PI / 6)) with (4 / 11)
         by (field; lra). lra. }
  2: { replace ((0 + 2 * PI - 5 * PI / 6) / (11 * PI / 6)) with (7 / 11)
         by (field; lra). lra. }
  cbn [fst app]. unfold point_x, alt. cbv zeta.
  cbn [ArcAlt.phi ArcAlt.rx ArcAlt.ry ArcAlt.cx].
  rewrite !sin_fin, !cos_fin, !mul_fin, sub_fin, add_fin, sin_PI2, cos_PI2.
  replace (- (PI / 2) + 2 * PI) with (3 * (PI / 2)) by field.
  rewrite sin_3PI2. do 3 f_equal. f_equal. ring.
Qed.

Lemma sin_5PI2 : sin (5 * PI / 2) = 1.
Proof.
  replace (5 * PI / 2) with (PI / 2 + 2 * PI) by field.
  rewrite sin_plus, sin_2PI, cos_2PI, sin_PI2. ring.
Qed.

Lemma late_extremum_left : Rect.left (arcBound late_extremum_arc) = Fin 0.
Proof.
  pose proof sqrt3_bounds as Hb3.
  rewrite arcBound_proper_eq by exact late_extremum_guard. cbv zeta.
  cbn [Rect.left].
  change (Point.x (Arc.start late_extremum_arc)) with (Fin ((sqrt 3 - 1) / 2)).
  change (Point.y (Arc.start late_extremum_arc)) with (Fin (- ((sqrt 3 - 1) / 2))).
  change (Point.x (Arc.end_ late_extremum_arc)) with (Fin 0).
  change (Point.y (Arc.end_ late_extremum_arc)) with (Fin 0).
  rewrite late_extremum_xs. unfold Math.min. cbn [fold_left].
  unfold Math.min2, num_ltb.
  destruct (Rlt_dec 0 ((sqrt 3 - 1) / 2)); [| lra].
  destruct (Rlt_dec (1 + sqrt 3 / 2) 0); [lra | reflexivity].
Qed.

Lemma late_extremum_point :
  point_x (convertArcParams late_extremum_arc)
          (num_add (ArcAlt.theta1 (convertArcParams late_extremum_arc))
                   (num_mul (Fin (10 / 11))
                            (ArcAlt.dtheta (convertArcParams late_extremum_arc))))
  = Fin (sqrt 3 / 2 - 1).
Proof.
  rewrite late_extremum_converted. unfold point_x. cbv zeta.
  cbn [ArcAlt.phi ArcAlt.rx ArcAlt.ry ArcAlt.cx ArcAlt.theta1 ArcAlt.dtheta].
  rewrite mul_fin, add_fin.
  replace (5 * PI / 6 + 10 / 11 * (11 * PI / 6)) with (5 * PI / 2) by field.
  rewrite !sin_fin, !cos_fin, !mul_fin, sub_fin, add_fin, sin_PI2, cos_PI2, sin_5PI2.
  f_equal. ring.
Qed.

(** ** Further properties of [convertArcParams] *)

(** X4: the angle [phi] returned is the rotation in radians reduced by a
    multiple of [pi]: it lies in [(-pi, pi)] and has the sign of the
    rotation. *)
Theorem X4_phi_reduced (arc : Arc.t) (rot : R) :
  Arc.rotation arc = Fin rot ->
  exists p, ArcAlt.phi (convertArcParams arc) = Fin p
            /\ - PI < p < PI
            /\ (0 <= rot -> 0 <= p) /\ (rot <= 0 -> p <= 0)
            /\ exists k : Z, p = rot / 180 * PI - IZR k * PI.
Proof.
  intros H. exists (phiR rot).
  rewrite convertArcParams_phi, (phi_of_rotation arc rot H).
  destruct (phiR_range rot) as (Hr & Hp & Hn).
  repeat split; try assumption; try apply Hr.
  exists (Rtrunc (rot / 180)). apply phiR_reduced.
Qed.

Lemma X4_phi_reduced_witness :
  Arc.rotation late_extremum_arc = Fin 90
  /\ exists p, ArcAlt.phi (convertArcParams late_extremum_arc) = Fin p
               /\ - PI < p < PI.
Proof.
  split; [reflexivity |].
  destruct (X4_phi_reduced late_extremum_arc 90 eq_refl) as (p & Hp & Hr & _).
  exists p. split; assumption.
Defined.

(** X6: for every arc with [rx <> 0] and [ry <> 0], each angle returned is
    NaN or a number of its range: [theta1] in [[-pi, pi]], and [dtheta] in
    [[0, 2 pi]] when [sweep] is true, in [[-2 pi, 0]] when it is false. *)
Theorem X6_angles_in_range (arc : Arc.t) :
  Arc.rx arc <> lit 0 -> Arc.ry arc <> lit 0 ->
  nan_or_between (- PI) PI (ArcAlt.theta1 (convertArcParams arc))
  /\ if Arc.sweep arc
     then nan_or_between 0 (2 * PI) (ArcAlt.dtheta (convertArcParams arc))
     else nan_or_between (- (2 * PI)) 0 (ArcAlt.dtheta (convertArcParams arc)).
Proof. exact (angles_in_range arc). Qed.

Lemma X6_angles_in_range_witness :
  Arc.rx scenario_arc <> lit 0
  /\ nan_or_between (- PI) PI (ArcAlt.theta1 (convertArcParams scenario_arc))
  /\ nan_or_between (- (2 * PI)) 0 (ArcAlt.dtheta (convertArcParams scenario_arc)).
Proof.
  split; [exact fin_one_neq_zero |].
  exact (X6_angles_in_range scenario_arc fin_one_neq_zero fin_one_neq_zero).
Defined.

(** X7: for every arc of finite numbers with nonzero radii and coincident
    endpoints, [convertArcParams] returns the absolute values of the radii
    and NaN for the centre and for both angles. *)
Theorem X7_coincident_endpoints (arc : Arc.t) :
  finite_arc arc -> Arc.rx arc <> lit 0 -> Arc.ry arc <> lit 0 ->
  Arc.start arc = Arc.end_ arc ->
  let alt := convertArcParams arc in
  ArcAlt.rx alt = Math.abs (Arc.rx arc) /\ ArcAlt.ry alt = Math.abs (Arc.ry arc)
  /\ ArcAlt.cx alt = NaN /\ ArcAlt.cy alt = NaN
  /\ ArcAlt.theta1 alt = NaN /\ ArcAlt.dtheta alt = NaN.
Proof.
  intros Hfin.
  destruct (finite_arc_inv arc Hfin) as (x1 & y1 & x2 & y2 & a & b & rot & E).
  rewrite E. generalize (Arc.largeArc arc) (Arc.sweep arc). clear E Hfin. intros la sw.
  cbn [arc_of Arc.rx Arc.ry Arc.start Arc.end_]. intros Ha Hb Hse.
  apply fin_neq_lit0 in Ha, Hb. injection Hse as -> ->.
  cbv zeta.
  change (Arc.mk (Point.mk (Fin x2) (Fin y2)) (Point.mk (Fin x2) (Fin y2))
            (Fin a) (Fin b) (Fin rot) la sw) with (arc_of x2 y2 x2 y2 a b rot la sw).
  rewrite convertArcParams_coincident by assumption.
  repeat split.
Qed.

Lemma X7_coincident_endpoints_witness :
  finite_arc coincident_arc
  /\ ArcAlt.cx (convertArcParams coincident_arc) = NaN.
Proof.
  split; [exact (proj1 coincident_arc_valid) |].
  exact (proj1 (proj2 (proj2 (X7_coincident_endpoints coincident_arc
    (proj1 coincident_arc_valid) fin_one_neq_zero fin_one_neq_zero eq_refl)))).
Defined.

(** ** Further properties of [arcBound] *)

(** X8: for every valid arc (finite coordinates, non-negative radii) the
    rectangle returned is well formed: [left <= right] and
    [top <= bottom]. *)
Theorem X8_bound_well_formed (arc : Arc.t) :
  valid_arc arc ->
  num_le (Rect.left (arcBound arc)) (Rect.right (arcBound arc))
  /\ num_le (Rect.top (arcBound arc)) (Rect.bottom (arcBound arc)).
Proof.
  intros [Hfin _].
  destruct (arcBound_finite_arc arc Hfin) as ((Hl & Hr & Ht & Hb) & _).
  split; eapply num_le_trans; eassumption.
Qed.

Lemma X8_bound_well_formed_witness :
  valid_arc small_radii_arc
  /\ num_le (Rect.left (arcBound small_radii_arc)) (Rect.right (arcBound small_radii_arc))
  /\ num_le (Rect.top (arcBound small_radii_arc)) (Rect.bottom (arcBound small_radii_arc)).
Proof.
  split; [exact small_radii_arc_valid |].
  exact (X8_bound_well_formed small_radii_arc small_radii_arc_valid).
Defined.

Lemma late_extremum_arc_proper : proper_arc late_extremum_arc.
Proof.
  pose proof sqrt3_bounds as Hb3.
  split; [unfold finite_arc, finite_point; simpl; tauto |].
  repeat split; try exact fin_one_neq_zero.
  unfold late_extremum_arc, arc_of. simpl. intros H. injection H as H1 H2. lra.
Qed.

(** X10: the rectangle does not always contain the arc.  For the large arc
    of the unit circle from the angle [5 pi/6] over [11 pi/6] with the
    rotation [90], the x-coordinate has a minimum at the angle [5 pi/2],
    past the last candidate [thetaExtremaX + 2 pi = 3 pi/2]: the point of the
    arc there has [x = sqrt 3 / 2 - 1 < 0] and the rectangle has
    [left = 0]. *)
Theorem X10_bound_misses_late_extremum :
  proper_arc late_extremum_arc
  /\ exists v,
       arc_x_value (convertArcParams late_extremum_arc) v
       /\ num_lt v (Rect.left (arcBound late_extremum_arc)).
Proof.
  split; [exact late_extremum_arc_proper |].
  exists (Fin (sqrt 3 / 2 - 1)). split.
  - exists (10 / 11). split; [lra |]. symmetry. exact late_extremum_point.
  - rewrite late_extremum_left. unfold num_lt. apply ltb_fin_true.
    pose proof sqrt3_bounds. lra.
Qed.

(** ** Properties of [angle] *)

(** X11: whatever the two vectors, [angle] returns NaN or a number of
    [[-pi, pi]]: never an infinity, never a number out of the range. *)
Theorem X11_angle_range (u v : Vector.t) : nan_or_between (- PI) PI (angle u v).
Proof. exact (angle_nan_or_range u v). Qed.

(** X12: when one of two finite vectors is the zero vector, [angle] returns
    NaN. *)
Theorem X12_angle_of_zero_vector (ux uy vx vy : R) :
  (ux = 0 /\ uy = 0) \/ (vx = 0 /\ vy = 0) ->
  angle (Vector.mk (Fin ux) (Fin uy)) (Vector.mk (Fin vx) (Fin vy)) = NaN.
Proof.
  intros H. apply angle_zero_vector.
  destruct H as [[-> ->] | [-> ->]]; [left | right]; ring.
Qed.

Lemma X12_angle_of_zero_vector_witness :
  angle (Vector.mk (Fin 1) (Fin 0)) (Vector.mk (Fin 0) (Fin 0)) = NaN.
Proof. apply (X12_angle_of_zero_vector 1 0 0 0). right. split; reflexivity. Defined.

(** X14: [angle] is antisymmetric when the cross product it computes for the
    sign, [u.x * v.y - u.y * v.x], is a number other than zero: exchanging
    the vectors then changes the sign of the result (NaN stays NaN).  When
    that product is zero, also by rounding, the sign is [1] in both
    orders. *)
Theorem X14_angle_antisymmetric (u v : Vector.t) :
  nonzero_number (cross u v) -> angle v u = num_neg (angle u v).
Proof. exact (angle_swap u v). Qed.

Lemma X14_angle_antisymmetric_witness :
  nonzero_number (cross (Vector.mk (Fin 1) (Fin 0)) (Vector.mk (Fin 0) (Fin 1)))
  /\ angle (Vector.mk (Fin 0) (Fin 1)) (Vector.mk (Fin 1) (Fin 0))
     = num_neg (angle (Vector.mk (Fin 1) (Fin 0)) (Vector.mk (Fin 0) (Fin 1))).
Proof.
  assert (H : nonzero_number (cross (Vector.mk (Fin 1) (Fin 0)) (Vector.mk (Fin 0) (Fin 1)))).
  { right. unfold cross, num_lt, lit. cbn [Vector.x Vector.y].
    rewrite !mul_fin, sub_fin. apply ltb_fin_true. lra. }
  split; [exact H |].
  exact (X14_angle_antisymmetric _ _ H).
Defined.

(** ** Properties of [cartesianProduct] *)

(** X15: when no array after the first is empty, the result has as many
    elements as the product of the lengths of the arrays. *)
Theorem X15_cartesianProduct_length {A : Type} (a : list (value A))
    (bc : list (list (value A))) :
  Forall nonempty bc ->
  length (Utils.cartesianProduct a bc)
  = (length a * fold_right (fun b n => length b * n) 1 bc)%nat.
Proof. exact (cartesianProduct_length a bc). Qed.

Lemma X15_cartesianProduct_length_witness :
  length (Utils.cartesianProduct [Atom 1%nat; Atom 2%nat]
            [[Atom 3%nat; Atom 4%nat; Atom 5%nat]; [Atom 6%nat; Atom 7%nat]])
  = 12%nat.
Proof.
  apply (X15_cartesianProduct_length [Atom 1%nat; Atom 2%nat]
           [[Atom 3%nat; Atom 4%nat; Atom 5%nat]; [Atom 6%nat; Atom 7%nat]]).
  repeat constructor; discriminate.
Defined.

(** X16: for two or more arrays of elements that are not arrays, none empty
    after the first, the result is the list of all tuples with one element
    of each array, in lexicographic order of the positions, each tuple an
    array. *)
Theorem X16_cartesianProduct_tuples {A : Type} (a b : list A) (bs : list (list A)) :
  Forall nonempty (b :: bs) ->
  Utils.cartesianProduct (map Atom a) (map (map Atom) (b :: bs))
  = map tuple_value (tuples (a :: b :: bs)).
Proof. exact (cartesianProduct_tuples a b bs). Qed.

Lemma X16_cartesianProduct_tuples_witness :
  Utils.cartesianProduct (map Atom [1; 2]%nat) (map (map Atom) [[3; 4]; [5]]%nat)
  = map tuple_value [[1; 3; 5]; [1; 4; 5]; [2; 3; 5]; [2; 4; 5]]%nat.
Proof.
  apply (X16_cartesianProduct_tuples [1; 2]%nat [3; 4]%nat [[5]%nat]).
  repeat constructor; discriminate.
Defined.

(** X17: under the same conditions, an array of atoms is in the result
    exactly when it has one element of each array, in the order of the
    arrays. *)
Theorem X17_cartesianProduct_members {A : Type} (a b : list A) (bs : list (list A))
    (t : list A) :
  Forall nonempty (b :: bs) ->
  In (tuple_value t)
     (Utils.cartesianProduct (map Atom a) (map (map Atom) (b :: bs)))
  <-> Forall2 (fun x l => In x l) t (a :: b :: bs).
Proof.
  intros H. rewrite (cartesianProduct_tuples a b bs H), <- tuples_in.
  split.
  - intros Hin. apply in_map_iff in Hin as (s & Hs & Hin).
    unfold tuple_value in Hs. injection Hs as Hs.
    assert (E : s = t).
    { clear - Hs. revert t Hs. induction s as [| x s IH]; intros [| y t] Hs;
        try discriminate Hs; [reflexivity |].
      simpl in Hs. injection Hs as Hx Hs. f_equal; [exact Hx | apply IH, Hs]. }
    rewrite <- E. exact Hin.
  - intros Hin. apply in_map. exact Hin.
Qed.

Lemma X17_cartesianProduct_members_witness :
  In (tuple_value [2; 3; 5]%nat)
     (Utils.cartesianProduct (map Atom [1; 2]%nat) (map (map Atom) [[3; 4]; [5]]%nat)).
Proof.
  apply (X17_cartesianProduct_members [1; 2]%nat [3; 4]%nat [[5]%nat] [2; 3; 5]%nat).
  - repeat constructor; discriminate.
  - constructor; [simpl; tauto |]. constructor; [simpl; tauto |].
    constructor; [simpl; tauto |]. constructor.
Defined.

(** X18: an empty array among the arguments does not empty the result: the
    product stops there, and the empty array and every argument after it
    are ignored.  With the first array alone the result is that array
    itself, its elements not wrapped. *)
Theorem X18_cartesianProduct_stops_at_empty {A : Type} (a : list (value A))
    (bs cs : list (list (value A))) :
  Forall nonempty bs ->
  Utils.cartesianProduct a (bs ++ [] :: cs) = Utils.cartesianProduct a bs.
Proof. exact (cartesianProduct_empty_factor a bs cs). Qed.

Lemma X18_cartesianProduct_stops_at_empty_witness :
  Utils.cartesianProduct [Atom 1%nat; Atom 2%nat] ([] ++ [] :: [[Atom 3%nat]])
  = [Atom 1%nat; Atom 2%nat].
Proof.
  apply (X18_cartesianProduct_stops_at_empty [Atom 1%nat; Atom 2%nat] [] [[Atom 3%nat]]).
  constructor.
Defined.

Lemma combinations_tuples :
  Index.combinations
  = map (fun t => Index.to_arc (tuple_value t))
        (tuples [Index.starts; Index.ends; Index.largeArcs; Index.sweeps;
                 Index.xRadii; Index.rotations]).
Proof.
  unfold Index.combinations.
  change [map Atom Index.ends; map Atom Index.largeArcs; map Atom Index.sweeps;
          map Atom Index.xRadii; map Atom Index.rotations]
    with (map (map (@Atom item))
              [Index.ends; Index.largeArcs; Index.sweeps; Index.xRadii; Index.rotations]).
  rewrite cartesianProduct_tuples.
  - apply map_map.
  - repeat constructor; discriminate.
Qed.

Lemma demo_tuple_proper (t : list item) :
  Forall2 (fun x l => In x l) t
          [Index.starts; Index.ends; Index.largeArcs; Index.sweeps;
           Index.xRadii; Index.rotations] ->
  exists arc, Index.to_arc (tuple_value t) = Some arc /\ proper_arc arc.
Proof.
  intros H.
  inversion H as [| s t1 ? ? Hs H1]; subst. inversion H1 as [| e t2 ? ? He H2]; subst.
  inversion H2 as [| la t3 ? ? Hla H3]; subst. inversion H3 as [| sw t4 ? ? Hsw H4]; subst.
  inversion H4 as [| rx t5 ? ? Hrx H5]; subst. inversion H5 as [| rot t6 ? ? Hrot H6]; subst.
  inversion H6; subst. clear H H1 H2 H3 H4 H5 H6.
  unfold Index.starts in Hs. unfold Index.ends in He. unfold Index.largeArcs in Hla.
  unfold Index.sweeps in Hsw. unfold Index.xRadii in Hrx. unfold Index.rotations in Hrot.
  simpl in Hs, He, Hla, Hsw, Hrx, Hrot.
  destruct Hs as [<- | []].
  assert (Hflags : exists b1 b2, la = IBool b1 /\ sw = IBool b2).
  { destruct Hla as [<- | [<- | []]]; destruct Hsw as [<- | [<- | []]]; eauto. }
  destruct Hflags as (b1 & b2 & -> & ->). clear Hla Hsw.
  assert (Hr : exists r, rx = INum (Fin r) /\ r <> 0).
  { destruct Hrx as [<- | [<- | [<- | []]]]; eexists; (split; [reflexivity | lra]). }
  destruct Hr as (r & -> & Hr0). clear Hrx.
  assert (Ho : exists o, rot = INum (Fin o)).
  { destruct Hrot as [<- | [<- | [<- | []]]]; eexists; reflexivity. }
  destruct Ho as (o & ->). clear Hrot.
  assert (Hend : exists x y, e = IPoint (Point.mk (Fin x) (Fin y)) /\ (-1 <> x \/ 0 <> y)).
  { destruct He as [<- | [<- | [<- | []]]]; do 2 eexists;
      (split; [reflexivity | simpl; lra]). }
  destruct Hend as (x & y & -> & Hxy). clear He.
  eexists. split; [reflexivity |].
  unfold proper_arc, finite_arc, finite_point, lit. simpl.
  repeat split; try exact I.
  - intros H. injection H as H. lra.
  - intros H. injection H as H. lra.
  - intros H. injection H as Hx Hy. lra.
Qed.

Lemma combinations_length : length Index.combinations = 108%nat.
Proof.
  unfold Index.combinations. rewrite length_map, cartesianProduct_length.
  - reflexivity.
  - repeat constructor; discriminate.
Qed.

(** X19: the page computes the centre form and the bound of 108 arcs, the
    combinations of its six arrays with [ry = 1]; each has finite numbers,
    nonzero radii and distinct endpoints: none takes the branch of the zero
    radii, the fast path of [arcBound] or the NaN of coincident
    endpoints. *)
Theorem X19_page_arcs_proper :
  length Index.combinations = 108%nat
  /\ Forall (fun o => exists arc, o = Some arc /\ proper_arc arc) Index.combinations.
Proof.
  split; [exact combinations_length |].
  rewrite combinations_tuples. apply Forall_forall. intros o Ho.
  apply in_map_iff in Ho as (t & <- & Ht). apply tuples_in in Ht.
  exact (demo_tuple_proper t Ht).
Qed.

(** ** The complement and the reverse of an arc *)

Lemma cFactorR_flip_sweep (A B X Y : R) (la sw : bool) :
  cFactorR A B X Y la (negb sw) = - cFactorR A B X Y la sw.
Proof. unfold cFactorR, flag_sign. destruct la, sw; simpl; ring. Qed.

Lemma x1pR_swap (p x1 y1 x2 y2 : R) : x1pR p x2 y2 x1 y1 = - x1pR p x1 y1 x2 y2.
Proof. unfold x1pR. field. Qed.

Lemma y1pR_swap (p x1 y1 x2 y2 : R) : y1pR p x2 y2 x1 y1 = - y1pR p x1 y1 x2 y2.
Proof. unfold y1pR. field. Qed.

Lemma sqrtLambdaR_opp (X Y a b : R) : sqrtLambdaR (- X) (- Y) a b = sqrtLambdaR X Y a b.
Proof.
  unfold sqrtLambdaR. f_equal.
  replace (- X * - X) with (X * X) by ring. replace (- Y * - Y) with (Y * Y) by ring.
  reflexivity.
Qed.

Lemma cFactorR_opp (A B X Y : R) (la sw : bool) :
  cFactorR A B (- X) (- Y) la sw = cFactorR A B X Y la sw.
Proof.
  unfold cFactorR.
  replace (- X * - X) with (X * X) by ring. replace (- Y * - Y) with (Y * Y) by ring.
  reflexivity.
Qed.

Lemma sweep_adjustR_opp (sw : bool) (r : R) :
  sweep_adjustR (negb sw) (- r) = - sweep_adjustR sw r.
Proof.
  unfold sweep_adjustR. destruct sw; simpl.
  - destruct (Rlt_dec 0 (- r)), (Rlt_dec r 0); lra.
  - destruct (Rlt_dec (- r) 0), (Rlt_dec 0 r); lra.
Qed.

Lemma sweep_adjustR_PI (sw : bool) :
  sweep_adjustR (negb sw) PI = - sweep_adjustR sw PI.
Proof.
  pose proof PI_RGT_0. unfold sweep_adjustR. destruct sw; simpl.
  - destruct (Rlt_dec 0 PI), (Rlt_dec PI 0); lra.
  - destruct (Rlt_dec PI 0), (Rlt_dec 0 PI); lra.
Qed.

(** For unit vectors with a zero cross product and a negative dot product
    the angle is [pi] in both orders. *)
Lemma angleR_opposite (ux uy vx vy : R) :
  ux * ux + uy * uy = 1 -> vx * vx + vy * vy = 1 ->
  ux * vy - uy * vx = 0 -> angleR ux uy vx vy <> 0 ->
  angleR ux uy vx vy = PI /\ angleR vx vy ux uy = PI.
Proof.
  intros Hu Hv Hc Hnz.
  assert (Hd2 : (ux * vx + uy * vy) * (ux * vx + uy * vy) = 1) by nra.
  assert (Hd : ux * vx + uy * vy = -1).
  { destruct (Req_dec_T (ux * vx + uy * vy) 1) as [E | E]; [| nra].
    exfalso. apply Hnz. unfold angleR. rewrite Hu, Hv, sqrt_1, E.
    replace (1 / (1 * 1)) with 1 by field. rewrite acos_1. ring. }
  unfold angleR. rewrite Hu, Hv, sqrt_1.
  replace (vx * ux + vy * uy) with (ux * vx + uy * vy) by ring.
  rewrite Hd.
  replace (vx * uy - vy * ux) with (- (ux * vy - uy * vx)) by ring. rewrite Hc.
  replace (-1 / (1 * 1)) with (- (1)) by field.
  rewrite acos_opp, acos_1.
  destruct (Rlt_dec 0 0), (Rlt_dec (- 0) 0); lra.
Qed.

Lemma convertR_reverse (x1 y1 x2 y2 a b rot : R) (la sw : bool) :
  a <> 0 -> b <> 0 -> x1 <> x2 \/ y1 <> y2 ->
  let alt := convertR x1 y1 x2 y2 a b rot la sw in
  let alt' := convertR x2 y2 x1 y1 a b rot la (negb sw) in
  exists d,
    ArcAlt.dtheta alt = Fin d
    /\ ArcAlt.dtheta alt' = Fin (- d)
    /\ ArcAlt.phi alt' = ArcAlt.phi alt
    /\ ArcAlt.rx alt' = ArcAlt.rx alt /\ ArcAlt.ry alt' = ArcAlt.ry alt
    /\ ArcAlt.cx alt' = ArcAlt.cx alt /\ ArcAlt.cy alt' = ArcAlt.cy alt.
Proof.
  intros Ha Hb Hne. cbv zeta.
  pose proof (proper_A_pos x1 y1 x2 y2 a b rot Ha) as HA.
  pose proof (proper_B_pos x1 y1 x2 y2 a b rot Hb) as HB.
  pose proof (vec1_unit x1 y1 x2 y2 a b rot la sw Ha Hb Hne) as Hu1.
  pose proof (vec2_unit x1 y1 x2 y2 a b rot la sw Ha Hb Hne) as Hu2.
  unfold convertR, centre_formR. cbv zeta.
  cbn [ArcAlt.phi ArcAlt.rx ArcAlt.ry ArcAlt.cx ArcAlt.cy ArcAlt.theta1 ArcAlt.dtheta].
  rewrite (x1pR_swap (phiR rot) x1 y1 x2 y2), (y1pR_swap (phiR rot) x1 y1 x2 y2).
  rewrite !sqrtLambdaR_opp, cFactorR_opp, cFactorR_flip_sweep.
  set (X := x1pR (phiR rot) x1 y1 x2 y2) in *.
  set (Y := y1pR (phiR rot) x1 y1 x2 y2) in *.
  set (A := correctedR (sqrtLambdaR X Y (Rabs a) (Rabs b)) (Rabs a)) in *.
  set (B := correctedR (sqrtLambdaR X Y (Rabs a) (Rabs b)) (Rabs b)) in *.
  set (c := cFactorR A B X Y la sw) in *.
  pose proof (dtheta_raw_nonzero A B X Y c HA HB
                (x1p_y1p_nonzero (phiR rot) x1 y1 x2 y2 Hne)) as Hnz.
  assert (Ecx : cxpR (- c) A B (- Y) = cxpR c A B Y) by (unfold cxpR; field; lra).
  assert (Ecy : cypR (- c) A B (- X) = cypR c A B X) by (unfold cypR; field; lra).
  rewrite Ecx, Ecy.
  replace (- - X) with X by ring. replace (- - Y) with Y by ring.
  replace ((x2 + x1) / 2) with ((x1 + x2) / 2) by field.
  replace ((y2 + y1) / 2) with ((y1 + y2) / 2) by field.
  eexists. split; [reflexivity |]. repeat split.
  f_equal.
  set (v1x := (X - cxpR c A B Y) / A) in *. set (v1y := (Y - cypR c A B X) / B) in *.
  set (v2x := (- X - cxpR c A B Y) / A) in *. set (v2y := (- Y - cypR c A B X) / B) in *.
  destruct (Req_dec_T (v1x * v2y - v1y * v2x) 0) as [Hc | Hc].
  - destruct (angleR_opposite v1x v1y v2x v2y Hu1 Hu2 Hc Hnz) as [-> ->].
    apply sweep_adjustR_PI.
  - rewrite (angleR_swap v1x v1y v2x v2y Hc). apply sweep_adjustR_opp.
Qed.

Lemma cFactor_at_flip_both (rx ry x1p y1p : number) (la sw : bool) :
  cFactor_at rx ry x1p y1p (negb la) (negb sw) = cFactor_at rx ry x1p y1p la sw.
Proof. unfold cFactor_at. destruct la, sw; reflexivity. Qed.

Lemma sweep_adjust_complement (sw : bool) (raw : number) :
  let d := sweep_adjust sw raw in
  let d' := sweep_adjust (negb sw) raw in
  d' = d
  \/ if sw then d' = num_sub d two_pi \/ d = num_add d' two_pi
     else d' = num_add d two_pi \/ d = num_sub d' two_pi.
Proof.
  cbv zeta. unfold sweep_adjust, two_pi, num_gtb.
  destruct (num_ltb (lit 0) raw) eqn:G, (num_ltb raw (lit 0)) eqn:L;
    [rewrite (ltb_asym _ _ G) in L; discriminate L | | |];
    destruct sw; cbn [negb andb]; auto.
Qed.

(** X21: flipping both flags gives the other arc of the same ellipse: for
    every arc, [convertArcParams] returns the same [phi], radii, centre and
    [theta1], and the two [dtheta] are the two corrections of one angle:
    equal (zero, NaN, or a zero radius), or one is the other minus or plus
    [2 * Math.PI]. *)
Theorem X21_complement_arc (arc : Arc.t) :
  let alt := convertArcParams arc in
  let alt' := convertArcParams (complement_arc arc) in
  ArcAlt.phi alt' = ArcAlt.phi alt
  /\ ArcAlt.rx alt' = ArcAlt.rx alt /\ ArcAlt.ry alt' = ArcAlt.ry alt
  /\ ArcAlt.cx alt' = ArcAlt.cx alt /\ ArcAlt.cy alt' = ArcAlt.cy alt
  /\ ArcAlt.theta1 alt' = ArcAlt.theta1 alt
  /\ (ArcAlt.dtheta alt' = ArcAlt.dtheta alt
      \/ if Arc.sweep arc
         then ArcAlt.dtheta alt' = num_sub (ArcAlt.dtheta alt) two_pi
              \/ ArcAlt.dtheta alt = num_add (ArcAlt.dtheta alt') two_pi
         else ArcAlt.dtheta alt' = num_add (ArcAlt.dtheta alt) two_pi
              \/ ArcAlt.dtheta alt = num_sub (ArcAlt.dtheta alt') two_pi).
Proof.
  cbv zeta. rewrite !convertArcParams_eq. cbv zeta.
  change (phi_of (complement_arc arc)) with (phi_of arc).
  change (x1p_of (complement_arc arc)) with (x1p_of arc).
  change (y1p_of (complement_arc arc)) with (y1p_of arc).
  cbn [complement_arc Arc.rx Arc.ry Arc.start Arc.end_ Arc.largeArc Arc.sweep].
  destruct (num_eqb (Arc.rx arc) (lit 0) || num_eqb (Arc.ry arc) (lit 0))%bool.
  - cbn [ArcAlt.phi ArcAlt.rx ArcAlt.ry ArcAlt.cx ArcAlt.cy ArcAlt.theta1 ArcAlt.dtheta].
    repeat split. left. reflexivity.
  - unfold centre_form. cbv zeta. rewrite cFactor_at_flip_both.
    cbn [ArcAlt.phi ArcAlt.rx ArcAlt.ry ArcAlt.cx ArcAlt.cy ArcAlt.theta1 ArcAlt.dtheta].
    repeat split. apply sweep_adjust_complement.
Qed.

Lemma vectors_of_fin (x1 y1 x2 y2 a b rot : R) (la sw : bool) :
  a <> 0 -> b <> 0 -> x1 <> x2 \/ y1 <> y2 ->
  let X := x1pR (phiR rot) x1 y1 x2 y2 in
  let Y := y1pR (phiR rot) x1 y1 x2 y2 in
  let l := sqrtLambdaR X Y (Rabs a) (Rabs b) in
  let A := correctedR l (Rabs a) in
  let B := correctedR l (Rabs b) in
  let c := cFactorR A B X Y la sw in
  vectors_of (arc_of x1 y1 x2 y2 a b rot la sw)
  = (Vector.mk (Fin ((X - cxpR c A B Y) / A)) (Fin ((Y - cypR c A B X) / B)),
     Vector.mk (Fin ((- X - cxpR c A B Y) / A)) (Fin ((- Y - cypR c A B X) / B))).
Proof.
  intros Ha Hb Hne. cbv zeta. unfold vectors_of. cbv zeta.
  rewrite x1p_of_fin, y1p_of_fin.
  cbn [arc_of Arc.rx Arc.ry Arc.largeArc Arc.sweep].
  rewrite !abs_fin.
  assert (HA : 0 < Rabs a) by (apply Rabs_pos_lt; assumption).
  assert (HB : 0 < Rabs b) by (apply Rabs_pos_lt; assumption).
  rewrite sqrtLambda_at_fin by lra.
  rewrite !corrected_fin.
  set (X := x1pR (phiR rot) x1 y1 x2 y2). set (Y := y1pR (phiR rot) x1 y1 x2 y2).
  set (l := sqrtLambdaR X Y (Rabs a) (Rabs b)).
  assert (HA' : 0 < correctedR l (Rabs a)) by (apply correctedR_pos; assumption).
  assert (HB' : 0 < correctedR l (Rabs b)) by (apply correctedR_pos; assumption).
  assert (HXY : X * X + Y * Y <> 0) by (apply x1p_y1p_nonzero; assumption).
  assert (HD : correctedR l (Rabs a) * correctedR l (Rabs a) * (Y * Y)
               + correctedR l (Rabs b) * correctedR l (Rabs b) * (X * X) <> 0).
  { assert (0 < correctedR l (Rabs a) * correctedR l (Rabs a)) by nra.
    assert (0 < correctedR l (Rabs b) * correctedR l (Rabs b)) by nra.
    destruct (Req_dec_T X 0) as [HX | HX].
    - assert (HY : Y <> 0) by (intros E; apply HXY; rewrite HX, E; ring).
      assert (0 < Y * Y) by (apply Rsqr_pos_lt; assumption). nra.
    - assert (0 < X * X) by (apply Rsqr_pos_lt; assumption). nra. }
  rewrite cFactor_at_fin by assumption.
  rewrite cxp_at_fin, cyp_at_fin by lra.
  unfold vec1_at, vec2_at.
  rewrite !neg_fin, !sub_fin, !div_fin by lra.
  reflexivity.
Qed.

(** For the arc of the scenarios [vec1] is [(0, 1)] and [vec2] is
    [(1, 0)]. *)
Lemma scenario_vectors :
  vectors_of scenario_arc
  = (Vector.mk (Fin 0) (Fin 1), Vector.mk (Fin 1) (Fin 0)).
Proof.
  unfold scenario_arc. rewrite vectors_of_fin by lra. rewrite phiR_0.
  assert (HX : x1pR 0 (-1) 0 0 (-1) = -1 / 2).
  { unfold x1pR. rewrite sin_0, cos_0. lra. }
  assert (HY : y1pR 0 (-1) 0 0 (-1) = 1 / 2).
  { unfold y1pR. rewrite sin_0, cos_0. lra. }
  rewrite HX, HY, Rabs_R1.
  assert (Hl : sqrtLambdaR (-1 / 2) (1 / 2) 1 1 = sqrt (1 / 2)).
  { unfold sqrtLambdaR. f_equal. lra. }
  rewrite Hl, correctedR_small by apply sqrt_half_le_1.
  assert (Hc : cFactorR 1 1 (-1 / 2) (1 / 2) false false = -1).
  { unfold cFactorR, flag_sign. cbn [Bool.eqb].
    replace (1 * 1 * (1 * 1) - 1 * 1 * (1 / 2 * (1 / 2)) - 1 * 1 * (-1 / 2 * (-1 / 2)))
      with (1 / 2) by lra.
    rewrite Rmax_right by lra.
    replace (1 / 2 / (1 * 1 * (1 / 2 * (1 / 2)) + 1 * 1 * (-1 / 2 * (-1 / 2)))) with 1 by lra.
    rewrite sqrt_1. lra. }
  rewrite Hc.
  assert (Hcx : cxpR (-1) 1 1 (1 / 2) = -1 / 2) by (unfold cxpR; lra).
  assert (Hcy : cypR (-1) 1 1 (-1 / 2) = -1 / 2) by (unfold cypR; lra).
  rewrite Hcx, Hcy.
  f_equal; f_equal; f_equal; lra.
Qed.

Lemma scenario_cross :
  nonzero_number (cross (fst (vectors_of scenario_arc)) (snd (vectors_of scenario_arc))).
Proof.
  rewrite scenario_vectors. left. unfold cross, num_lt, lit. cbn [fst snd Vector.x Vector.y].
  rewrite !mul_fin, sub_fin. apply ltb_fin_true. lra.
Qed.

(** X22: for an arc of finite numbers with nonzero radii and distinct
    endpoints, the arc drawn from the end to the start (endpoints exchanged,
    sweep flag flipped) has the same [phi], radii and centre; and, when the
    cross product of [vec1] and [vec2] that [angle] computes for the sign is
    a number other than zero, the opposite [dtheta]. *)
Theorem X22_reverse_arc (arc : Arc.t) :
  proper_arc arc ->
  let alt := convertArcParams arc in
  let alt' := convertArcParams (reverse_arc arc) in
  ArcAlt.phi alt' = ArcAlt.phi alt
  /\ ArcAlt.rx alt' = ArcAlt.rx alt /\ ArcAlt.ry alt' = ArcAlt.ry alt
  /\ ArcAlt.cx alt' = ArcAlt.cx alt /\ ArcAlt.cy alt' = ArcAlt.cy alt
  /\ (nonzero_number (cross (fst (vectors_of arc)) (snd (vectors_of arc))) ->
      ArcAlt.dtheta alt' = num_neg (ArcAlt.dtheta alt)).
Proof.
  intros H.
  destruct (proper_arc_inv arc H) as (x1 & y1 & x2 & y2 & a & b & rot & E & Ha & Hb & Hne).
  rewrite E. generalize (Arc.largeArc arc) (Arc.sweep arc). clear E H. intros la sw.
  cbv zeta.
  change (reverse_arc (arc_of x1 y1 x2 y2 a b rot la sw))
    with (arc_of x2 y2 x1 y1 a b rot la (negb sw)).
  assert (Hne' : x2 <> x1 \/ y2 <> y1) by (destruct Hne; [left | right]; lra).
  rewrite !convertArcParams_fin by assumption.
  destruct (convertR_reverse x1 y1 x2 y2 a b rot la sw Ha Hb Hne)
    as (d & Hd & Hd' & Hphi & Hrx & Hry & Hcx & Hcy).
  repeat split; try assumption.
  intros _. rewrite Hd, Hd'. reflexivity.
Qed.

Lemma X22_reverse_arc_witness :
  proper_arc scenario_arc
  /\ nonzero_number (cross (fst (vectors_of scenario_arc)) (snd (vectors_of scenario_arc)))
  /\ ArcAlt.cx (convertArcParams (reverse_arc scenario_arc))
     = ArcAlt.cx (convertArcParams scenario_arc)
  /\ ArcAlt.dtheta (convertArcParams (reverse_arc scenario_arc))
     = num_neg (ArcAlt.dtheta (convertArcParams scenario_arc)).
Proof.
  split; [exact scenario_arc_proper |]. split; [exact scenario_cross |].
  destruct (X22_reverse_arc scenario_arc scenario_arc_proper) as (_ & _ & _ & Hcx & _ & Hd).
  split; [exact Hcx | exact (Hd scenario_cross)].
Defined.

(** ** [convertArcParams] in binary64 *)

Local Open Scope float_scope.

(** X23: in binary64 a NaN angle is returned for arcs with distinct
    endpoints too.  From [(0, 0)] to [(1, 5)] with radii [1], rotation [0],
    the radii are too small and are corrected; the centre returned is the
    midpoint [(0.5, 2.5)], and [dtheta] is NaN: the argument of [Math.acos]
    is rounded to [-1.0000000000000002].  This holds for every
    implementation of [Math.sin], [Math.cos] and [Math.acos] with the values
    that the language fixes. *)
Theorem X23_rounding_gives_nan (M : Double.math) :
  Double.ecma M ->
  Double.ArcAlt.cx (Double.convertArcParams M Double.rounding_arc) = 0.5
  /\ Double.ArcAlt.cy (Double.convertArcParams M Double.rounding_arc) = 2.5
  /\ Double.ArcAlt.dtheta (Double.convertArcParams M Double.rounding_arc) = nan.
Proof. exact (rounding_arc_converted M). Qed.

Lemma X23_rounding_gives_nan_witness :
  Double.ecma Double.series_math
  /\ Double.ArcAlt.dtheta (Double.convertArcParams Double.series_math Double.rounding_arc)
     = nan.
Proof.
  split; [exact series_math_ecma |].
  exact (proj2 (proj2 (X23_rounding_gives_nan Double.series_math series_math_ecma))).
Defined.

(** X24: in binary64 [dtheta] can be zero for an arc with nonzero radii and
    distinct endpoints.  From [(0, 0)] to [(1, 0)] with radii [1e9],
    rotation [0], the argument of [Math.acos] is rounded to [1] and [dtheta]
    is [+0] with the sweep flag and [-0] without: flipping the flag does not
    make it negative. *)
Theorem X24_flat_arc_zero_dtheta (M : Double.math) (sweep : bool) :
  Double.ecma M ->
  Double.ArcAlt.dtheta (Double.convertArcParams M (Double.flat_arc sweep))
  = if sweep then 0 else -0.
Proof. exact (flat_arc_dtheta M sweep). Qed.

Lemma X24_flat_arc_zero_dtheta_witness :
  Double.ecma Double.series_math
  /\ Double.ArcAlt.dtheta (Double.convertArcParams Double.series_math (Double.flat_arc true))
     = 0.
Proof.
  split; [exact series_math_ecma |].
  exact (X24_flat_arc_zero_dtheta Double.series_math true series_math_ecma).
Defined.

(** X25: in binary64, for every arc and every implementation of [Math.sin],
    [Math.cos] and [Math.acos], flipping both flags leaves [phi], the radii,
    the centre and [theta1] the same doubles, and the two [dtheta] are the
    two corrections of one angle: the same double, or one is the other minus
    or plus [2 * Math.PI], rounded as the code rounds it. *)
Theorem X25_complement_arc_binary64 (M : Double.math) (arc : Double.Arc.t) :
  let alt := Double.convertArcParams M arc in
  let alt' := Double.convertArcParams M (Double.complement_arc arc) in
  let d := Double.ArcAlt.dtheta alt in
  let d' := Double.ArcAlt.dtheta alt' in
  Double.ArcAlt.phi alt' = Double.ArcAlt.phi alt
  /\ Double.ArcAlt.rx alt' = Double.ArcAlt.rx alt
  /\ Double.ArcAlt.ry alt' = Double.ArcAlt.ry alt
  /\ Double.ArcAlt.cx alt' = Double.ArcAlt.cx alt
  /\ Double.ArcAlt.cy alt' = Double.ArcAlt.cy alt
  /\ Double.ArcAlt.theta1 alt' = Double.ArcAlt.theta1 alt
  /\ (d' = d
      \/ if Double.Arc.sweep arc
         then d' = d - 2 * Double.PI \/ d = d' + 2 * Double.PI
         else d' = d + 2 * Double.PI \/ d = d' - 2 * Double.PI).
Proof.
  destruct arc as [s e rx ry rot la sw].
  unfold Double.complement_arc, Double.convertArcParams.
  cbn [Double.Arc.start Double.Arc.end_ Double.Arc.rx Double.Arc.ry Double.Arc.rotation
       Double.Arc.largeArc Double.Arc.sweep].
  replace (Bool.eqb (negb la) (negb sw)) with (Bool.eqb la sw)
    by (destruct la, sw; reflexivity).
  cbv zeta.
  destruct ((rx =? 0) || (ry =? 0));
    cbn [Double.ArcAlt.phi Double.ArcAlt.rx Double.ArcAlt.ry Double.ArcAlt.cx
         Double.ArcAlt.cy Double.ArcAlt.theta1 Double.ArcAlt.dtheta].
  - repeat split. left. reflexivity.
  - do 6 (split; [reflexivity |]).
    match goal with
    | |- context [Double.angle M ?u ?v <? 0] => generalize (Double.angle M u v)
    end.
    intros raw.
    destruct sw; cbn [negb andb]; destruct (0 <? raw) eqn:G, (raw <? 0) eqn:L; auto.
    all: exfalso; rewrite ltb_spec in G, L;
      destruct (Prim2SF raw) as [[]|[]| |[] m e']; discriminate.
Qed.

Close Scope float_scope.
